(** * Jumpseller CLI: credential store, store resolution and theme watcher

    A shallow embedding of [lib/services/auth.js], [lib/services/git.js] and
    [lib/services/watcher.js].  JavaScript strings are sequences of UTF-16
    code units; a code unit is a natural number.  Library functions the
    code calls ([String.prototype.trim], [split], [startsWith], ...) are
    written out following the ECMAScript definitions. *)

From Stdlib Require Import String Ascii.
From Stdlib Require Import List NArith ZArith Bool Lia.
Import ListNotations.

(** ** JavaScript strings *)

Module Js.

Definition char := N.
Definition jsstring := list char.

(** A string literal of the source, as code units. *)
Definition lit (s : string) : jsstring :=
  List.map N_of_ascii (list_ascii_of_string s).

Fixpoint eqb (a b : jsstring) : bool :=
  match a, b with
  | [], [] => true
  | c :: a', d :: b' => N.eqb c d && eqb a' b'
  | _, _ => false
  end.

(** [s.startsWith(p)] *)
Fixpoint startsWith (s p : jsstring) : bool :=
  match p, s with
  | [], _ => true
  | c :: p', d :: s' => N.eqb c d && startsWith s' p'
  | _ :: _, [] => false
  end.

(** [s.endsWith(p)] *)
Definition endsWith (s p : jsstring) : bool :=
  startsWith (rev s) (rev p).

(** [s.slice(n)] for [0 <= n] *)
Definition slice_from (n : nat) (s : jsstring) : jsstring := skipn n s.

(** [s.slice(0, -1)] *)
Definition slice_drop_last (s : jsstring) : jsstring := removelast s.

(** [s.indexOf(c)] for a one-character needle; [-1] when absent. *)
Fixpoint indexOf (c : char) (s : jsstring) : Z :=
  match s with
  | [] => (-1)%Z
  | d :: s' =>
      if N.eqb d c then 0%Z
      else let i := indexOf c s' in
           if Z.eqb i (-1) then (-1)%Z else (i + 1)%Z
  end.

(** WhiteSpace and LineTerminator of ECMAScript: what [trim] strips and
    what the regular expression class [\s] matches. *)
Definition is_space (c : char) : bool :=
  ((9 <=? c) && (c <=? 13) || (c =? 32) || (c =? 160) || (c =? 5760)
   || (8192 <=? c) && (c <=? 8202) || (c =? 8232) || (c =? 8233)
   || (c =? 8239) || (c =? 8287) || (c =? 12288) || (c =? 65279))%N.

Fixpoint trimStart (s : jsstring) : jsstring :=
  match s with
  | [] => []
  | c :: s' => if is_space c then trimStart s' else s
  end.

Definition trimEnd (s : jsstring) : jsstring := rev (trimStart (rev s)).

Definition trim (s : jsstring) : jsstring := trimEnd (trimStart s).

(** [s.split(sep)] for a one-character separator. *)
Fixpoint split (sep : char) (s : jsstring) : list jsstring :=
  match s with
  | [] => [[]]
  | c :: s' =>
      if N.eqb c sep then [] :: split sep s'
      else match split sep s' with
           | l :: ls => (c :: l) :: ls
           | [] => [[c]]
           end
  end.

(** [lines.join(sep)] for a one-character separator. *)
Fixpoint join (sep : char) (ls : list jsstring) : jsstring :=
  match ls with
  | [] => []
  | [l] => l
  | l :: ls' => l ++ sep :: join sep ls'
  end.

(** [s.split(/\s+/)]: the pieces between maximal runs of white space.
    [gap] tells that the previous character was white space. *)
Fixpoint split_ws_from (gap : bool) (s : jsstring) : list jsstring :=
  match s with
  | [] => [[]]
  | c :: s' =>
      if is_space c then
        if gap then split_ws_from true s' else [] :: split_ws_from true s'
      else match split_ws_from false s' with
           | l :: ls => (c :: l) :: ls
           | [] => [[c]]
           end
  end.

Definition split_ws (s : jsstring) : list jsstring := split_ws_from false s.

(** JavaScript values of the fields that are [undefined], [false] or a
    string. *)
Inductive value :=
| Undefined
| False_
| Str (s : jsstring).

Definition truthy (v : value) : bool :=
  match v with
  | Str (_ :: _) => true
  | _ => false
  end.

End Js.

Import Js.

(** Character codes used by the source's literals. *)
Definition SLASH : char := 47%N.
Definition HASH : char := 35%N.
Definition NEWLINE : char := 10%N.
Definition COLON : char := 58%N.
Definition SPACE : char := 32%N.

(** ** StoreReference: [parseStoreReference] and [validCredentials] *)

(** The class [[a-z0-9_-]]. *)
Definition is_label_char (c : char) : bool :=
  ((97 <=? c) && (c <=? 122) || (48 <=? c) && (c <=? 57)
   || (c =? 95) || (c =? 45))%N.

(** [/^[a-z0-9_-]+$/.test(s)] *)
Definition re_label (s : jsstring) : bool :=
  match s with
  | [] => false
  | _ :: _ => forallb is_label_char s
  end.

(** [/^([a-z0-9_-]+)<suffix>$/.test(s)] for a literal [suffix]: the
    characters before the suffix form a non-empty label. *)
Definition re_label_then (suffix s : jsstring) : bool :=
  endsWith s suffix
  && re_label (firstn (length s - length suffix) s).

Definition TEST : jsstring := Eval vm_compute in lit "test".
Definition TEST_LOCALHOST : jsstring := Eval vm_compute in lit "test.localhost".
Definition DOT_JUMPSELLER_COM : jsstring := Eval vm_compute in lit ".jumpseller.com".
Definition DOT_LOCALHOST : jsstring := Eval vm_compute in lit ".localhost".
Definition HTTPS : jsstring := Eval vm_compute in lit "https://".
Definition HTTP : jsstring := Eval vm_compute in lit "http://".
Definition SLASHES : jsstring := Eval vm_compute in lit "//".

(** The four prefix and suffix strippings at the head of
    [parseStoreReference], in the order of the source. *)
Definition strip_reference (store : jsstring) : jsstring :=
  let store := if endsWith store [SLASH] then slice_drop_last store else store in
  let store := if startsWith store HTTPS then slice_from 8 store else store in
  let store := if startsWith store HTTP then slice_from 7 store else store in
  let store := if startsWith store SLASHES then slice_from 2 store else store in
  store.

Definition parseStoreReference (store : jsstring) : bool * jsstring :=
  let store := strip_reference store in
  if Js.eqb store TEST then (true, TEST_LOCALHOST)
  else if re_label_then DOT_JUMPSELLER_COM store then (true, store)
  else if re_label_then DOT_LOCALHOST store then (true, store)
  else if re_label store then (true, store ++ DOT_JUMPSELLER_COM)
  else (false, store).

(** The class [[0-9a-f]]. *)
Definition is_hex (c : char) : bool :=
  ((48 <=? c) && (c <=? 57) || (97 <=? c) && (c <=? 102))%N.

(** [[0-9a-f]{32,50}] against a whole string. *)
Definition hex_run (s : jsstring) : bool :=
  forallb is_hex s && (32 <=? length s)%nat && (length s <=? 50)%nat.

(** The part of [s] before and after the first occurrence of [c]. *)
Fixpoint break_at (c : char) (s : jsstring) : option (jsstring * jsstring) :=
  match s with
  | [] => None
  | d :: s' =>
      if N.eqb d c then Some ([], s')
      else match break_at c s' with
           | Some (l, r) => Some (d :: l, r)
           | None => None
           end
  end.

(** [/^[0-9a-f]{32,50}:[0-9a-f]{32,50}$/.test(credentials)].  No
    character of the class is a colon, so the first colon is the only
    place the pattern's colon can match. *)
Definition validCredentials (credentials : jsstring) : bool :=
  match break_at COLON credentials with
  | Some (login, token) => hex_run login && hex_run token
  | None => false
  end.

Definition UNDEFINED : jsstring := Eval vm_compute in lit "undefined".

(** [validCredentials] applied to a destructured array element, which
    is [undefined] when the array is too short: [RegExp.prototype.test]
    converts its argument to a string. *)
Definition validCredentials_arg (credentials : option jsstring) : bool :=
  match credentials with
  | Some s => validCredentials s
  | None => validCredentials UNDEFINED
  end.

(** ** Lines of the credential file *)

(** [splitLines(text)] *)
Definition splitLines (text : jsstring) : list jsstring :=
  match text with
  | [] => []
  | _ :: _ => split NEWLINE text
  end.

(** [lines.findIndex((line) => line)]: the index of the first non-empty
    line, [-1] when every line is empty. *)
Fixpoint findIndex_truthy (lines : list jsstring) : Z :=
  match lines with
  | [] => (-1)%Z
  | [] :: rest =>
      let i := findIndex_truthy rest in
      if Z.eqb i (-1) then (-1)%Z else (i + 1)%Z
  | (_ :: _) :: _ => 0%Z
  end.

(** [lines.splice(0, n)] leaves the lines from index [n] on; a negative
    delete count is clamped to zero. *)
Definition splice_front (n : Z) (lines : list jsstring) : list jsstring :=
  skipn (Z.to_nat (Z.max 0 n)) lines.

(** [joinLines(lines)] *)
Definition joinLines (lines : list jsstring) : jsstring :=
  let lines := splice_front (findIndex_truthy lines) lines in
  match lines with
  | [] => []
  | _ :: _ => join NEWLINE lines ++ [NEWLINE]
  end.

(** [canonicalLine(line)] *)
Definition canonicalLine (line : jsstring) : jsstring :=
  let index := indexOf HASH line in
  trim (if Z.eqb index (-1) then line else firstn (Z.to_nat index) line).

(** A non-empty string is truthy. *)
Definition nonempty (s : jsstring) : bool :=
  match s with
  | [] => false
  | _ :: _ => true
  end.

(** The first element of [canonicalLine(line).split(/\s+/)]. *)
Definition lineDomain (line : jsstring) : jsstring :=
  hd [] (split_ws (canonicalLine line)).

(** The second element of that array, [undefined] when there is none. *)
Definition lineCredentials (line : jsstring) : option jsstring :=
  nth_error (split_ws (canonicalLine line)) 1.

(** ** The map built by [listCredentials]

    A JavaScript [Map] keeps its keys in insertion order; the value of a
    key is the object [{ credentials }], kept here as its one field. *)

Definition CredMap := list (jsstring * jsstring).

Fixpoint map_get (m : CredMap) (k : jsstring) : option jsstring :=
  match m with
  | [] => None
  | (k', v) :: m' => if Js.eqb k k' then Some v else map_get m' k
  end.

Definition map_has (m : CredMap) (k : jsstring) : bool :=
  match map_get m k with
  | Some _ => true
  | None => false
  end.

Fixpoint map_set (m : CredMap) (k v : jsstring) : CredMap :=
  match m with
  | [] => [(k, v)]
  | (k', v') :: m' =>
      if Js.eqb k k' then (k', v) :: m' else (k', v') :: map_set m' k v
  end.

Definition map_keys (m : CredMap) : list jsstring := List.map fst m.

(** The three [console.error] messages of [listCredentials], each with
    the domain it names. *)
Inductive warning :=
| InvalidDomain (domain : jsstring)
| InvalidCredentials (domain : jsstring)
| DuplicateDomain (domain : jsstring).

(** What the body of the [forEach] decides for one line. *)
Inductive verdict :=
| Reject (w : warning)
| Accept (domain credentials : jsstring).

(** The two format checks of a line: the domain is a store reference in
    canonical form, and the credentials have the credential format. *)
Definition domain_check (line : jsstring) : bool :=
  let domain := lineDomain line in
  let (okDomain, correctedDomain) := parseStoreReference domain in
  okDomain && Js.eqb domain correctedDomain.

Definition credentials_check (line : jsstring) : bool :=
  validCredentials_arg (lineCredentials line).

Definition judge (domains : CredMap) (line : jsstring) : verdict :=
  let domain := lineDomain line in
  let credentials := lineCredentials line in
  let (okDomain, correctedDomain) := parseStoreReference domain in
  if negb okDomain || negb (Js.eqb domain correctedDomain) then
    Reject (InvalidDomain domain)
  else if negb (validCredentials_arg credentials) then
    Reject (InvalidCredentials domain)
  else if map_has domains domain then
    Reject (DuplicateDomain domain)
  else
    match credentials with
    | Some c => Accept domain c
    | None => Accept domain UNDEFINED
    end.

(** One turn of the [forEach]: the map and the messages written so far. *)
Definition listCredentials_step
    (acc : CredMap * list warning) (line : jsstring) : CredMap * list warning :=
  let (domains, log) := acc in
  match judge domains line with
  | Reject w => (domains, log ++ [w])
  | Accept domain credentials => (map_set domains domain credentials, log)
  end.

(** The lines [listCredentials] goes through. *)
Definition credentialLines (content : jsstring) : list jsstring :=
  filter (fun line => nonempty (canonicalLine line)) (splitLines content).

(** [listCredentials] on the loaded text: the map it returns and the
    messages it writes. *)
Definition listCredentials_of (content : jsstring) : CredMap * list warning :=
  fold_left listCredentials_step (credentialLines content) ([], []).

(** The [map] callback of [addCredentials]; the flag tells whether the
    line was the domain's. *)
Definition replaceLine (domain credentials line : jsstring) : jsstring * bool :=
  if negb (Js.eqb domain (lineDomain line)) then (line, false)
  else (domain ++ SPACE :: credentials, true).

(** The text [addCredentials] leaves in [credentialsText]. *)
Definition addCredentials_text (domain credentials content : jsstring) : jsstring :=
  let mapped := List.map (replaceLine domain credentials) (splitLines content) in
  let missing := negb (existsb snd mapped) in
  let lines := List.map fst mapped in
  let lines := if missing then lines ++ [domain ++ SPACE :: credentials] else lines in
  joinLines lines.

(** The text [removeCredentials] leaves in [credentialsText]. *)
Definition removeCredentials_text (domain content : jsstring) : jsstring :=
  joinLines
    (filter (fun line => negb (Js.eqb domain (lineDomain line)))
            (splitLines content)).

(** ** Paths, files and the [Auth] object *)

(** An absolute, normalised POSIX path, as [process.cwd()] and
    [os.homedir()] return it, is kept as its components below the root;
    [path.dirname] drops the last one and leaves the root as it is, and
    [path.join(dir, name)] adds one. *)
Definition dir := list jsstring.

Definition render (d : dir) : jsstring := SLASH :: join SLASH d.

Definition path_join (d : dir) (name : jsstring) : jsstring := render (d ++ [name]).

Definition LOCAL_CURRENT_FILE : jsstring := Eval vm_compute in lit ".jumpseller-store".
Definition DOT_CONFIG : jsstring := Eval vm_compute in lit ".config".
Definition JUMPSELLER : jsstring := Eval vm_compute in lit "jumpseller".
Definition CREDENTIALS : jsstring := Eval vm_compute in lit "credentials".
Definition STORE : jsstring := Eval vm_compute in lit "store".
Definition DOT_TMP_DOT : jsstring := Eval vm_compute in lit ".tmp.".

(** The working directory and the home directory of the process. *)
Record Env := mkEnv { cwd : dir; homedir : dir }.

Definition CONFIG_DIR (env : Env) : dir := homedir env ++ [DOT_CONFIG; JUMPSELLER].
Definition CREDENTIALS_FILE (env : Env) : jsstring := path_join (CONFIG_DIR env) CREDENTIALS.
Definition GLOBAL_CURRENT_FILE (env : Env) : jsstring := path_join (CONFIG_DIR env) STORE.

(** [err.code] of a failed file operation. *)
Inductive errcode := ENOENT | EACCES | EISDIR | ENOTDIR | EIO.

Inductive exn :=
| FsError (code : errcode)
| TypeError.

(** What is at a path: a readable file, or something whose read fails. *)
Inductive node :=
| File (content : jsstring)
| Unreadable (code : errcode).

Definition FileSystem := jsstring -> option node.

Definition fs_set (fs : FileSystem) (p : jsstring) (n : option node) : FileSystem :=
  fun q => if Js.eqb q p then n else fs q.

(** The file operations that change the disk, in the order issued. *)
Inductive fs_op :=
| Mkdir (d : jsstring)
| WriteFile (p content : jsstring)
| Rename (from to : jsstring).

(** The fields of the [Auth] singleton; every field starts [undefined]. *)
Record Auth := mkAuth {
  credentialsText : option jsstring;
  credentialsTextChanged : bool;
  globalDefault : value;
  scopeDefault : value;
  scopeFolder : option dir;
  commandStore : value
}.

Definition fresh_auth : Auth :=
  mkAuth None false Undefined Undefined None Undefined.

(** The object, the disk, the disk operations and the messages so far. *)
Record State := mkState {
  auth : Auth;
  files : FileSystem;
  trace : list fs_op;
  console : list warning
}.

(** A new process over the disk a previous one left. *)
Definition restart (s : State) : State := mkState fresh_auth (files s) [] [].

(** A computation returns a value or throws, and leaves a state. *)
Inductive outcome (A : Type) :=
| Return (a : A) (s : State)
| Throw (e : exn) (s : State).

Arguments Return {A} a s.
Arguments Throw {A} e s.

Definition M (A : Type) := State -> outcome A.

Definition ret {A} (a : A) : M A := fun s => Return a s.

Definition throw {A} (e : exn) : M A := fun s => Throw e s.

Definition bind {A B} (m : M A) (k : A -> M B) : M B :=
  fun s => match m s with
           | Return a s' => k a s'
           | Throw e s' => Throw e s'
           end.

Definition catch {A} (m : M A) (h : exn -> M A) : M A :=
  fun s => match m s with
           | Return a s' => Return a s'
           | Throw e s' => h e s'
           end.

Declare Scope auth_scope.
Delimit Scope auth_scope with auth.
Notation "x <- m ;; k" := (bind m (fun x => k))
  (at level 61, m at next level, right associativity) : auth_scope.
Notation "m ;;; k" := (bind m (fun _ => k))
  (at level 61, right associativity) : auth_scope.
Local Open Scope auth_scope.

Definition get_auth : M Auth := fun s => Return (auth s) s.

Definition set_auth (f : Auth -> Auth) : M unit :=
  fun s => Return tt (mkState (f (auth s)) (files s) (trace s) (console s)).

Definition set_credentialsText (t : jsstring) (a : Auth) : Auth :=
  mkAuth (Some t) (credentialsTextChanged a) (globalDefault a)
         (scopeDefault a) (scopeFolder a) (commandStore a).

Definition set_credentialsTextChanged (b : bool) (a : Auth) : Auth :=
  mkAuth (credentialsText a) b (globalDefault a)
         (scopeDefault a) (scopeFolder a) (commandStore a).

Definition set_globalDefault (v : value) (a : Auth) : Auth :=
  mkAuth (credentialsText a) (credentialsTextChanged a) v
         (scopeDefault a) (scopeFolder a) (commandStore a).

Definition set_scopeDefault (v : value) (a : Auth) : Auth :=
  mkAuth (credentialsText a) (credentialsTextChanged a) (globalDefault a)
         v (scopeFolder a) (commandStore a).

Definition set_scopeFolder (d : dir) (a : Auth) : Auth :=
  mkAuth (credentialsText a) (credentialsTextChanged a) (globalDefault a)
         (scopeDefault a) (Some d) (commandStore a).

Definition set_commandStore (v : value) (a : Auth) : Auth :=
  mkAuth (credentialsText a) (credentialsTextChanged a) (globalDefault a)
         (scopeDefault a) (scopeFolder a) v.

(** [fs.readFileSync(path, "utf-8")] *)
Definition readFileSync (p : jsstring) : M jsstring :=
  fun s => match files s p with
           | Some (File content) => Return content s
           | Some (Unreadable code) => Throw (FsError code) s
           | None => Throw (FsError ENOENT) s
           end.

(** [fs.mkdirSync(dir, { recursive: true })]; directories are not part
    of the disk's model, the call is only recorded. *)
Definition mkdirSync (d : jsstring) : M unit :=
  fun s => Return tt (mkState (auth s) (files s) (trace s ++ [Mkdir d]) (console s)).

(** [fs.writeFileSync(path, content)]; the write is taken to succeed. *)
Definition writeFileSync (p content : jsstring) : M unit :=
  fun s => Return tt (mkState (auth s) (fs_set (files s) p (Some (File content)))
                              (trace s ++ [WriteFile p content]) (console s)).

(** [fs.renameSync(from, to)]: the file moves onto [to]; it fails when
    there is nothing at [from]. *)
Definition renameSync (from to : jsstring) : M unit :=
  fun s => match files s from with
           | None => Throw (FsError ENOENT) s
           | Some n =>
               Return tt (mkState (auth s)
                                  (fs_set (fs_set (files s) to (Some n)) from None)
                                  (trace s ++ [Rename from to]) (console s))
           end.

(** [console.error] of the messages of [listCredentials]. *)
Definition console_error (ws : list warning) : M unit :=
  fun s => Return tt (mkState (auth s) (files s) (trace s) (console s ++ ws)).

(** [readFileIfExists(file)] with the default fallback, the empty string. *)
Definition readFileIfExists (file : jsstring) : M jsstring :=
  catch (readFileSync file)
        (fun err => match err with
                    | FsError ENOENT => ret []
                    | _ => throw err
                    end).

Section AuthMethods.

Variable env : Env.

(** [#loadCredentialsFile] *)
Definition loadCredentialsFile : M jsstring :=
  a <- get_auth ;;
  match credentialsText a with
  | Some text => ret text
  | None =>
      content <- readFileIfExists (CREDENTIALS_FILE env) ;;
      set_auth (set_credentialsText (trim content)) ;;;
      ret (trim content)
  end.

(** [#loadGlobalDefault] *)
Definition loadGlobalDefault : M value :=
  a <- get_auth ;;
  match globalDefault a with
  | Undefined =>
      content <- readFileIfExists (GLOBAL_CURRENT_FILE env) ;;
      let v := if nonempty (trim content) then Str (trim content) else False_ in
      set_auth (set_globalDefault v) ;;;
      ret v
  | v => ret v
  end.

(** [#writeCredentialsFile]; [rnd] is the random part of the temporary
    file's name. *)
Definition writeCredentialsFile (rnd : jsstring) : M unit :=
  let tmp := CREDENTIALS_FILE env ++ DOT_TMP_DOT ++ rnd in
  mkdirSync (render (CONFIG_DIR env)) ;;;
  a <- get_auth ;;
  match credentialsText a with
  | None => throw TypeError
  | Some text =>
      writeFileSync tmp (trimStart text) ;;;
      renameSync tmp (CREDENTIALS_FILE env)
  end.

(** [#writeGlobalDefault] *)
Definition writeGlobalDefault (rnd : jsstring) : M unit :=
  let tmp := GLOBAL_CURRENT_FILE env ++ DOT_TMP_DOT ++ rnd in
  mkdirSync (render (CONFIG_DIR env)) ;;;
  a <- get_auth ;;
  match globalDefault a with
  | Str text =>
      writeFileSync tmp (trimStart text) ;;;
      renameSync tmp (GLOBAL_CURRENT_FILE env)
  | _ => throw TypeError
  end.

(** The [while] loop of [#findScopeFolder].  [up] holds the components
    of [fingerDir], innermost first, so that [path.dirname] is the tail;
    at the root [parentDir === fingerDir] and the loop breaks.  The
    result is the folder the file was found in, if any. *)
Fixpoint findScopeLoop (up : list jsstring) : M (option dir) :=
  let fingerDir := rev up in
  if startsWith (render fingerDir) (render (homedir env))
     || negb (Js.eqb (render fingerDir) [SLASH])
  then
    catch
      (content <- readFileSync (path_join fingerDir LOCAL_CURRENT_FILE) ;;
       set_auth (set_scopeDefault (Str content)) ;;;
       set_auth (set_scopeFolder fingerDir) ;;;
       ret (Some fingerDir))
      (fun err =>
         match err with
         | FsError ENOENT =>
             match up with
             | [] => ret None
             | _ :: parent => findScopeLoop parent
             end
         | _ => throw err
         end)
  else ret None.

(** [#findScopeFolder] *)
Definition findScopeFolder : M dir :=
  let currentDir := cwd env in
  found <- findScopeLoop (rev currentDir) ;;
  match found with
  | Some d => ret d
  | None =>
      set_auth (set_scopeDefault False_) ;;;
      set_auth (set_scopeFolder currentDir) ;;;
      ret currentDir
  end.

Definition getGlobalDefault : M value :=
  loadGlobalDefault ;;;
  a <- get_auth ;;
  ret (globalDefault a).

Definition getLocalDefault : M value :=
  findScopeFolder ;;;
  a <- get_auth ;;
  ret (scopeDefault a).

(** [currentStore]: [||] evaluates its right operand only when the left
    one is falsy. *)
Definition currentStore : M value :=
  a <- get_auth ;;
  if truthy (commandStore a) then ret (commandStore a)
  else
    l <- getLocalDefault ;;
    if truthy l then ret l else getGlobalDefault.

Definition setGlobalDefault (domain rnd : jsstring) : M unit :=
  set_auth (set_globalDefault (Str domain)) ;;;
  writeGlobalDefault rnd.

Definition setCommandStore (domain : jsstring) : M unit :=
  set_auth (set_commandStore (Str domain)).

Definition flush (rnd : jsstring) : M unit :=
  a <- get_auth ;;
  if credentialsTextChanged a then writeCredentialsFile rnd else ret tt.

Definition listCredentials : M CredMap :=
  content <- loadCredentialsFile ;;
  let (domains, log) := listCredentials_of content in
  console_error log ;;;
  ret domains.

Definition getCredentials (domain : jsstring) : M (option jsstring) :=
  storage <- listCredentials ;;
  ret (map_get storage domain).

Definition addCredentials (domain credentials : jsstring) : M unit :=
  content <- loadCredentialsFile ;;
  set_auth (set_credentialsText (addCredentials_text domain credentials content)) ;;;
  set_auth (set_credentialsTextChanged true).

Definition removeCredentials (domain : jsstring) : M unit :=
  content <- loadCredentialsFile ;;
  set_auth (set_credentialsText (removeCredentials_text domain content)) ;;;
  set_auth (set_credentialsTextChanged true).

End AuthMethods.

(** ** GitObserver *)

(** What the working tree shows when it is looked at: whether
    [.git/index.lock] exists, and the output of [git branch
    --show-current] and of [git stash list]; both commands are taken to
    succeed. *)
Record Repo := mkRepo {
  index_lock : bool;
  branch_output : jsstring;
  stash_output : jsstring
}.

(** The observer's fields; [branch] and [stash] are [undefined] until
    [pin] sets them. *)
Record GitObserver := mkGitObserver {
  folder : jsstring;
  branch : option jsstring;
  stash : option jsstring
}.

Definition option_eqb (a : option jsstring) (b : jsstring) : bool :=
  match a with
  | Some s => Js.eqb s b
  | None => false
  end.

Section Git.

(** The hexadecimal SHA-1 digest of [crypto]. *)
Variable sha1 : jsstring -> jsstring.

Definition isIndexLocked (r : Repo) : bool := index_lock r.

Definition readBranch (r : Repo) : jsstring := trim (branch_output r).

Definition readStash (r : Repo) : jsstring := sha1 (trim (stash_output r)).

Definition pin (g : GitObserver) (r : Repo) : GitObserver :=
  mkGitObserver (folder g) (Some (readBranch r)) (Some (readStash r)).

Definition check (g : GitObserver) (r : Repo) : bool :=
  isIndexLocked r
  || negb (option_eqb (branch g) (readBranch r))
  || negb (option_eqb (stash g) (readStash r)).

End Git.

(** ** ThemeWatcher *)

(** A remote call handed to the API client. *)
Inductive request :=
| PutSchema (path content : jsstring)
| DeleteSchema (path : jsstring).

(** Lines written to the console by the event handler. *)
Inductive notice :=
| GitOperationDetected (folder : jsstring)
| Handled (action path : jsstring).

Record ThemeWatcher := mkThemeWatcher {
  allowlist : list jsstring;
  blocklist : list jsstring;
  requests : list request;
  gitObserver : option GitObserver;
  stopped : bool;
  notices : list notice
}.

Definition PARTIALS : jsstring := Eval vm_compute in lit "partials/".
Definition COMPONENTS : jsstring := Eval vm_compute in lit "components/".
Definition TEMPLATES : jsstring := Eval vm_compute in lit "templates/".
Definition ASSETS_LIBRARY : jsstring := Eval vm_compute in lit "assets/library/".
Definition ASSETS : jsstring := Eval vm_compute in lit "assets/".
Definition CONFIG : jsstring := Eval vm_compute in lit "config/".
Definition CHANGE : jsstring := Eval vm_compute in lit "change".
Definition ADD : jsstring := Eval vm_compute in lit "add".
Definition UNLINK : jsstring := Eval vm_compute in lit "unlink".
Definition SKIP : jsstring := Eval vm_compute in lit "SKIP".
Definition WRITE : jsstring := Eval vm_compute in lit "WRITE".
Definition DELETE : jsstring := Eval vm_compute in lit "DELETE".

Section Watcher.

(** [micromatch.isMatch(path, patterns)] *)
Variable isMatch : jsstring -> list jsstring -> bool.

(** [path.relative(folder, fullpath)] *)
Variable relative : jsstring -> jsstring -> jsstring.

Variable sha1 : jsstring -> jsstring.

(** [isKnownPath] *)
Definition isKnownPath (w : ThemeWatcher) (path : jsstring) : bool :=
  if isMatch path (allowlist w) then true
  else if isMatch path (blocklist w) then false
  else if startsWith path PARTIALS then true
  else if startsWith path COMPONENTS then true
  else if startsWith path TEMPLATES then true
  else if startsWith path ASSETS_LIBRARY then false
  else if startsWith path ASSETS then true
  else if startsWith path CONFIG then true
  else false.

(** [#checkGitRepository] *)
Definition checkGitRepository (w : ThemeWatcher) (r : Repo) : bool :=
  match gitObserver w with
  | None => false
  | Some g => check sha1 g r
  end.

(** [stop()]: resolves the promise [watch] awaits. *)
Definition stop (w : ThemeWatcher) : ThemeWatcher :=
  mkThemeWatcher (allowlist w) (blocklist w) (requests w) (gitObserver w)
                 true (notices w).

Definition push_request (q : request) (w : ThemeWatcher) : ThemeWatcher :=
  mkThemeWatcher (allowlist w) (blocklist w) (requests w ++ [q]) (gitObserver w)
                 (stopped w) (notices w).

Definition say (n : notice) (w : ThemeWatcher) : ThemeWatcher :=
  mkThemeWatcher (allowlist w) (blocklist w) (requests w) (gitObserver w)
                 (stopped w) (notices w ++ [n]).

Definition observer_folder (w : ThemeWatcher) : jsstring :=
  match gitObserver w with
  | Some g => folder g
  | None => []
  end.

(** The listener [watch] installs for ["all"].  [watched] is the folder
    given to [watch]; [r] is the working tree and [read] the files as
    they are when the event arrives ([read] gives [None] where
    [fs.readFileSync] throws, and then so does the listener). *)
Definition on_all (watched : jsstring) (r : Repo) (read : jsstring -> option jsstring)
    (event fullpath : jsstring) (w : ThemeWatcher) : option ThemeWatcher :=
  let relativePath := relative watched fullpath in
  let action := if isKnownPath w relativePath then event else SKIP in
  let w :=
    if checkGitRepository w r
    then stop (say (GitOperationDetected (observer_folder w)) w)
    else w in
  if Js.eqb action CHANGE || Js.eqb action ADD then
    match read fullpath with
    | None => None
    | Some content =>
        Some (say (Handled WRITE relativePath)
                  (push_request (PutSchema relativePath content) w))
    end
  else if Js.eqb action UNLINK then
    Some (say (Handled DELETE relativePath)
              (push_request (DeleteSchema relativePath) w))
  else
    Some (say (Handled action relativePath) w).

End Watcher.

(** The characters a canonical domain is made of: [[a-z0-9_.-]]. *)
Definition is_domain_char (c : char) : bool := is_label_char c || (c =? 46)%N.

(** ** Store references in the words of the specification

    What the rules say, written without the code's tests and slices, to
    be compared with [strip_reference] and [parseStoreReference]. *)

(** [r] is [s] without the leading [p], or [s] itself when [s] does not
    start with [p]. *)
Definition without_prefix (p s r : jsstring) : Prop :=
  s = p ++ r \/ ((forall t, s <> p ++ t) /\ r = s).

(** [r] is [s] without the trailing [p], or [s] itself when [s] does
    not end with [p]. *)
Definition without_suffix (p s r : jsstring) : Prop :=
  s = r ++ p \/ ((forall t, s <> t ++ p) /\ r = s).

(** Strip one trailing [/], then a leading [https://], then [http://],
    then [//]. *)
Definition stripped (s r : jsstring) : Prop :=
  exists a b c,
    without_suffix [SLASH] s a /\ without_prefix HTTPS a b
    /\ without_prefix HTTP b c /\ without_prefix SLASHES c r.

(** The accepted shapes of what remains, each with its canonical
    domain: [test]; a label followed by [.jumpseller.com] or by
    [.localhost]; a bare label. *)
Inductive store_shape : jsstring -> jsstring -> Prop :=
| shape_test : store_shape TEST TEST_LOCALHOST
| shape_production (L : jsstring) :
    re_label L = true ->
    store_shape (L ++ DOT_JUMPSELLER_COM) (L ++ DOT_JUMPSELLER_COM)
| shape_local (L : jsstring) :
    re_label L = true ->
    store_shape (L ++ DOT_LOCALHOST) (L ++ DOT_LOCALHOST)
| shape_label (L : jsstring) :
    re_label L = true -> L <> TEST ->
    store_shape L (L ++ DOT_JUMPSELLER_COM).

(** The label of a reference: what remains without a final
    [.jumpseller.com] or [.localhost]. *)
Definition label_part (r : jsstring) : jsstring :=
  if endsWith r DOT_JUMPSELLER_COM
  then firstn (length r - length DOT_JUMPSELLER_COM) r
  else if endsWith r DOT_LOCALHOST
  then firstn (length r - length DOT_LOCALHOST) r
  else r.

(** ** Reading [listCredentials] line by line

    What each line of the file comes to, told from the lines before it
    rather than from the map built so far. *)

(** The line passes the store-reference check and the credential-format
    check. *)
Definition passes (line : jsstring) : bool :=
  domain_check line && credentials_check line.

(** The credentials a line carries. *)
Definition credentials_of (line : jsstring) : jsstring :=
  match lineCredentials line with
  | Some c => c
  | None => UNDEFINED
  end.

(** One of the lines [before] passes both checks and has this domain. *)
Definition already_listed (before : list jsstring) (domain : jsstring) : bool :=
  existsb (fun l => passes l && Js.eqb (lineDomain l) domain) before.

Definition classify (before : list jsstring) (line : jsstring) : verdict :=
  let domain := lineDomain line in
  if negb (domain_check line) then Reject (InvalidDomain domain)
  else if negb (credentials_check line) then Reject (InvalidCredentials domain)
  else if already_listed before domain then Reject (DuplicateDomain domain)
  else Accept domain (credentials_of line).

Fixpoint verdicts (before lines : list jsstring) : list verdict :=
  match lines with
  | [] => []
  | line :: rest => classify before line :: verdicts (before ++ [line]) rest
  end.

Definition accepted (vs : list verdict) : CredMap :=
  flat_map (fun v => match v with
                     | Accept d c => [(d, c)]
                     | Reject _ => []
                     end) vs.

Definition rejected (vs : list verdict) : list warning :=
  flat_map (fun v => match v with
                     | Accept _ _ => []
                     | Reject w => [w]
                     end) vs.

(** The domain a message names. *)
Definition warning_domain (w : warning) : jsstring :=
  match w with
  | InvalidDomain d | InvalidCredentials d | DuplicateDomain d => d
  end.

(** ** Sample data *)

Definition sample_credentials : jsstring :=
  Eval vm_compute in
    lit "0123456789abcdef0123456789abcdef:fedcba9876543210fedcba9876543210".

Definition other_credentials : jsstring :=
  Eval vm_compute in
    lit "00112233445566778899aabbccddeeff:ffeeddccbbaa99887766554433221100".

Definition SHOP : jsstring := Eval vm_compute in lit "shop".
Definition SHOP_DOMAIN : jsstring := Eval vm_compute in lit "shop.jumpseller.com".
Definition OTHER_DOMAIN : jsstring := Eval vm_compute in lit "other.jumpseller.com".

(** A credential file with a good line, a line whose domain is a bare
    label, a line with malformed credentials and a line repeating the
    first one's domain. *)
Definition sample_file : jsstring :=
  SHOP_DOMAIN ++ SPACE :: sample_credentials ++ NEWLINE ::
  SHOP ++ SPACE :: sample_credentials ++ NEWLINE ::
  OTHER_DOMAIN ++ SPACE :: lit "secret" ++ NEWLINE ::
  SHOP_DOMAIN ++ SPACE :: other_credentials.

Definition no_files : FileSystem := fun _ => None.

Definition sample_env : Env :=
  mkEnv [lit "home"; lit "dev"; lit "theme"] [lit "home"; lit "dev"].

(** A process that has loaded [text] as its credential text. *)
Definition loaded (text : jsstring) : State :=
  mkState (set_credentialsText text fresh_auth) no_files [] [].

(** The text [#loadCredentialsFile] gives: the text the object holds,
    else the content of the credential file without the white space
    around it, empty when the file is missing. *)
Definition credentialsText_of (env : Env) (s : State) : jsstring :=
  match credentialsText (auth s) with
  | Some text => text
  | None =>
      match files s (CREDENTIALS_FILE env) with
      | Some (File content) => trim content
      | _ => []
      end
  end.

(** A new process over a disk whose credential file holds [text]. *)
Definition credentials_on_disk (text : jsstring) : State :=
  mkState fresh_auth (fs_set no_files (CREDENTIALS_FILE sample_env) (Some (File text))) [] [].

(** A credential file whose first line has malformed credentials and
    whose second line has the same domain with well-formed ones. *)
Definition repeated_domain_file : jsstring :=
  SHOP_DOMAIN ++ SPACE :: lit "secret" ++ NEWLINE ::
  SHOP_DOMAIN ++ SPACE :: sample_credentials.

(** ** Canonical lines

    [listCredentials], [addCredentials] and [removeCredentials] look at
    a line only through [canonicalLine]. *)

(** The part of a line before its first [#]. *)
Fixpoint before_hash (line : jsstring) : jsstring :=
  match line with
  | [] => []
  | c :: rest => if N.eqb c HASH then [] else c :: before_hash rest
  end.

(** The non-empty canonical lines of a text, in order. *)
Definition canonicalLines (text : jsstring) : list jsstring :=
  filter nonempty (List.map canonicalLine (split NEWLINE text)).

(** A string without a line break. *)
Definition one_line (s : jsstring) : Prop := ~ In NEWLINE s.

(** A character that is neither white space nor [#]. *)
Definition is_plain (c : char) : bool := negb (is_space c) && negb (N.eqb c HASH).

(** The characters of a well-formed credential: [[0-9a-f:]]. *)
Definition is_credential_char (c : char) : bool := is_hex c || N.eqb c COLON.

(** The line [addCredentials] writes for a domain. *)
Definition credentialLine (domain credentials : jsstring) : jsstring :=
  domain ++ SPACE :: credentials.

(** A string of plain characters. *)
Definition all_plain (s : jsstring) : Prop := Forall (fun c => is_plain c = true) s.

(** The lines [addCredentials] joins: the old lines with the domain's
    lines replaced, and the new line at the end when there was none. *)
Definition addCredentials_lines (domain credentials : jsstring)
    (lines : list jsstring) : list jsstring :=
  let mapped := List.map (replaceLine domain credentials) lines in
  if negb (existsb snd mapped)
  then List.map fst mapped ++ [domain ++ SPACE :: credentials]
  else List.map fst mapped.

(** The name of the temporary file [#writeCredentialsFile] writes. *)
Definition credentials_tmp (env : Env) (rnd : jsstring) : jsstring :=
  CREDENTIALS_FILE env ++ DOT_TMP_DOT ++ rnd.

(** The three disk operations of one [#writeCredentialsFile]. *)
Definition write_ops (env : Env) (rnd text : jsstring) : list fs_op :=
  [Mkdir (render (CONFIG_DIR env));
   WriteFile (credentials_tmp env rnd) (trimStart text);
   Rename (credentials_tmp env rnd) (CREDENTIALS_FILE env)].

(** A process whose credential text is [text], changed and not yet
    written, over an empty disk. *)
Definition dirty (text : jsstring) : State :=
  mkState (set_credentialsTextChanged true (set_credentialsText text fresh_auth))
          no_files [] [].

(** ** The walk of [#findScopeFolder], step by step *)

(** The test of the [while] loop for a directory. *)
Definition walk_continues (env : Env) (fingerDir : dir) : bool :=
  startsWith (render fingerDir) (render (homedir env))
  || negb (Js.eqb (render fingerDir) [SLASH]).

(** The state after the local default file was read in [d]. *)
Definition scope_found (d : dir) (content : jsstring) (s : State) : State :=
  mkState (set_scopeFolder d (set_scopeDefault (Str content) (auth s)))
          (files s) (trace s) (console s).

(** The state after the walk ended without a file. *)
Definition scope_missing (env : Env) (s : State) : State :=
  mkState (set_scopeFolder (cwd env) (set_scopeDefault False_ (auth s)))
          (files s) (trace s) (console s).

(** The state after the global default was loaded as [v]. *)
Definition global_loaded (v : value) (s : State) : State :=
  mkState (set_globalDefault v (auth s)) (files s) (trace s) (console s).

(** A directory above the home directory holds a local default file;
    the working directory and the home directory hold none. *)
Definition file_above_home : State :=
  mkState fresh_auth
          (fs_set no_files (path_join [lit "home"] LOCAL_CURRENT_FILE)
                  (Some (File SHOP_DOMAIN)))
          [] [].

(** ** Sample configurations of the three layers *)

Definition LOCAL_DOMAIN : jsstring := Eval vm_compute in lit "local.jumpseller.com".
Definition GLOBAL_DOMAIN : jsstring := Eval vm_compute in lit "global.jumpseller.com".

(** A disk with a local default in the working directory and a global
    default. *)
Definition layered_files : FileSystem :=
  fs_set (fs_set no_files
                 (path_join (cwd sample_env) LOCAL_CURRENT_FILE)
                 (Some (File LOCAL_DOMAIN)))
         (GLOBAL_CURRENT_FILE sample_env)
         (Some (File (GLOBAL_DOMAIN ++ [NEWLINE]))).

(** A disk with a global default only. *)
Definition global_only_files : FileSystem :=
  fs_set no_files (GLOBAL_CURRENT_FILE sample_env)
         (Some (File (GLOBAL_DOMAIN ++ [NEWLINE]))).

(** A new process over [fs] with the command-line store [c]. *)
Definition started (c : value) (fs : FileSystem) : State :=
  mkState (set_commandStore c fresh_auth) fs [] [].

(** ** PathPolicy as an ordered rule list

    The evaluation order of the path policy written as data: each rule
    has a test and the answer it gives; the first rule whose test holds
    decides, and a path no rule takes is not syncable. *)

Inductive rule := Rule (applies : jsstring -> bool) (syncable : bool).

Fixpoint first_match (rules : list rule) (path : jsstring) : bool :=
  match rules with
  | [] => false
  | Rule applies syncable :: rest =>
      if applies path then syncable else first_match rest path
  end.

Definition under (prefix path : jsstring) : bool := startsWith path prefix.

Definition path_rules (isMatch : jsstring -> list jsstring -> bool)
    (allow block : list jsstring) : list rule :=
  [ Rule (fun p => isMatch p allow) true;
    Rule (fun p => isMatch p block) false;
    Rule (under PARTIALS) true;
    Rule (under COMPONENTS) true;
    Rule (under TEMPLATES) true;
    Rule (under ASSETS_LIBRARY) false;
    Rule (under ASSETS) true;
    Rule (under CONFIG) true ].

(** ** Sample watch session *)

(** A matcher for patterns without wildcards: a path matches the
    pattern equal to it. *)
Definition literalMatch (path : jsstring) (patterns : list jsstring) : bool :=
  existsb (Js.eqb path) patterns.

(** [path.relative] for a file below the watched folder. *)
Definition below (watched fullpath : jsstring) : jsstring :=
  skipn (length watched + 1) fullpath.

(** A stand-in for the digest; the samples do not depend on it. *)
Definition plain_digest (s : jsstring) : jsstring := s.

Definition MAIN : jsstring := Eval vm_compute in lit "main".
Definition FEATURE : jsstring := Eval vm_compute in lit "feature".
Definition THEME_DIR : jsstring := Eval vm_compute in lit "/home/dev/theme".
Definition HEADER_FULL : jsstring := Eval vm_compute in lit "/home/dev/theme/templates/header.json".
Definition HEADER : jsstring := Eval vm_compute in lit "templates/header.json".
Definition VENDOR : jsstring := Eval vm_compute in lit "assets/library/vendor.js".
Definition FOO : jsstring := Eval vm_compute in lit "components/foo.json".
Definition BRACES : jsstring := Eval vm_compute in lit "{}".

(** The working tree when the session was pinned, and after a switch of
    branch. *)
Definition pinned_repo : Repo := mkRepo false (MAIN ++ [NEWLINE]) [].
Definition switched_repo : Repo := mkRepo false (FEATURE ++ [NEWLINE]) [].

(** A watcher with the default options, pinned on [pinned_repo]. *)
Definition sample_watcher : ThemeWatcher :=
  mkThemeWatcher [] [lit "components/*.json"] []
    (Some (pin plain_digest (mkGitObserver (lit "/home/dev") None None) pinned_repo))
    false [].

Definition sample_read (p : jsstring) : option jsstring :=
  if Js.eqb p HEADER_FULL then Some BRACES else None.

(** ** Looking a domain up in the lines of the credential text *)

(** The line is accepted for [domain] when no earlier line was. *)
Definition lists (domain line : jsstring) : bool :=
  passes line && Js.eqb (lineDomain line) domain.

(** The credentials of the first line that passes both checks with
    [domain]. *)
Definition lookup_lines (domain : jsstring) (lines : list jsstring) : option jsstring :=
  option_map credentials_of (find (lists domain) lines).

(** ** The [access remove] command *)

Section AccessCommands.

Variable env : Env.

(** [remove(store)] of [access.js]; the result tells which of the two
    messages is printed: [true] for "Removed credentials for", [false]
    for "No credentials found for". *)
Definition remove_command (rnd store : jsstring) : M bool :=
  (exists_ <- getCredentials env store ;;
   match exists_ with
   | None => ret false
   | Some _ =>
       removeCredentials env store ;;;
       flush env rnd ;;;
       ret true
   end)%auth.

End AccessCommands.

(** ** Setting the local default *)

Section LocalDefault.

Variable env : Env.

(** The name of the temporary file [#writeLocalDefault] writes in the
    scope folder. *)
Definition local_tmp (d : dir) (rnd : jsstring) : jsstring :=
  path_join d (LOCAL_CURRENT_FILE ++ DOT_TMP_DOT ++ rnd).

(** [#writeLocalDefault]; [path.join] throws a [TypeError] on an
    [undefined] scope folder, and so does [trimStart] on a scope default
    that is no string. *)
Definition writeLocalDefault (rnd : jsstring) : M unit :=
  (a <- get_auth ;;
   match scopeFolder a with
   | None => throw TypeError
   | Some d =>
       mkdirSync (render d) ;;;
       match scopeDefault a with
       | Str text =>
           writeFileSync (local_tmp d rnd) (trimStart text) ;;;
           renameSync (local_tmp d rnd) (path_join d LOCAL_CURRENT_FILE)
       | _ => throw TypeError
       end
   end)%auth.

(** [setLocalDefault(domain)] *)
Definition setLocalDefault (domain rnd : jsstring) : M unit :=
  (findScopeFolder env ;;;
   set_auth (set_scopeDefault (Str domain)) ;;;
   writeLocalDefault rnd)%auth.

End LocalDefault.

(** The name of the temporary file [#writeGlobalDefault] writes. *)
Definition global_tmp (env : Env) (rnd : jsstring) : jsstring :=
  GLOBAL_CURRENT_FILE env ++ DOT_TMP_DOT ++ rnd.

(** A process started in the root directory. *)
Definition root_env : Env := mkEnv [] [lit "home"; lit "dev"].

(** ** URLs of a store *)

Definition API_LOCALHOST : jsstring := Eval vm_compute in lit "http://api.localhost".
Definition API_JUMPSELLER : jsstring := Eval vm_compute in lit "https://api.jumpseller.com".

(** [jumpsellerDomain(store)] *)
Definition jumpsellerDomain (store : jsstring) : jsstring :=
  if endsWith store DOT_LOCALHOST then HTTP ++ store else HTTPS ++ store.

(** [resolveApiDomain(store)] of [api.js] *)
Definition resolveApiDomain (store : jsstring) : jsstring :=
  if endsWith store DOT_LOCALHOST then API_LOCALHOST else API_JUMPSELLER.

(** ** Validation of a store argument *)

(** What [validateStoreDomain] comes to: the domain it returns, or the
    [InvalidArgumentError] it throws, with the value its message names. *)
Inductive validated :=
| Valid (domain : jsstring)
| InvalidArgument (value : jsstring).

(** [validateStoreDomain(value)] of [input.js] *)
Definition validateStoreDomain (value : jsstring) : validated :=
  let (ok, domain) := parseStoreReference value in
  if ok then Valid domain else InvalidArgument value.

(** ** The guard of the store commands *)

(** How a guarded command ends: the two errors of [middleware.js], or an
    error thrown underneath. *)
Inductive command_error :=
| NoStoreError
| NoCredentialsError (store : value)
| Uncaught (e : exn).

Inductive command_outcome (A : Type) :=
| Done (a : A) (s : State)
| Failed (e : command_error) (s : State).

Arguments Done {A} a s.
Arguments Failed {A} e s.

Section Middleware.

Variable env : Env.

(** [Auth.getCredentials(store)] for the value [currentStore()] gave:
    the map has strings as keys, so [false] finds nothing. *)
Definition getCredentials_value (store : value) : M (option jsstring) :=
  (storage <- listCredentials env ;;
   ret (match store with
        | Str d => map_get storage d
        | _ => None
        end))%auth.

(** [withCurrentStore(action)]: the wrapped command. *)
Definition withCurrentStore {A} (action : State -> command_outcome A)
    (s : State) : command_outcome A :=
  match currentStore env s with
  | Throw e s1 => Failed (Uncaught e) s1
  | Return store s1 =>
      match getCredentials_value store s1 with
      | Throw e s2 => Failed (Uncaught e) s2
      | Return credentials s2 =>
          if negb (truthy store) then Failed NoStoreError s2
          else match credentials with
               | None => Failed (NoCredentialsError store) s2
               | Some _ => action s2
               end
      end
  end.

End Middleware.

(** ** Finding the git root *)

Definition DOT_GIT : jsstring := Eval vm_compute in lit ".git".

Section GitRoot.

(** [fs.existsSync] *)
Variable present : jsstring -> bool.

(** The loop of [findGitRoot] from a directory given by its components,
    innermost first; it ends, without a look at it, at the directory
    that is its own [path.dirname], the root. *)
Fixpoint findGitRoot_from (up : list jsstring) : option dir :=
  match up with
  | [] => None
  | _ :: parent =>
      if present (path_join (rev up) DOT_GIT) then Some (rev up)
      else findGitRoot_from parent
  end.

(** [GitObserver.findGitRoot(dir)] for the resolved directory. *)
Definition findGitRoot (d : dir) : option dir := findGitRoot_from (rev d).

Variable sha1 : jsstring -> jsstring.

(** [#pinGitRepository(folder)]; [notices] holds the lines of the event
    handler only, the line printed here is not kept. *)
Definition pinGitRepository (folder : dir) (r : Repo) (w : ThemeWatcher) : ThemeWatcher :=
  match findGitRoot folder with
  | Some gitRoot =>
      mkThemeWatcher (allowlist w) (blocklist w) (requests w)
        (Some (pin sha1 (mkGitObserver (render gitRoot) None None) r))
        (stopped w) (notices w)
  | None => w
  end.

End GitRoot.

(** A watcher as its constructor leaves it. *)
Definition new_watcher (allow block : list jsstring) : ThemeWatcher :=
  mkThemeWatcher allow block [] None false [].

(** The state [to] with the two scope fields of [from]. *)
Definition copy_scope (from to : State) : State :=
  mkState (mkAuth (credentialsText (auth to)) (credentialsTextChanged (auth to))
                  (globalDefault (auth to))
                  (scopeDefault (auth from)) (scopeFolder (auth from))
                  (commandStore (auth to)))
          (files to) (trace to) (console to).

(** Two states agree on what [currentStore] reads and sets. *)
Definition same_layers (s s' : State) : Prop :=
  files s' = files s
  /\ commandStore (auth s') = commandStore (auth s)
  /\ globalDefault (auth s') = globalDefault (auth s)
  /\ scopeDefault (auth s') = scopeDefault (auth s)
  /\ scopeFolder (auth s') = scopeFolder (auth s).

(** A disk whose only [.git] is the one of the root directory. *)
Definition git_at_root (p : jsstring) : bool := Js.eqb p (path_join [] DOT_GIT).

(** ** Collected option values

    The values of a repeated option are collected in a JavaScript array,
    and arrays are shared by reference: the heap gives each array its
    present content. *)

Definition ref := nat.

Definition Heap := ref -> list jsstring.

(** [array.push(v)] *)
Definition push (h : Heap) (r : ref) (v : jsstring) : Heap :=
  fun q => if Nat.eqb q r then h q ++ [v] else h q.

(** [array.push(...vs)] *)
Definition push_all (h : Heap) (r : ref) (vs : list jsstring) : Heap :=
  fold_left (fun h v => push h r v) vs h.

Section Collector.

(** The validator; [None] where it throws. *)
Variable validator : jsstring -> option jsstring.

(** The array [initial] of this collector. *)
Variable initial : ref.

(** The function [validationCollector(validator, initial)] returns:
    [(arg, args) => ((args ??= initial), args.push(validator(arg)), args)];
    [None] where the validator throws. *)
Definition collect (arg : jsstring) (args : option ref) (h : Heap) : option (ref * Heap) :=
  let args := match args with
              | Some r => r
              | None => initial
              end in
  match validator arg with
  | Some v => Some (args, push h args v)
  | None => None
  end.

(** The collector called once for each value given, each call handed
    what the call before returned, the first one [previous]. *)
Fixpoint collect_all (values : list jsstring) (previous : option ref) (h : Heap)
    : option (option ref * Heap) :=
  match values with
  | [] => Some (previous, h)
  | v :: rest =>
      match collect v previous h with
      | Some (r, h') => collect_all rest (Some r) h'
      | None => None
      end
  end.

End Collector.

(** ** The options of [theme watch] *)

(** The array [WATCH_UNSAFE_FILES], the array given as the default of
    [--allow], and the [initial] arrays of the two collectors. *)
Definition WATCH_UNSAFE_FILES : ref := 0.
Definition ALLOW_DEFAULT : ref := 1.
Definition BLOCK_INITIAL : ref := 2.
Definition ALLOW_INITIAL : ref := 3.

Definition COMPONENTS_JSON : jsstring := Eval vm_compute in lit "components/*.json".

(** The arrays when the module is loaded. *)
Definition watch_heap : Heap :=
  fun r => if Nat.eqb r WATCH_UNSAFE_FILES then [COMPONENTS_JSON] else [].

(** One [--block] or [--allow] on the command line. *)
Inductive watch_option :=
| BlockOption (pattern : jsstring)
| AllowOption (pattern : jsstring).

(** The option values as the command-line parser leaves them.  The
    parser hands a custom option processor the previous value of the
    option, which for the first occurrence is the option's default: the
    array [WATCH_UNSAFE_FILES] for [--block], the array [[]] given for
    [--allow].  Both validators are [(arg) => arg]. *)
Fixpoint parse_watch_options (given : list watch_option) (block allow : ref) (h : Heap)
    : ref * ref * Heap :=
  match given with
  | [] => (block, allow, h)
  | BlockOption p :: rest =>
      match collect Some BLOCK_INITIAL p (Some block) h with
      | Some (r, h') => parse_watch_options rest r allow h'
      | None => (block, allow, h)
      end
  | AllowOption p :: rest =>
      match collect Some ALLOW_INITIAL p (Some allow) h with
      | Some (r, h') => parse_watch_options rest block r h'
      | None => (block, allow, h)
      end
  end.

(** The first line of the [watch] action:
    [if (options.unsafe) options.allow.push(...WATCH_UNSAFE_FILES)]. *)
Definition apply_unsafe (unsafe : bool) (allow : ref) (h : Heap) : Heap :=
  if unsafe then push_all h allow (h WATCH_UNSAFE_FILES) else h.

(** The allowlist and the blocklist of the [ThemeWatcher] the action
    builds. *)
Definition watch_lists (given : list watch_option) (unsafe : bool)
    : list jsstring * list jsstring :=
  let '(block, allow, h) :=
    parse_watch_options given WATCH_UNSAFE_FILES ALLOW_DEFAULT watch_heap in
  let h := apply_unsafe unsafe allow h in
  (h allow, h block).

Fixpoint blocks_of (given : list watch_option) : list jsstring :=
  match given with
  | [] => []
  | BlockOption p :: rest => p :: blocks_of rest
  | AllowOption _ :: rest => blocks_of rest
  end.

Fixpoint allows_of (given : list watch_option) : list jsstring :=
  match given with
  | [] => []
  | AllowOption p :: rest => p :: allows_of rest
  | BlockOption _ :: rest => allows_of rest
  end.

(** [micromatch.isMatch] with a list of patterns holds when one of the
    patterns matches; [glob] is the match of a single pattern. *)
Definition anyMatch (glob : jsstring -> jsstring -> bool)
    (path : jsstring) (patterns : list jsstring) : bool :=
  existsb (glob path) patterns.

(** The watcher the [watch] action builds from the options. *)
Definition watch_watcher (given : list watch_option) (unsafe : bool) : ThemeWatcher :=
  let '(allow, block) := watch_lists given unsafe in
  new_watcher allow block.

(** ** Tables (output.js) *)

(** The values a table cell is built from; numbers are integers. *)
Inductive cell :=
| CUndefined
| CNull
| CBool (b : bool)
| CNumber (n : Z)
| CString (s : jsstring).

(** JavaScript truthiness. *)
Definition cell_truthy (c : cell) : bool :=
  match c with
  | CUndefined | CNull => false
  | CBool b => b
  | CNumber n => negb (Z.eqb n 0)
  | CString [] => false
  | CString (_ :: _) => true
  end.

(** [value || ""] *)
Definition or_empty (c : cell) : cell :=
  if cell_truthy c then c else CString [].

(** [emptyValue]: [value === null || value === undefined || value === ""] *)
Definition emptyValue (c : cell) : bool :=
  match c with
  | CUndefined | CNull => true
  | CString [] => true
  | _ => false
  end.

(** A row object: the value of [row[key]]. *)
Definition row := jsstring -> cell.

(** [array.map((x, i) => f i x)] *)
Fixpoint mapi_from {A B : Type} (f : nat -> A -> B) (i : nat) (l : list A) : list B :=
  match l with
  | [] => []
  | a :: rest => f i a :: mapi_from f (S i) rest
  end.

(** [assembleTable(info, content)].  [info] lists the keys with their
    labels, in the order of [Object.keys] and [Object.values]; an array
    [info] is its elements, each its own label. *)
Definition assembleTable (info : list (jsstring * jsstring)) (content : list row)
    : list (list cell) :=
  let keys := map fst info in
  let rows := map (fun r : row => map (fun key => or_empty (r key)) keys) content in
  let header :=
    mapi_from (fun i label =>
                 if forallb (fun r => emptyValue (nth i r CUndefined)) rows
                 then CString []
                 else or_empty (CString label))
              0 (map snd info) in
  header :: rows.

(** An array as [info]. *)
Definition info_of_array (keys : list jsstring) : list (jsstring * jsstring) :=
  map (fun k => (k, k)) keys.

(** A column is blank when no row has a truthy value under its key. *)
Definition blank_column (content : list row) (key : jsstring) : bool :=
  forallb (fun r : row => negb (cell_truthy (r key))) content.

(** Two rows of the store list: the second has no account, neither has
    an error. *)
Definition sample_info : list (jsstring * jsstring) :=
  [(lit "store", lit "store"); (lit "account", lit "account"); (lit "error", lit "error")].

Definition first_row : row :=
  fun key => if Js.eqb key (lit "store") then CString SHOP_DOMAIN
             else if Js.eqb key (lit "account") then CNumber 7
             else CUndefined.

Definition second_row : row :=
  fun key => if Js.eqb key (lit "store") then CString OTHER_DOMAIN
             else if Js.eqb key (lit "account") then CNull
             else CUndefined.

(** * Properties *)

(** ** Strings *)

Lemma eqb_refl (a : jsstring) : Js.eqb a a = true.
Proof.
  induction a as [|c a IH]; simpl; [reflexivity|].
  now rewrite N.eqb_refl.
Qed.

Lemma eqb_eq (a b : jsstring) : Js.eqb a b = true <-> a = b.
Proof.
  split; [|intros ->; apply eqb_refl].
  revert b; induction a as [|c a IH]; intros [|d b]; simpl; try discriminate; auto.
  intros H. apply andb_true_iff in H as [Hc Hr].
  apply N.eqb_eq in Hc. f_equal; auto.
Qed.

Lemma eqb_neq (a b : jsstring) : Js.eqb a b = false <-> a <> b.
Proof.
  split.
  - intros H E. apply eqb_eq in E. congruence.
  - intros H. destruct (Js.eqb a b) eqn:E; [|reflexivity].
    apply eqb_eq in E. contradiction.
Qed.

Lemma startsWith_iff (s p : jsstring) :
  startsWith s p = true <-> exists r, s = p ++ r.
Proof.
  revert s; induction p as [|c p IH]; intros s; simpl.
  - split; [intros _; now exists s | intros _; now destruct s].
  - destruct s as [|d s].
    + split; [discriminate | intros [r Hr]; discriminate].
    + simpl. rewrite andb_true_iff, N.eqb_eq, IH. split.
      * intros [-> [r ->]]. now exists r.
      * intros [r Hr]. injection Hr as -> ->. split; [reflexivity | now exists r].
Qed.

Lemma endsWith_iff (s p : jsstring) :
  endsWith s p = true <-> exists l, s = l ++ p.
Proof.
  unfold endsWith. rewrite startsWith_iff. split.
  - intros [r Hr]. exists (rev r).
    rewrite <- (rev_involutive s), Hr, rev_app_distr, rev_involutive. reflexivity.
  - intros [l ->]. exists (rev l). apply rev_app_distr.
Qed.

Lemma re_label_iff (s : jsstring) :
  re_label s = true <-> s <> [] /\ Forall (fun c => is_label_char c = true) s.
Proof.
  unfold re_label. destruct s as [|c s].
  - split; [discriminate | intros [H _]; congruence].
  - rewrite forallb_forall, Forall_forall. split.
    + intros H. split; [discriminate | exact H].
    + intros [_ H]. exact H.
Qed.

(** The regular expression [^([a-z0-9_-]+)<suffix>$] matches exactly
    the strings made of a label followed by the suffix. *)
Lemma re_label_then_iff (suffix s : jsstring) :
  re_label_then suffix s = true <->
  exists l, re_label l = true /\ s = l ++ suffix.
Proof.
  unfold re_label_then. rewrite andb_true_iff, endsWith_iff. split.
  - intros [[l ->] H]. exists l. split; [|reflexivity].
    rewrite length_app, Nat.add_sub in H.
    now rewrite firstn_app, Nat.sub_diag, firstn_all, app_nil_r in H.
  - intros [l [H ->]]. split; [now exists l|].
    rewrite length_app, Nat.add_sub.
    now rewrite firstn_app, Nat.sub_diag, firstn_all, app_nil_r.
Qed.

Lemma label_char_domain_char (c : char) :
  is_label_char c = true -> is_domain_char c = true.
Proof. unfold is_domain_char. now intros ->. Qed.

Lemma label_char_not_slash (c : char) : is_domain_char c = true -> c <> SLASH.
Proof.
  unfold is_domain_char, is_label_char, SLASH. intros H ->. vm_compute in H. discriminate.
Qed.

(** Nothing is stripped from a string without a slash. *)
Lemma strip_reference_no_slash (s : jsstring) :
  ~ In SLASH s -> strip_reference s = s.
Proof.
  intros Hs. unfold strip_reference.
  destruct (endsWith s [SLASH]) eqn:E1.
  { apply endsWith_iff in E1 as [l ->]. exfalso. apply Hs, in_or_app. right. now left. }
  destruct (startsWith s HTTPS) eqn:E2.
  { apply startsWith_iff in E2 as [r ->]. exfalso. apply Hs. vm_compute. tauto. }
  destruct (startsWith s HTTP) eqn:E3.
  { apply startsWith_iff in E3 as [r ->]. exfalso. apply Hs. vm_compute. tauto. }
  destruct (startsWith s SLASHES) eqn:E4.
  { apply startsWith_iff in E4 as [r ->]. exfalso. apply Hs. vm_compute. tauto. }
  reflexivity.
Qed.

Lemma domain_chars_no_slash (s : jsstring) :
  Forall (fun c => is_domain_char c = true) s -> ~ In SLASH s.
Proof.
  intros H Hin. rewrite Forall_forall in H.
  apply (label_char_not_slash _ (H _ Hin)). reflexivity.
Qed.

Lemma label_domain_chars (l : jsstring) :
  re_label l = true -> Forall (fun c => is_domain_char c = true) l.
Proof.
  intros H. apply re_label_iff in H as [_ H].
  eapply Forall_impl; [|exact H]. apply label_char_domain_char.
Qed.

Lemma suffix_com_domain_chars :
  Forall (fun c => is_domain_char c = true) DOT_JUMPSELLER_COM.
Proof. apply Forall_forall. intros c Hc. vm_compute in Hc. 
  repeat (destruct Hc as [<-|Hc]; [reflexivity|]). destruct Hc. Qed.

Lemma suffix_localhost_domain_chars :
  Forall (fun c => is_domain_char c = true) DOT_LOCALHOST.
Proof. apply Forall_forall. intros c Hc. vm_compute in Hc. 
  repeat (destruct Hc as [<-|Hc]; [reflexivity|]). destruct Hc. Qed.

(** A label holds no dot, so a label followed by a suffix that starts
    with a dot is no label. *)
Lemma re_label_no_dot (l r : jsstring) : re_label (l ++ 46%N :: r) = false.
Proof.
  destruct (re_label (l ++ 46%N :: r)) eqn:E; [|reflexivity].
  apply re_label_iff in E as [_ E]. rewrite Forall_forall in E.
  assert (Hin : In 46%N (l ++ 46%N :: r)) by (apply in_or_app; right; now left).
  specialize (E _ Hin). vm_compute in E. discriminate.
Qed.

Lemma label_then_localhost_not_com (l : jsstring) :
  re_label_then DOT_JUMPSELLER_COM (l ++ DOT_LOCALHOST) = false.
Proof.
  destruct (re_label_then _ _) eqn:E; [|reflexivity].
  apply re_label_then_iff in E as [l' [_ E]].
  apply (f_equal (@rev char)) in E. rewrite !rev_app_distr in E.
  vm_compute (rev DOT_JUMPSELLER_COM) in E. vm_compute (rev DOT_LOCALHOST) in E.
  simpl in E. discriminate.
Qed.

Lemma label_not_suffixed (l r : jsstring) :
  re_label l = true -> re_label_then (46%N :: r) l = false.
Proof.
  intros H. destruct (re_label_then _ _) eqn:E; [|reflexivity].
  apply re_label_then_iff in E as [l' [_ ->]].
  now rewrite re_label_no_dot in H.
Qed.

Lemma test_suffixed_neq (l suffix : jsstring) :
  In 46%N suffix -> Js.eqb (l ++ suffix) TEST = false.
Proof.
  intros Hin. apply eqb_neq. intros E.
  assert (H : In 46%N TEST) by (rewrite <- E; apply in_or_app; now right).
  vm_compute in H. intuition discriminate.
Qed.

(** ** StoreReference *)

Lemma all_domain_chars (s : jsstring) (c : char) :
  Forall (fun c => is_domain_char c = true) s ->
  In c s -> is_domain_char c = false -> False.
Proof.
  intros H Hin Hc. rewrite Forall_forall in H. rewrite (H _ Hin) in Hc. discriminate.
Qed.

(** A remainder with a character outside [[a-z0-9_.-]] matches none of
    the accepted shapes. *)
Lemma parse_rejects_foreign_char (s : jsstring) (c : char) :
  In c (strip_reference s) -> is_domain_char c = false ->
  parseStoreReference s = (false, strip_reference s).
Proof.
  intros Hin Hc. unfold parseStoreReference.
  destruct (Js.eqb (strip_reference s) TEST) eqn:E1.
  { apply eqb_eq in E1. rewrite E1 in Hin. exfalso.
    vm_compute in Hin.
    repeat (destruct Hin as [<-|Hin]; [vm_compute in Hc; discriminate|]).
    destruct Hin. }
  destruct (re_label_then DOT_JUMPSELLER_COM (strip_reference s)) eqn:E2.
  { apply re_label_then_iff in E2 as [l [Hl E2]]. exfalso.
    rewrite E2 in Hin. apply in_app_or in Hin as [Hin|Hin].
    - exact (all_domain_chars _ _ (label_domain_chars _ Hl) Hin Hc).
    - exact (all_domain_chars _ _ suffix_com_domain_chars Hin Hc). }
  destruct (re_label_then DOT_LOCALHOST (strip_reference s)) eqn:E3.
  { apply re_label_then_iff in E3 as [l [Hl E3]]. exfalso.
    rewrite E3 in Hin. apply in_app_or in Hin as [Hin|Hin].
    - exact (all_domain_chars _ _ (label_domain_chars _ Hl) Hin Hc).
    - exact (all_domain_chars _ _ suffix_localhost_domain_chars Hin Hc). }
  destruct (re_label (strip_reference s)) eqn:E4.
  { exfalso. exact (all_domain_chars _ _ (label_domain_chars _ E4) Hin Hc). }
  reflexivity.
Qed.

Lemma parse_label (L : jsstring) :
  re_label L = true -> L <> TEST ->
  parseStoreReference L = (true, L ++ DOT_JUMPSELLER_COM).
Proof.
  intros HL Hne. unfold parseStoreReference.
  rewrite (strip_reference_no_slash _ (domain_chars_no_slash _ (label_domain_chars _ HL))).
  apply eqb_neq in Hne. rewrite Hne.
  unfold DOT_JUMPSELLER_COM at 1, DOT_LOCALHOST.
  rewrite !label_not_suffixed by exact HL.
  now rewrite HL.
Qed.

Lemma domain_chars_app (a b : jsstring) :
  Forall (fun c => is_domain_char c = true) a ->
  Forall (fun c => is_domain_char c = true) b ->
  Forall (fun c => is_domain_char c = true) (a ++ b).
Proof. intros; apply Forall_app; now split. Qed.

Lemma parse_production_domain (L : jsstring) :
  re_label L = true ->
  parseStoreReference (L ++ DOT_JUMPSELLER_COM) = (true, L ++ DOT_JUMPSELLER_COM).
Proof.
  intros HL. unfold parseStoreReference.
  rewrite (strip_reference_no_slash _
             (domain_chars_no_slash _
                (domain_chars_app _ _ (label_domain_chars _ HL) suffix_com_domain_chars))).
  rewrite test_suffixed_neq by (vm_compute; tauto).
  assert (H : re_label_then DOT_JUMPSELLER_COM (L ++ DOT_JUMPSELLER_COM) = true)
    by (apply re_label_then_iff; now exists L).
  now rewrite H.
Qed.

Lemma parse_local_domain (L : jsstring) :
  re_label L = true ->
  parseStoreReference (L ++ DOT_LOCALHOST) = (true, L ++ DOT_LOCALHOST).
Proof.
  intros HL. unfold parseStoreReference.
  rewrite (strip_reference_no_slash _
             (domain_chars_no_slash _
                (domain_chars_app _ _ (label_domain_chars _ HL) suffix_localhost_domain_chars))).
  rewrite test_suffixed_neq by (vm_compute; tauto).
  rewrite label_then_localhost_not_com.
  assert (H : re_label_then DOT_LOCALHOST (L ++ DOT_LOCALHOST) = true)
    by (apply re_label_then_iff; now exists L).
  now rewrite H.
Qed.

Lemma endsWith_snoc (s : jsstring) (c : char) : endsWith (s ++ [c]) [c] = true.
Proof. apply endsWith_iff. now exists s. Qed.

(** The four strippings all apply, in the order of the source, to a
    reference that carries every decoration in that order. *)
Lemma strip_reference_all (L : jsstring) :
  ~ In SLASH L ->
  strip_reference (HTTPS ++ HTTP ++ SLASHES ++ L ++ [SLASH]) = L.
Proof.
  intros HL. unfold strip_reference.
  replace (HTTPS ++ HTTP ++ SLASHES ++ L ++ [SLASH])
    with ((HTTPS ++ HTTP ++ SLASHES ++ L) ++ [SLASH])
    by now rewrite <- !app_assoc.
  rewrite endsWith_snoc. unfold slice_drop_last. rewrite removelast_last.
  destruct L as [|c L]; [reflexivity|]. simpl.
  destruct (N.eqb_spec c 47); [|reflexivity].
  subst c. exfalso. apply HL. now left.
Qed.

(** Each stripping is tried once, at its place: decorations in the
    opposite order lose only the leading double slash. *)
Lemma strip_reference_once (L : jsstring) :
  re_label L = true ->
  strip_reference (SLASHES ++ HTTP ++ HTTPS ++ L) = HTTP ++ HTTPS ++ L.
Proof.
  intros HL. unfold strip_reference.
  destruct (endsWith (SLASHES ++ HTTP ++ HTTPS ++ L) [SLASH]) eqn:E.
  { exfalso. apply endsWith_iff in E as [l E].
    apply (f_equal (@rev char)) in E. rewrite !rev_app_distr in E.
    apply re_label_iff in HL as [Hne HL].
    destruct (rev L) as [|c r] eqn:Er.
    - apply (f_equal (@rev char)) in Er. rewrite rev_involutive in Er. now subst L.
    - simpl in E. injection E as E _. 
      assert (Hc : In c L) by (apply in_rev; rewrite Er; now left).
      rewrite Forall_forall in HL. specialize (HL _ Hc). subst c.
      vm_compute in HL. discriminate. }
  reflexivity.
Qed.

(** Two of the accepted suffixes never end the same string. *)
Lemma suffixes_clash (r : jsstring) :
  endsWith r DOT_JUMPSELLER_COM = true -> endsWith r DOT_LOCALHOST = false.
Proof.
  intros H. destruct (endsWith r DOT_LOCALHOST) eqn:E; [|reflexivity].
  apply endsWith_iff in H as [l Hl]. apply endsWith_iff in E as [l' Hl'].
  rewrite Hl in Hl'. apply (f_equal (@rev char)) in Hl'.
  rewrite !rev_app_distr in Hl'.
  vm_compute (rev DOT_JUMPSELLER_COM) in Hl'. vm_compute (rev DOT_LOCALHOST) in Hl'.
  simpl in Hl'. discriminate.
Qed.

Lemma suffixed_not_label (l suffix : jsstring) :
  In 46%N suffix -> re_label (l ++ suffix) = false.
Proof.
  intros Hin. apply in_split in Hin as [a [b ->]].
  rewrite app_assoc. apply re_label_no_dot.
Qed.

Lemma endsWith_firstn (r p : jsstring) :
  endsWith r p = true -> r = firstn (length r - length p) r ++ p.
Proof.
  intros H. apply endsWith_iff in H as [l ->].
  rewrite length_app, Nat.add_sub.
  now rewrite firstn_app, Nat.sub_diag, firstn_all, app_nil_r.
Qed.

Lemma re_label_then_false (suffix r : jsstring) :
  endsWith r suffix = false -> re_label_then suffix r = false.
Proof. unfold re_label_then. now intros ->. Qed.

(** The verdict of [parseStoreReference] from the label alone. *)
Lemma parse_accepts_label_part (s : jsstring) :
  fst (parseStoreReference s) = re_label (label_part (strip_reference s)).
Proof.
  unfold parseStoreReference. generalize (strip_reference s) as r. intros r.
  destruct (Js.eqb r TEST) eqn:E1.
  { apply eqb_eq in E1. subst r. reflexivity. }
  unfold label_part.
  destruct (endsWith r DOT_JUMPSELLER_COM) eqn:Ecom.
  - rewrite (re_label_then_false DOT_LOCALHOST) by now apply suffixes_clash.
    unfold re_label_then at 1. rewrite Ecom. simpl andb.
    destruct (re_label (firstn _ r)) eqn:El; [reflexivity|].
    rewrite (endsWith_firstn _ _ Ecom) at 1.
    rewrite suffixed_not_label by (vm_compute; tauto). reflexivity.
  - rewrite (re_label_then_false DOT_JUMPSELLER_COM) by exact Ecom.
    destruct (endsWith r DOT_LOCALHOST) eqn:Eloc.
    + unfold re_label_then. rewrite Eloc. simpl andb.
      destruct (re_label (firstn _ r)) eqn:El; [reflexivity|].
      rewrite (endsWith_firstn _ _ Eloc) at 1.
      rewrite suffixed_not_label by (vm_compute; tauto). reflexivity.
    + rewrite (re_label_then_false DOT_LOCALHOST) by exact Eloc.
      now destruct (re_label r).
Qed.

(** What is rejected is returned as the strippings left it. *)
Lemma parse_rejected_remainder (s r : jsstring) :
  parseStoreReference s = (false, r) -> r = strip_reference s.
Proof.
  unfold parseStoreReference.
  destruct (Js.eqb (strip_reference s) TEST); [discriminate|].
  destruct (re_label_then DOT_JUMPSELLER_COM (strip_reference s)); [discriminate|].
  destruct (re_label_then DOT_LOCALHOST (strip_reference s)); [discriminate|].
  destruct (re_label (strip_reference s)); [discriminate|].
  intros H. now injection H as <-.
Qed.

(** [parseStoreReference] accepts the shapes of the rules and nothing
    else, each with the canonical domain the rules give it. *)
Lemma parse_shape (s d : jsstring) :
  parseStoreReference s = (true, d) <-> store_shape (strip_reference s) d.
Proof.
  unfold parseStoreReference. generalize (strip_reference s) as r. intros r. split.
  - destruct (Js.eqb r TEST) eqn:E1.
    { apply eqb_eq in E1. subst r. intros H. injection H as <-. constructor. }
    destruct (re_label_then DOT_JUMPSELLER_COM r) eqn:E2.
    { apply re_label_then_iff in E2 as [L [HL ->]].
      intros H. injection H as <-. now constructor. }
    destruct (re_label_then DOT_LOCALHOST r) eqn:E3.
    { apply re_label_then_iff in E3 as [L [HL ->]].
      intros H. injection H as <-. now constructor. }
    destruct (re_label r) eqn:E4; [|discriminate].
    intros H. injection H as <-. constructor; [exact E4|].
    now apply eqb_neq.
  - intros H. destruct H as [|L HL|L HL|L HL Hne].
    + reflexivity.
    + rewrite test_suffixed_neq by (vm_compute; tauto).
      assert (H : re_label_then DOT_JUMPSELLER_COM (L ++ DOT_JUMPSELLER_COM) = true)
        by (apply re_label_then_iff; now exists L).
      now rewrite H.
    + rewrite test_suffixed_neq by (vm_compute; tauto).
      rewrite label_then_localhost_not_com.
      assert (H : re_label_then DOT_LOCALHOST (L ++ DOT_LOCALHOST) = true)
        by (apply re_label_then_iff; now exists L).
      now rewrite H.
    + apply eqb_neq in Hne. rewrite Hne.
      unfold DOT_JUMPSELLER_COM at 1, DOT_LOCALHOST.
      rewrite !label_not_suffixed by exact HL.
      now rewrite HL.
Qed.

Lemma without_prefix_step (p s : jsstring) :
  without_prefix p s (if startsWith s p then slice_from (length p) s else s).
Proof.
  destruct (startsWith s p) eqn:E.
  - apply startsWith_iff in E as [r ->]. left.
    unfold slice_from. now rewrite skipn_app, skipn_all, Nat.sub_diag.
  - right. split; [|reflexivity]. intros t Ht.
    assert (H : startsWith s p = true) by (apply startsWith_iff; now exists t).
    congruence.
Qed.

Lemma without_suffix_step (c : char) (s : jsstring) :
  without_suffix [c] s (if endsWith s [c] then slice_drop_last s else s).
Proof.
  destruct (endsWith s [c]) eqn:E.
  - apply endsWith_iff in E as [l ->]. left.
    unfold slice_drop_last. now rewrite removelast_last.
  - right. split; [|reflexivity]. intros t Ht.
    assert (H : endsWith s [c] = true) by (apply endsWith_iff; now exists t).
    congruence.
Qed.

Lemma without_prefix_unique (p s r r' : jsstring) :
  without_prefix p s r -> without_prefix p s r' -> r = r'.
Proof.
  intros [H|[Hn ->]] [H'|[Hn' ->]].
  - rewrite H in H'. now apply app_inv_head in H'.
  - now apply Hn' in H.
  - now apply Hn in H'.
  - reflexivity.
Qed.

Lemma without_suffix_unique (p s r r' : jsstring) :
  without_suffix p s r -> without_suffix p s r' -> r = r'.
Proof.
  intros [H|[Hn ->]] [H'|[Hn' ->]].
  - rewrite H in H'. now apply app_inv_tail in H'.
  - now apply Hn' in H.
  - now apply Hn in H'.
  - reflexivity.
Qed.

(** The strippings of the code are the strippings of the rules. *)
Lemma strip_reference_stripped (s r : jsstring) :
  strip_reference s = r <-> stripped s r.
Proof.
  assert (Hrun : stripped s (strip_reference s)).
  { unfold strip_reference.
    set (a := if endsWith s [SLASH] then slice_drop_last s else s).
    set (b := if startsWith a HTTPS then slice_from 8 a else a).
    set (c := if startsWith b HTTP then slice_from 7 b else b).
    exists a, b, c. split; [apply without_suffix_step|].
    split; [apply (without_prefix_step HTTPS)|].
    split; [apply (without_prefix_step HTTP) | apply (without_prefix_step SLASHES)]. }
  split; [now intros <-|].
  destruct Hrun as (a & b & c & Ha & Hb & Hc & Hr).
  intros (a' & b' & c' & Ha' & Hb' & Hc' & Hr').
  pose proof (without_suffix_unique _ _ _ _ Ha Ha') as <-.
  pose proof (without_prefix_unique _ _ _ _ Hb Hb') as <-.
  pose proof (without_prefix_unique _ _ _ _ Hc Hc') as <-.
  exact (without_prefix_unique _ _ _ _ Hr Hr').
Qed.

(** C3 (amended): [parseStoreReference] strips one trailing slash, then
    a leading [https://], then [http://], then [//], each once and in
    that order.  Every bare label of [[a-z0-9_-]+] other than [test]
    gets the production suffix; a label followed by [.jumpseller.com]
    or [.localhost] is returned as it is; [test] becomes
    [test.localhost]; an input whose remainder after the strippings
    holds a character outside [[a-z0-9_.-]] (an upper-case letter, a
    space, any other symbol) is rejected together with that remainder.
    Nothing else is accepted: the result is [(true, d)] exactly when
    the remainder has one of these shapes with canonical domain [d],
    and [(false, remainder)] exactly when the label, the remainder
    without a final [.jumpseller.com] or [.localhost], is not a
    non-empty string of [[a-z0-9_-]], a dot in the label included. *)
Theorem parseStoreReference_spec :
  (forall L, re_label L = true ->
     (L <> TEST -> parseStoreReference L = (true, L ++ DOT_JUMPSELLER_COM))
     /\ parseStoreReference (L ++ DOT_JUMPSELLER_COM) = (true, L ++ DOT_JUMPSELLER_COM)
     /\ parseStoreReference (L ++ DOT_LOCALHOST) = (true, L ++ DOT_LOCALHOST)
     /\ parseStoreReference (HTTPS ++ HTTP ++ SLASHES ++ L ++ [SLASH]) = parseStoreReference L
     /\ parseStoreReference (SLASHES ++ HTTP ++ HTTPS ++ L) = (false, HTTP ++ HTTPS ++ L))
  /\ parseStoreReference TEST = (true, TEST_LOCALHOST)
  /\ (forall s c, In c (strip_reference s) -> is_domain_char c = false ->
        parseStoreReference s = (false, strip_reference s))
  /\ (forall s, ~ In SLASH s -> strip_reference s = s)
  /\ (forall s r, strip_reference s = r <-> stripped s r)
  /\ (forall s d, parseStoreReference s = (true, d) <-> store_shape (strip_reference s) d)
  /\ (forall s r, parseStoreReference s = (false, r) <->
        r = strip_reference s /\ re_label (label_part (strip_reference s)) = false)
  /\ (forall s r, parseStoreReference s = (false, r) <->
        r = strip_reference s /\ forall d, ~ store_shape (strip_reference s) d).
Proof.
  assert (Hrej : forall s r, parseStoreReference s = (false, r) <->
            r = strip_reference s /\ re_label (label_part (strip_reference s)) = false).
  { intros s r. split.
    - intros H. split; [now apply parse_rejected_remainder|].
      rewrite <- parse_accepts_label_part. now rewrite H.
    - intros [-> H]. rewrite <- parse_accepts_label_part in H.
      destruct (parseStoreReference s) as [ok r] eqn:E. simpl in H. subst ok.
      f_equal. now apply parse_rejected_remainder. }
  split; [|split; [reflexivity|split; [|split; [|split; [|split; [|split]]]]]].
  - intros L HL. split; [|split; [|split; [|split]]].
    + now apply parse_label.
    + now apply parse_production_domain.
    + now apply parse_local_domain.
    + pose proof (domain_chars_no_slash _ (label_domain_chars _ HL)) as Hs.
      unfold parseStoreReference.
      now rewrite (strip_reference_all _ Hs), (strip_reference_no_slash _ Hs).
    + rewrite <- (strip_reference_once _ HL) at 2.
      apply (parse_rejects_foreign_char _ 58%N); [|reflexivity].
      rewrite (strip_reference_once _ HL). simpl. tauto.
  - intros s c. apply parse_rejects_foreign_char.
  - apply strip_reference_no_slash.
  - apply strip_reference_stripped.
  - apply parse_shape.
  - exact Hrej.
  - intros s r. split.
    + intros H. split; [now apply parse_rejected_remainder|].
      intros d Hd. apply parse_shape in Hd. congruence.
    + intros [-> Hnone].
      destruct (parseStoreReference s) as [[|] r] eqn:E.
      * exfalso. apply (Hnone r). now apply parse_shape.
      * f_equal. now apply parse_rejected_remainder.
Qed.

(** A bare label, a reference with a space and an upper-case letter,
    and two references with a dot in the label. *)
Lemma parseStoreReference_spec_witness :
  parseStoreReference (lit "shop") = (true, lit "shop.jumpseller.com")
  /\ parseStoreReference (lit "My Shop") = (false, lit "My Shop")
  /\ parseStoreReference (lit "a.b") = (false, lit "a.b")
  /\ parseStoreReference (lit "https://a.b.jumpseller.com/")
     = (false, lit "a.b.jumpseller.com").
Proof.
  split; [|split; [|split]].
  - refine (proj1 (proj1 parseStoreReference_spec (lit "shop") eq_refl) _).
    vm_compute. discriminate.
  - apply (proj1 (proj2 (proj2 parseStoreReference_spec)) (lit "My Shop") 77%N).
    + vm_compute. tauto.
    + reflexivity.
  - apply (proj1 (proj2 (proj2 (proj2 (proj2 (proj2 (proj2 parseStoreReference_spec)))))) 
                  (lit "a.b") (lit "a.b")).
    split; reflexivity.
  - apply (proj1 (proj2 (proj2 (proj2 (proj2 (proj2 (proj2 parseStoreReference_spec))))))
                  (lit "https://a.b.jumpseller.com/") (lit "a.b.jumpseller.com")).
    split; reflexivity.
Defined.

(** C3 as stated fails twice: the bare label [test] does not get the
    production suffix, and a rejected input that lost a trailing slash
    is returned without it, not as it was given. *)
Lemma parseStoreReference_counterexample :
  re_label TEST = true
  /\ parseStoreReference TEST <> (true, TEST ++ DOT_JUMPSELLER_COM)
  /\ parseStoreReference (lit "Shop/") = (false, lit "Shop")
  /\ lit "Shop" <> lit "Shop/".
Proof.
  split; [reflexivity|split; [|split]].
  - vm_compute. discriminate.
  - reflexivity.
  - vm_compute. discriminate.
Qed.

(** ** The map of [listCredentials] *)

Lemma eqb_sym (a b : jsstring) : Js.eqb a b = Js.eqb b a.
Proof.
  destruct (Js.eqb a b) eqn:E.
  - apply eqb_eq in E. subst. symmetry. apply eqb_refl.
  - symmetry. apply eqb_neq. apply eqb_neq in E. congruence.
Qed.

Lemma map_get_app (m : CredMap) (k d c : jsstring) :
  map_get (m ++ [(d, c)]) k =
  match map_get m k with
  | Some v => Some v
  | None => if Js.eqb k d then Some c else None
  end.
Proof.
  induction m as [|[k' v'] m IH]; simpl; [reflexivity|].
  destruct (Js.eqb k k'); [reflexivity | exact IH].
Qed.

Lemma map_set_fresh (m : CredMap) (d c : jsstring) :
  map_has m d = false -> map_set m d c = m ++ [(d, c)].
Proof.
  unfold map_has. induction m as [|[k' v'] m IH]; simpl; [reflexivity|].
  destruct (Js.eqb d k'); [discriminate|].
  intros H. now rewrite IH.
Qed.

Lemma judge_classify (m : CredMap) (before : list jsstring) (line : jsstring) :
  map_has m (lineDomain line) = already_listed before (lineDomain line) ->
  judge m line = classify before line.
Proof.
  intros Hm. unfold judge, classify, domain_check, credentials_check, credentials_of.
  destruct (parseStoreReference (lineDomain line)) as [ok corrected].
  rewrite negb_andb. destruct (negb ok || negb (Js.eqb (lineDomain line) corrected)).
  - reflexivity.
  - destruct (negb (validCredentials_arg (lineCredentials line))); [reflexivity|].
    rewrite Hm. destruct (already_listed before (lineDomain line)); [reflexivity|].
    now destruct (lineCredentials line).
Qed.

Lemma already_listed_snoc (before : list jsstring) (l d : jsstring) :
  already_listed (before ++ [l]) d =
  already_listed before d || (passes l && Js.eqb (lineDomain l) d).
Proof.
  unfold already_listed. rewrite existsb_app. simpl. now rewrite orb_false_r.
Qed.

Lemma classify_accept (before : list jsstring) (line d c : jsstring) :
  classify before line = Accept d c <->
  passes line = true /\ already_listed before (lineDomain line) = false
  /\ d = lineDomain line /\ c = credentials_of line.
Proof.
  unfold classify, passes.
  destruct (domain_check line), (credentials_check line); simpl;
    try (split; [discriminate | intros [H _]; discriminate]).
  destruct (already_listed before (lineDomain line)).
  - split; [discriminate | intros [_ [H _]]; discriminate].
  - split.
    + intros H. injection H as <- <-. auto.
    + intros [_ [_ [-> ->]]]. reflexivity.
Qed.

Lemma classify_reject (before : list jsstring) (line : jsstring) (w : warning) :
  classify before line = Reject w ->
  (passes line = false \/ already_listed before (lineDomain line) = true)
  /\ warning_domain w = lineDomain line.
Proof.
  unfold classify, passes.
  destruct (domain_check line), (credentials_check line); simpl;
    try (intros H; injection H as <-; split; [now left | reflexivity]).
  destruct (already_listed before (lineDomain line)); [|discriminate].
  intros H; injection H as <-; split; [now right | reflexivity].
Qed.

(** The loop of [listCredentials] over the lines after [before], from
    the map and the messages the lines [before] left. *)
Lemma fold_step_verdicts (lines before : list jsstring) (m : CredMap) (log : list warning) :
  (forall d, map_has m d = already_listed before d) ->
  fold_left listCredentials_step lines (m, log) =
  (m ++ accepted (verdicts before lines), log ++ rejected (verdicts before lines)).
Proof.
  revert before m log. induction lines as [|l lines IH]; intros before m log Hm; simpl.
  - now rewrite !app_nil_r.
  - rewrite (judge_classify m before l (Hm _)).
    destruct (classify before l) as [w|d c] eqn:E.
    + rewrite (IH (before ++ [l])).
      * simpl. now rewrite <- app_assoc.
      * intros d. rewrite already_listed_snoc, Hm.
        apply classify_reject in E as [[E|E] _].
        -- rewrite E. simpl. now rewrite orb_false_r.
        -- destruct (Js.eqb (lineDomain l) d) eqn:Ed.
           ++ apply eqb_eq in Ed. subst d. rewrite E. reflexivity.
           ++ now rewrite andb_false_r, orb_false_r.
    + apply classify_accept in E as [Hp [Hn [-> ->]]].
      rewrite map_set_fresh by (now rewrite Hm).
      rewrite (IH (before ++ [l])).
      * simpl. now rewrite <- app_assoc.
      * intros d. rewrite already_listed_snoc, Hp. simpl.
        unfold map_has. rewrite map_get_app.
        specialize (Hm d). unfold map_has in Hm.
        destruct (map_get m d).
        -- now rewrite <- Hm.
        -- rewrite <- Hm. simpl. rewrite (eqb_sym d). now destruct (Js.eqb (lineDomain l) d).
Qed.

(** [listCredentials] returns the accepted lines as its map and writes
    one message for every other line. *)
Lemma listCredentials_of_verdicts (content : jsstring) :
  listCredentials_of content =
  (accepted (verdicts [] (credentialLines content)),
   rejected (verdicts [] (credentialLines content))).
Proof.
  unfold listCredentials_of.
  now rewrite (fold_step_verdicts _ [] [] []) by reflexivity.
Qed.

Lemma verdicts_length (lines before : list jsstring) :
  length (accepted (verdicts before lines)) + length (rejected (verdicts before lines))
  = length lines.
Proof.
  revert before. induction lines as [|l lines IH]; intros before; simpl; [reflexivity|].
  unfold accepted, rejected in *. simpl.
  destruct (classify before l); simpl; rewrite ?length_app; simpl;
    specialize (IH (before ++ [l])); lia.
Qed.

(** The entry of a domain is the one of the first line that passes both
    checks with that domain. *)
Lemma accepted_get (lines before : list jsstring) (d c : jsstring) :
  map_get (accepted (verdicts before lines)) d = Some c <->
  exists l1 line l2,
    lines = l1 ++ line :: l2 /\ passes line = true /\ lineDomain line = d
    /\ credentials_of line = c /\ already_listed (before ++ l1) d = false.
Proof.
  revert before. induction lines as [|l lines IH]; intros before.
  - simpl. split; [discriminate|].
    intros [l1 [line [l2 [H _]]]]. destruct l1; discriminate.
  - simpl. destruct (classify before l) as [w|d0 c0] eqn:E.
    + simpl. rewrite IH. split.
      * intros [l1 [line [l2 [-> [Hp [Hd [Hc Hn]]]]]]].
        exists (l :: l1), line, l2. rewrite <- app_assoc in Hn. auto.
      * intros [l1 [line [l2 [Hl [Hp [Hd [Hc Hn]]]]]]].
        destruct l1 as [|l0 l1].
        -- simpl in Hl. injection Hl as -> ->. rewrite app_nil_r in Hn. subst d.
           apply classify_reject in E as [[E|E] _]; congruence.
        -- simpl in Hl. injection Hl as -> ->.
           exists l1, line, l2. rewrite <- app_assoc. auto.
    + apply classify_accept in E as [Hp0 [Hn0 [-> ->]]]. simpl.
      destruct (Js.eqb d (lineDomain l)) eqn:Ed.
      * apply eqb_eq in Ed. subst d. split.
        -- intros H. injection H as <-. exists [], l, lines.
           rewrite app_nil_r. auto.
        -- intros [l1 [line [l2 [Hl [Hp [Hd [Hc Hn]]]]]]].
           destruct l1 as [|l0 l1].
           ++ simpl in Hl. injection Hl as -> ->. now rewrite Hc.
           ++ simpl in Hl. injection Hl as -> ->. exfalso.
              unfold already_listed in Hn. rewrite existsb_app in Hn. simpl in Hn.
              rewrite Hp0, eqb_refl in Hn. simpl in Hn.
              rewrite orb_true_r in Hn. discriminate.
      * rewrite IH. split.
        -- intros [l1 [line [l2 [-> [Hp [Hd [Hc Hn]]]]]]].
           exists (l :: l1), line, l2. rewrite <- app_assoc in Hn. auto.
        -- intros [l1 [line [l2 [Hl [Hp [Hd [Hc Hn]]]]]]].
           destruct l1 as [|l0 l1].
           ++ simpl in Hl. injection Hl as -> ->. subst d.
              rewrite eqb_refl in Ed. discriminate.
           ++ simpl in Hl. injection Hl as -> ->.
              exists l1, line, l2. rewrite <- app_assoc. auto.
Qed.

(** Every line that fails a check, or repeats the domain of an accepted
    line, has its message. *)
Lemma rejected_in (lines before : list jsstring) (l1 l2 : list jsstring) (line : jsstring) :
  lines = l1 ++ line :: l2 ->
  passes line = false \/ already_listed (before ++ l1) (lineDomain line) = true ->
  exists w, classify (before ++ l1) line = Reject w
            /\ In w (rejected (verdicts before lines))
            /\ warning_domain w = lineDomain line.
Proof.
  revert before l1. induction lines as [|l lines IH]; intros before l1 Hl Hbad.
  - destruct l1; discriminate.
  - destruct l1 as [|l0 l1]; simpl in Hl; injection Hl as -> ->.
    + rewrite app_nil_r in *. simpl.
      destruct (classify before line) as [w|d c] eqn:E.
      * exists w. split; [reflexivity|]. split; [now left|].
        now apply classify_reject in E.
      * apply classify_accept in E as [Hp [Hn _]]. destruct Hbad; congruence.
    + destruct (IH (before ++ [l0]) l1 eq_refl) as [w [Hw [Hin Hd]]].
      { now rewrite <- app_assoc. }
      rewrite <- app_assoc in Hw. exists w. split; [exact Hw|]. split; [|exact Hd].
      simpl. unfold rejected in *. simpl. apply in_or_app. now right.
Qed.

Lemma passes_checks (line : jsstring) :
  passes line = true <->
  parseStoreReference (lineDomain line) = (true, lineDomain line)
  /\ exists c, lineCredentials line = Some c /\ validCredentials c = true.
Proof.
  unfold passes, domain_check, credentials_check, validCredentials_arg.
  rewrite andb_true_iff. split.
  - intros [Hd Hc]. split.
    + destruct (parseStoreReference (lineDomain line)) as [ok corrected].
      apply andb_true_iff in Hd as [-> Hd]. apply eqb_eq in Hd. now rewrite <- Hd.
    + destruct (lineCredentials line) as [c|]; [now exists c|].
      vm_compute in Hc. discriminate.
  - intros [Hd [c [Hc Hv]]]. rewrite Hd, Hc, eqb_refl. auto.
Qed.

(** [listCredentials] once the text is loaded: it returns, whatever the
    lines are. *)
Lemma listCredentials_run (env : Env) (s s1 : State) (content : jsstring) :
  loadCredentialsFile env s = Return content s1 ->
  listCredentials env s =
  Return (fst (listCredentials_of content))
         (mkState (auth s1) (files s1) (trace s1)
                  (console s1 ++ snd (listCredentials_of content))).
Proof.
  intros H. unfold listCredentials, bind. rewrite H.
  destruct (listCredentials_of content) as [m log]. reflexivity.
Qed.

(** The text is loaded unless reading the file fails with something
    else than a missing file. *)
Lemma loadCredentialsFile_returns (env : Env) (s : State) :
  (forall code, files s (CREDENTIALS_FILE env) = Some (Unreadable code) -> code = ENOENT) ->
  exists content s1, loadCredentialsFile env s = Return content s1
                     /\ files s1 = files s /\ trace s1 = trace s /\ console s1 = console s.
Proof.
  intros Hf. unfold loadCredentialsFile, bind, get_auth.
  destruct (credentialsText (auth s)) as [text|] eqn:E.
  - exists text, s. auto.
  - unfold readFileIfExists, catch, readFileSync.
    destruct (files s (CREDENTIALS_FILE env)) as [[c|code]|] eqn:Ef; simpl.
    + eexists _, _. split; [reflexivity|]. auto.
    + rewrite (Hf code eq_refl). simpl. eexists _, _. split; [reflexivity|]. auto.
    + eexists _, _. split; [reflexivity|]. auto.
Qed.

(** What [#loadCredentialsFile] returns: the text the object holds,
    else the trimmed content of the credential file, the empty string
    when the file is missing. *)
Lemma loadCredentialsFile_text (env : Env) (s : State) :
  (credentialsText (auth s) = None ->
   forall code, files s (CREDENTIALS_FILE env) = Some (Unreadable code) -> code = ENOENT) ->
  exists s1, loadCredentialsFile env s = Return (credentialsText_of env s) s1
             /\ files s1 = files s /\ trace s1 = trace s /\ console s1 = console s.
Proof.
  intros Hf. unfold loadCredentialsFile, credentialsText_of, bind, get_auth.
  destruct (credentialsText (auth s)) as [text|] eqn:E.
  - exists s. auto.
  - unfold readFileIfExists, catch, readFileSync.
    destruct (files s (CREDENTIALS_FILE env)) as [[c|code]|] eqn:Ef; simpl.
    + eexists. split; [reflexivity|]. auto.
    + rewrite (Hf eq_refl code eq_refl). simpl. eexists. split; [reflexivity|]. auto.
    + eexists. split; [reflexivity|]. auto.
Qed.

(** A read error other than a missing file is thrown on. *)
Lemma listCredentials_read_error (env : Env) (s : State) (code : errcode) :
  credentialsText (auth s) = None ->
  files s (CREDENTIALS_FILE env) = Some (Unreadable code) -> code <> ENOENT ->
  listCredentials env s = Throw (FsError code) s.
Proof.
  intros Ht Hf Hcode.
  unfold listCredentials, loadCredentialsFile, bind, get_auth. rewrite Ht.
  unfold readFileIfExists, catch, readFileSync. rewrite Hf.
  destruct code; [contradiction| | | |]; reflexivity.
Qed.

(** Every message comes from a line that fails a check or repeats the
    domain of an accepted line. *)
Lemma rejected_from (lines before : list jsstring) (w : warning) :
  In w (rejected (verdicts before lines)) ->
  exists l1 line l2,
    lines = l1 ++ line :: l2 /\ classify (before ++ l1) line = Reject w.
Proof.
  revert before. induction lines as [|l lines IH]; intros before Hin.
  - destruct Hin.
  - unfold rejected in Hin. simpl in Hin. apply in_app_or in Hin as [Hin|Hin].
    + destruct (classify before l) as [w0|d c] eqn:E; [|destruct Hin].
      destruct Hin as [<-|[]].
      exists [], l, lines. rewrite app_nil_r. auto.
    + destruct (IH (before ++ [l]) Hin) as [l1 [line [l2 [-> Hw]]]].
      exists (l :: l1), line, l2. rewrite <- app_assoc in Hw. auto.
Qed.

Lemma classify_reject_cases (before : list jsstring) (line : jsstring) (w : warning) :
  classify before line = Reject w ->
  (w = InvalidDomain (lineDomain line) /\ domain_check line = false)
  \/ (w = InvalidCredentials (lineDomain line)
      /\ domain_check line = true /\ credentials_check line = false)
  \/ (w = DuplicateDomain (lineDomain line)
      /\ passes line = true /\ already_listed before (lineDomain line) = true).
Proof.
  unfold classify, passes.
  destruct (domain_check line); simpl.
  - destruct (credentials_check line); simpl.
    + destruct (already_listed before (lineDomain line)); [|discriminate].
      intros H. injection H as <-. right. right. auto.
    + intros H. injection H as <-. right. left. auto.
  - intros H. injection H as <-. left. auto.
Qed.

(** No earlier line passes both checks with the domain. *)
Lemma already_listed_false (before : list jsstring) (d : jsstring) :
  already_listed before d = false <->
  forall l, In l before -> lineDomain l = d -> passes l = false.
Proof.
  unfold already_listed. split.
  - intros H l Hin Hd.
    destruct (passes l) eqn:Hp; [|reflexivity].
    assert (Hex : existsb (fun l => passes l && Js.eqb (lineDomain l) d) before = true).
    { apply existsb_exists. exists l. split; [exact Hin|].
      rewrite Hp, Hd, eqb_refl. reflexivity. }
    congruence.
  - intros H.
    destruct (existsb _ before) eqn:E; [|reflexivity].
    apply existsb_exists in E as [l [Hin Hl]].
    apply andb_true_iff in Hl as [Hp Hd]. apply eqb_eq in Hd.
    rewrite (H l Hin Hd) in Hp. discriminate.
Qed.

(** C9 (amended): [listCredentials] does not fail because of a line.
    Unless reading the credential file fails with something else than
    a missing file, in which case that error is thrown, it returns: it
    goes through the lines of the text the object holds, or else of the
    trimmed content of the credential file, empty when the file is
    missing.  The entry of a domain is the credentials of the first
    line that passes the store-reference check and the
    credential-format check with that domain, so a line that passes
    both is the entry of its domain whenever every earlier line with
    that domain fails a check.  A line that fails the store-reference
    check gets the invalid-domain message, one that fails the
    credential-format check the invalid-credentials message, and one
    that passes both but whose domain an earlier line that passes both
    has the duplicate-domain message; every message is one of these,
    and every line is either an entry or a message, never both. *)
Theorem listCredentials_skips_bad_lines (env : Env) (s : State) :
  ((credentialsText (auth s) = None ->
    forall code, files s (CREDENTIALS_FILE env) = Some (Unreadable code) -> code = ENOENT) ->
   exists s1 m log,
     loadCredentialsFile env s = Return (credentialsText_of env s) s1
     /\ files s1 = files s /\ trace s1 = trace s /\ console s1 = console s
     /\ listCredentials env s =
          Return m (mkState (auth s1) (files s1) (trace s1) (console s1 ++ log))
     /\ (forall d c,
           map_get m d = Some c <->
           exists l1 line l2,
             credentialLines (credentialsText_of env s) = l1 ++ line :: l2
             /\ passes line = true /\ lineDomain line = d
             /\ lineCredentials line = Some c /\ already_listed l1 d = false)
     /\ (forall l1 line l2,
           credentialLines (credentialsText_of env s) = l1 ++ line :: l2 ->
           passes line = true ->
           (forall l, In l l1 -> lineDomain l = lineDomain line -> passes l = false) ->
           map_get m (lineDomain line) = lineCredentials line)
     /\ (forall l1 line l2,
           credentialLines (credentialsText_of env s) = l1 ++ line :: l2 ->
           (domain_check line = false ->
            In (InvalidDomain (lineDomain line)) log)
           /\ (domain_check line = true -> credentials_check line = false ->
               In (InvalidCredentials (lineDomain line)) log)
           /\ (passes line = true -> already_listed l1 (lineDomain line) = true ->
               In (DuplicateDomain (lineDomain line)) log))
     /\ (forall w, In w log ->
           exists l1 line l2,
             credentialLines (credentialsText_of env s) = l1 ++ line :: l2
             /\ ((w = InvalidDomain (lineDomain line) /\ domain_check line = false)
                 \/ (w = InvalidCredentials (lineDomain line)
                     /\ domain_check line = true /\ credentials_check line = false)
                 \/ (w = DuplicateDomain (lineDomain line)
                     /\ passes line = true
                     /\ exists l, In l l1 /\ lineDomain l = lineDomain line
                                  /\ passes l = true)))
     /\ length m + length log = length (credentialLines (credentialsText_of env s)))
  /\ (forall code,
        credentialsText (auth s) = None ->
        files s (CREDENTIALS_FILE env) = Some (Unreadable code) -> code <> ENOENT ->
        listCredentials env s = Throw (FsError code) s).
Proof.
  split; [|intros code; apply listCredentials_read_error].
  intros Hread.
  destruct (loadCredentialsFile_text env s Hread) as [s1 [Hload [Hf [Ht Hc]]]].
  set (content := credentialsText_of env s) in *.
  exists s1, (fst (listCredentials_of content)), (snd (listCredentials_of content)).
  split; [exact Hload|]. split; [exact Hf|]. split; [exact Ht|]. split; [exact Hc|].
  split; [now apply listCredentials_run|].
  rewrite listCredentials_of_verdicts. simpl.
  assert (Hget : forall d c,
            map_get (accepted (verdicts [] (credentialLines content))) d = Some c <->
            exists l1 line l2,
              credentialLines content = l1 ++ line :: l2
              /\ passes line = true /\ lineDomain line = d
              /\ lineCredentials line = Some c /\ already_listed l1 d = false).
  { intros d c. rewrite accepted_get. simpl.
    split; intros [l1 [line [l2 [Hl [Hp [Hd [Hcr Hn]]]]]]];
      exists l1, line, l2; repeat split; auto.
    + apply passes_checks in Hp as [_ [c' [Hc' _]]].
      unfold credentials_of in Hcr. rewrite Hc' in Hcr. congruence.
    + unfold credentials_of. now rewrite Hcr. }
  split; [exact Hget|]. split; [|split; [|split]].
  - intros l1 line l2 Hl Hp Hfirst.
    pose proof Hp as Hp'. apply passes_checks in Hp' as [_ [c [Hcr _]]].
    rewrite Hcr. apply Hget. exists l1, line, l2. repeat split; auto.
    now apply already_listed_false.
  - intros l1 line l2 Hl.
    assert (Hrej : passes line = false \/ already_listed l1 (lineDomain line) = true ->
                   exists w, classify l1 line = Reject w
                             /\ In w (rejected (verdicts [] (credentialLines content)))).
    { intros Hbad.
      destruct (rejected_in (credentialLines content) [] l1 l2 line Hl Hbad)
        as [w [Hw [Hin _]]].
      now exists w. }
    unfold passes in *. split; [|split].
    + intros Hd. destruct Hrej as [w [Hw Hin]]; [left; now rewrite Hd|].
      unfold classify in Hw. rewrite Hd in Hw. simpl in Hw. now injection Hw as <-.
    + intros Hd Hcr. destruct Hrej as [w [Hw Hin]]; [left; now rewrite Hd, Hcr|].
      unfold classify in Hw. rewrite Hd, Hcr in Hw. simpl in Hw. now injection Hw as <-.
    + intros Hp Hdup. destruct Hrej as [w [Hw Hin]]; [now right|].
      apply andb_true_iff in Hp as [Hd Hcr].
      unfold classify in Hw. rewrite Hd, Hcr, Hdup in Hw. simpl in Hw.
      now injection Hw as <-.
  - intros w Hin.
    destruct (rejected_from _ _ _ Hin) as [l1 [line [l2 [Hl Hw]]]].
    simpl in Hw. exists l1, line, l2. split; [exact Hl|].
    apply classify_reject_cases in Hw as [H|[H|[-> [Hp Hdup]]]]; [now left | right; now left |].
    right. right. split; [reflexivity|]. split; [exact Hp|].
    unfold already_listed in Hdup. apply existsb_exists in Hdup as [l [Hl1 Hl2]].
    apply andb_true_iff in Hl2 as [Hpl Hdl]. apply eqb_eq in Hdl.
    exists l. auto.
  - apply verdicts_length.
Qed.

(** A new process over a disk whose credential file has a good line, a
    line with a bare label, a line with malformed credentials and a
    line repeating the first one's domain: one entry, three messages. *)
Lemma listCredentials_skips_bad_lines_witness :
  exists s1 m log,
    listCredentials sample_env (credentials_on_disk sample_file) =
      Return m (mkState (auth s1) (files s1) (trace s1) (console s1 ++ log))
    /\ files s1 = files (credentials_on_disk sample_file)
    /\ console s1 = []
    /\ map_get m SHOP_DOMAIN = Some sample_credentials
    /\ In (DuplicateDomain SHOP_DOMAIN) log
    /\ length m + length log = 4.
Proof.
  destruct (proj1 (listCredentials_skips_bad_lines sample_env
                     (credentials_on_disk sample_file)))
    as [s1 [m [log [_ [Hf [_ [Hc [Hrun [Hget [_ [Hmsg [_ Hlen]]]]]]]]]]]].
  { intros _ code H. vm_compute in H. discriminate. }
  exists s1, m, log.
  split; [exact Hrun|]. split; [exact Hf|]. split; [exact Hc|]. split; [|split].
  - apply Hget.
    exists [], (SHOP_DOMAIN ++ SPACE :: sample_credentials),
      [SHOP ++ SPACE :: sample_credentials;
       OTHER_DOMAIN ++ SPACE :: lit "secret";
       SHOP_DOMAIN ++ SPACE :: other_credentials].
    repeat split; vm_compute; reflexivity.
  - refine (proj2 (proj2 (Hmsg
      [SHOP_DOMAIN ++ SPACE :: sample_credentials;
       SHOP ++ SPACE :: sample_credentials;
       OTHER_DOMAIN ++ SPACE :: lit "secret"]
      (SHOP_DOMAIN ++ SPACE :: other_credentials) [] _)) _ _);
      vm_compute; reflexivity.
  - exact Hlen.
Defined.

(** C9 as stated fails: the second line has the domain of an earlier
    line, but that line had malformed credentials, so the second line
    is the entry of the domain and the only message is the first
    line's. *)
Lemma listCredentials_counterexample :
  credentialLines repeated_domain_file =
    [SHOP_DOMAIN ++ SPACE :: lit "secret"; SHOP_DOMAIN ++ SPACE :: sample_credentials]
  /\ lineDomain (SHOP_DOMAIN ++ SPACE :: sample_credentials)
     = lineDomain (SHOP_DOMAIN ++ SPACE :: lit "secret")
  /\ listCredentials sample_env (credentials_on_disk repeated_domain_file) =
       Return [(SHOP_DOMAIN, sample_credentials)]
              (mkState (set_credentialsText repeated_domain_file fresh_auth)
                       (files (credentials_on_disk repeated_domain_file)) []
                       [InvalidCredentials SHOP_DOMAIN]).
Proof.
  split; [|split]; vm_compute; reflexivity.
Qed.

(** C10: every key of the map [listCredentials] returns is a fixed point
    of [parseStoreReference], every value has the credential format,
    and both are spelled out on a line of the file.  A line whose domain
    parses to another string (a bare label, say) fails the
    store-reference check and is reported as an invalid domain, so the
    canonical form is a key only when another line spells it out. *)
Theorem listCredentials_keys_canonical (content : jsstring) :
  (forall d c,
     map_get (fst (listCredentials_of content)) d = Some c ->
     parseStoreReference d = (true, d) /\ validCredentials c = true
     /\ exists line, In line (credentialLines content)
                     /\ lineDomain line = d /\ lineCredentials line = Some c)
  /\ (forall l1 line l2 d',
        credentialLines content = l1 ++ line :: l2 ->
        parseStoreReference (lineDomain line) = (true, d') ->
        d' <> lineDomain line ->
        In (InvalidDomain (lineDomain line)) (snd (listCredentials_of content))
        /\ forall c, map_get (fst (listCredentials_of content)) d' = Some c ->
                     exists other, In other (l1 ++ l2) /\ lineDomain other = d').
Proof.
  rewrite listCredentials_of_verdicts. simpl.
  assert (Hget : forall d c,
             map_get (accepted (verdicts [] (credentialLines content))) d = Some c ->
             exists l1 line l2,
               credentialLines content = l1 ++ line :: l2
               /\ passes line = true /\ lineDomain line = d
               /\ lineCredentials line = Some c /\ validCredentials c = true).
  { intros d c H. apply accepted_get in H as [l1 [line [l2 [Hl [Hp [Hd [Hc _]]]]]]].
    exists l1, line, l2. repeat split; auto.
    - apply passes_checks in Hp as [_ [c' [Hc' _]]].
      unfold credentials_of in Hc. rewrite Hc' in Hc. congruence.
    - apply passes_checks in Hp as [_ [c' [Hc' Hv]]].
      unfold credentials_of in Hc. rewrite Hc' in Hc. congruence. }
  split.
  - intros d c H. destruct (Hget d c H) as [l1 [line [l2 [Hl [Hp [Hd [Hc Hv]]]]]]].
    split; [|split; [exact Hv|]].
    + apply passes_checks in Hp as [Hp _]. now rewrite Hd in Hp.
    + exists line. split; [|auto]. rewrite Hl. apply in_or_app. right. now left.
  - intros l1 line l2 d' Hl Hparse Hne.
    assert (Hfail : passes line = false).
    { destruct (passes line) eqn:Hp; [|reflexivity].
      apply passes_checks in Hp as [Hp _]. rewrite Hp in Hparse. congruence. }
    split.
    + destruct (rejected_in (credentialLines content) [] l1 l2 line Hl (or_introl Hfail))
        as [w [Hw [Hin _]]].
      simpl in Hw. unfold classify in Hw.
      assert (Hdc : domain_check line = false).
      { unfold domain_check. rewrite Hparse. simpl. apply eqb_neq. congruence. }
      rewrite Hdc in Hw. simpl in Hw. injection Hw as <-. exact Hin.
    + intros c H. destruct (Hget d' c H) as [k1 [other [k2 [Hk [_ [Hd _]]]]]].
      exists other. split; [|exact Hd].
      assert (Hin : In other (l1 ++ line :: l2))
        by (rewrite <- Hl, Hk; apply in_or_app; right; now left).
      apply in_app_or in Hin as [Hin|[Hin|Hin]]; apply in_or_app; auto.
      subst other. congruence.
Qed.

Lemma listCredentials_keys_canonical_witness :
  parseStoreReference SHOP_DOMAIN = (true, SHOP_DOMAIN)
  /\ validCredentials sample_credentials = true
  /\ In (InvalidDomain SHOP) (snd (listCredentials_of sample_file)).
Proof.
  split; [|split].
  - exact (proj1 (proj1 (listCredentials_keys_canonical sample_file)
                    SHOP_DOMAIN sample_credentials eq_refl)).
  - exact (proj1 (proj2 (proj1 (listCredentials_keys_canonical sample_file)
                           SHOP_DOMAIN sample_credentials eq_refl))).
  - refine (proj1 (proj2 (listCredentials_keys_canonical sample_file)
                     [SHOP_DOMAIN ++ SPACE :: sample_credentials]
                     (SHOP ++ SPACE :: sample_credentials)
                     [OTHER_DOMAIN ++ SPACE :: lit "secret";
                      SHOP_DOMAIN ++ SPACE :: other_credentials]
                     SHOP_DOMAIN eq_refl eq_refl _)).
    vm_compute. discriminate.
Defined.

(** A file whose only line names the store by its bare label: the line
    is dropped, and the store's canonical domain is no key of the map. *)
Example bare_label_line_dropped :
  listCredentials_of (SHOP ++ SPACE :: sample_credentials)
  = ([], [InvalidDomain SHOP])
  /\ parseStoreReference SHOP = (true, SHOP_DOMAIN).
Proof. split; reflexivity. Qed.

(** ** Trimming, splitting and joining *)

Lemma indexOf_before_hash (line : jsstring) :
  (indexOf HASH line = (-1)%Z /\ before_hash line = line)
  \/ ((0 <= indexOf HASH line)%Z
      /\ firstn (Z.to_nat (indexOf HASH line)) line = before_hash line).
Proof.
  induction line as [|c line IH]; simpl.
  - left. auto.
  - destruct (N.eqb c HASH).
    + right. split; [lia | reflexivity].
    + destruct IH as [[-> ->]|[Hpos IH]].
      * left. auto.
      * right. destruct (Z.eqb_spec (indexOf HASH line) (-1)); [lia|].
        split; [lia|].
        replace (Z.to_nat (indexOf HASH line + 1)) with (S (Z.to_nat (indexOf HASH line)))
          by lia.
        simpl. now rewrite IH.
Qed.

Lemma canonicalLine_before_hash (line : jsstring) :
  canonicalLine line = trim (before_hash line).
Proof.
  unfold canonicalLine.
  destruct (indexOf_before_hash line) as [[-> ->]|[Hpos ->]].
  - reflexivity.
  - destruct (Z.eqb_spec (indexOf HASH line) (-1)); [lia | reflexivity].
Qed.

Lemma space_not_hash (c : char) : is_space c = true -> N.eqb c HASH = false.
Proof.
  intros H. destruct (N.eqb_spec c HASH) as [->|]; [|reflexivity].
  vm_compute in H. discriminate.
Qed.

Lemma trim_cons_space (c : char) (s : jsstring) :
  is_space c = true -> trim (c :: s) = trim s.
Proof. intros H. unfold trim. simpl. now rewrite H. Qed.

Lemma trimEnd_snoc_space (c : char) (s : jsstring) :
  is_space c = true -> trimEnd (s ++ [c]) = trimEnd s.
Proof.
  intros H. unfold trimEnd. rewrite rev_app_distr. simpl. now rewrite H.
Qed.

Lemma trimStart_snoc_space (c : char) (s : jsstring) :
  is_space c = true ->
  (trimStart (s ++ [c]) = [] /\ trimStart s = [])
  \/ trimStart (s ++ [c]) = trimStart s ++ [c].
Proof.
  intros H. induction s as [|d s IH]; simpl.
  - rewrite H. left. auto.
  - destruct (is_space d); [exact IH | right; reflexivity].
Qed.

Lemma trim_snoc_space (c : char) (s : jsstring) :
  is_space c = true -> trim (s ++ [c]) = trim s.
Proof.
  intros H. unfold trim.
  destruct (trimStart_snoc_space c s H) as [[-> ->]| ->]; [reflexivity|].
  now apply trimEnd_snoc_space.
Qed.

Lemma before_hash_snoc (c : char) (line : jsstring) :
  N.eqb c HASH = false ->
  before_hash (line ++ [c]) = before_hash line
  \/ before_hash (line ++ [c]) = before_hash line ++ [c].
Proof.
  intros H. induction line as [|d line IH]; simpl.
  - rewrite H. now right.
  - destruct (N.eqb d HASH); [now left|].
    destruct IH as [->| ->]; [now left | now right].
Qed.

Lemma canonicalLine_cons_space (c : char) (line : jsstring) :
  is_space c = true -> canonicalLine (c :: line) = canonicalLine line.
Proof.
  intros H. rewrite !canonicalLine_before_hash. simpl.
  rewrite (space_not_hash c H). now apply trim_cons_space.
Qed.

Lemma canonicalLine_snoc_space (c : char) (line : jsstring) :
  is_space c = true -> canonicalLine (line ++ [c]) = canonicalLine line.
Proof.
  intros H. rewrite !canonicalLine_before_hash.
  destruct (before_hash_snoc c line (space_not_hash c H)) as [->| ->];
    [reflexivity | now apply trim_snoc_space].
Qed.

Lemma canonicalLine_nil : canonicalLine [] = [].
Proof. reflexivity. Qed.

Lemma split_not_nil (sep : char) (s : jsstring) : split sep s <> [].
Proof.
  induction s as [|c s IH]; simpl; [discriminate|].
  destruct (N.eqb c sep); [discriminate|].
  destruct (split sep s); [contradiction | discriminate].
Qed.

Lemma split_cons (sep c : char) (s : jsstring) :
  N.eqb c sep = false ->
  exists l ls, split sep s = l :: ls /\ split sep (c :: s) = (c :: l) :: ls.
Proof.
  intros H. simpl. rewrite H.
  destruct (split sep s) as [|l ls] eqn:E; [now apply split_not_nil in E|].
  now exists l, ls.
Qed.

Lemma split_snoc (sep c : char) (s : jsstring) :
  exists ls l,
    split sep s = ls ++ [l]
    /\ split sep (s ++ [c]) =
       if N.eqb c sep then ls ++ [l; []] else ls ++ [l ++ [c]].
Proof.
  induction s as [|d s IH]; simpl.
  - exists [], []. split; [reflexivity|]. now destruct (N.eqb c sep).
  - destruct IH as [ls [l [E1 E2]]]. rewrite E1, E2.
    destruct (N.eqb d sep).
    + exists ([] :: ls), l. split; [reflexivity|]. now destruct (N.eqb c sep).
    + destruct ls as [|l0 ls]; simpl.
      * exists [], (d :: l). split; [reflexivity|]. now destruct (N.eqb c sep).
      * exists ((d :: l0) :: ls), l. split; [reflexivity|]. now destruct (N.eqb c sep).
Qed.

Lemma split_one_line (sep : char) (s : jsstring) :
  Forall (fun l => ~ In sep l) (split sep s).
Proof.
  induction s as [|c s IH]; simpl.
  - constructor; [intros [] | constructor].
  - destruct (N.eqb_spec c sep) as [->|Hne].
    + constructor; [intros [] | exact IH].
    + destruct (split sep s) as [|l ls]; [repeat constructor; intros [H|[]]; congruence|].
      inversion IH as [|? ? Hl Hls]; subst. constructor; [|exact Hls].
      intros [H|H]; [congruence | contradiction].
Qed.

Lemma split_line_then (sep : char) (l rest : jsstring) :
  ~ In sep l -> split sep (l ++ sep :: rest) = l :: split sep rest.
Proof.
  intros Hl. induction l as [|c l IH]; simpl.
  - now rewrite N.eqb_refl.
  - destruct (N.eqb_spec c sep) as [->|Hne]; [exfalso; apply Hl; now left|].
    rewrite IH; [reflexivity|]. intros H. apply Hl. now right.
Qed.

Lemma split_single (sep : char) (l : jsstring) :
  ~ In sep l -> split sep l = [l].
Proof.
  intros Hl. induction l as [|c l IH]; simpl; [reflexivity|].
  destruct (N.eqb_spec c sep) as [->|Hne]; [exfalso; apply Hl; now left|].
  rewrite IH; [reflexivity|]. intros H. apply Hl. now right.
Qed.

(** Splitting what was joined gives the lines back. *)
Lemma split_join (sep : char) (ls : list jsstring) :
  ls <> [] -> Forall (fun l => ~ In sep l) ls -> split sep (join sep ls) = ls.
Proof.
  intros Hne H. induction ls as [|l ls IH]; [contradiction|].
  inversion H as [|? ? Hl Hls]; subst.
  destruct ls as [|l' ls].
  - simpl. now apply split_single.
  - change (join sep (l :: l' :: ls)) with (l ++ sep :: join sep (l' :: ls)).
    rewrite split_line_then by exact Hl.
    rewrite IH; [reflexivity | discriminate | exact Hls].
Qed.

Lemma join_snoc_empty (sep : char) (ls : list jsstring) :
  ls <> [] -> join sep ls ++ [sep] = join sep (ls ++ [[]]).
Proof.
  intros Hne. induction ls as [|l ls IH]; [contradiction|].
  destruct ls as [|l' ls].
  - reflexivity.
  - change (join sep (l :: l' :: ls)) with (l ++ sep :: join sep (l' :: ls)).
    change (join sep ((l :: l' :: ls) ++ [[]]))
      with (l ++ sep :: join sep ((l' :: ls) ++ [[]])).
    rewrite <- IH by discriminate. now rewrite <- app_assoc.
Qed.

(** ** Canonical lines of a text *)

Lemma map_filter_comm {A B} (f : A -> B) (p : B -> bool) (l : list A) :
  List.map f (filter (fun x => p (f x)) l) = filter p (List.map f l).
Proof.
  induction l as [|x l IH]; simpl; [reflexivity|].
  destruct (p (f x)); simpl; now rewrite IH.
Qed.

Lemma credentialLines_canonical (text : jsstring) :
  List.map canonicalLine (credentialLines text) = canonicalLines text.
Proof.
  unfold credentialLines, canonicalLines. rewrite map_filter_comm.
  destruct text; reflexivity.
Qed.

Lemma canonicalLines_cons_space (c : char) (text : jsstring) :
  is_space c = true -> canonicalLines (c :: text) = canonicalLines text.
Proof.
  intros H. unfold canonicalLines.
  destruct (N.eqb_spec c NEWLINE) as [->|Hne].
  - simpl. reflexivity.
  - apply N.eqb_neq in Hne.
    destruct (split_cons NEWLINE c text Hne) as [l [ls [-> ->]]].
    simpl. now rewrite canonicalLine_cons_space.
Qed.

Lemma canonicalLines_snoc_space (c : char) (text : jsstring) :
  is_space c = true -> canonicalLines (text ++ [c]) = canonicalLines text.
Proof.
  intros H. unfold canonicalLines.
  destruct (split_snoc NEWLINE c text) as [ls [l [-> ->]]].
  destruct (N.eqb c NEWLINE).
  - rewrite !map_app, !filter_app. simpl.
    destruct (nonempty (canonicalLine l)); reflexivity.
  - rewrite !map_app, !filter_app. simpl.
    now rewrite canonicalLine_snoc_space.
Qed.

Lemma canonicalLines_trimStart (text : jsstring) :
  canonicalLines (trimStart text) = canonicalLines text.
Proof.
  induction text as [|c text IH]; simpl; [reflexivity|].
  destruct (is_space c) eqn:E; [|reflexivity].
  now rewrite canonicalLines_cons_space.
Qed.

Lemma canonicalLines_trimEnd (text : jsstring) :
  canonicalLines (trimEnd text) = canonicalLines text.
Proof.
  unfold trimEnd. rewrite <- (rev_involutive text) at 2.
  induction (rev text) as [|c r IH]; simpl; [reflexivity|].
  destruct (is_space c) eqn:E; [|reflexivity].
  now rewrite canonicalLines_snoc_space.
Qed.

Lemma canonicalLines_trim (text : jsstring) :
  canonicalLines (trim text) = canonicalLines text.
Proof.
  unfold trim. now rewrite canonicalLines_trimEnd, canonicalLines_trimStart.
Qed.

Lemma filter_canonical_skipn (n : nat) (ls : list jsstring) :
  Forall (fun l => l = []) (firstn n ls) ->
  filter nonempty (List.map canonicalLine (skipn n ls))
  = filter nonempty (List.map canonicalLine ls).
Proof.
  revert ls. induction n as [|n IH]; intros ls H; [reflexivity|].
  destruct ls as [|l ls]; [reflexivity|].
  simpl in H. inversion H as [|? ? Hl Hls]; subst. simpl. now apply IH.
Qed.

Lemma findIndex_truthy_spec (lines : list jsstring) :
  (-1 <= findIndex_truthy lines)%Z
  /\ Forall (fun l => l = []) (firstn (Z.to_nat (findIndex_truthy lines)) lines).
Proof.
  induction lines as [|l lines [IH1 IH2]]; simpl.
  - split; [lia | constructor].
  - destruct l as [|c l].
    + destruct (Z.eqb_spec (findIndex_truthy lines) (-1)).
      * split; [lia | constructor].
      * split; [lia|].
        replace (Z.to_nat (findIndex_truthy lines + 1))
          with (S (Z.to_nat (findIndex_truthy lines))) by lia.
        simpl. constructor; [reflexivity | exact IH2].
    + split; [lia | constructor].
Qed.

(** The leading empty lines [joinLines] drops do not count. *)
Lemma splice_front_canonical (lines : list jsstring) :
  filter nonempty
    (List.map canonicalLine (splice_front (findIndex_truthy lines) lines))
  = filter nonempty (List.map canonicalLine lines).
Proof.
  unfold splice_front. apply filter_canonical_skipn.
  destruct (findIndex_truthy_spec lines) as [Hge H].
  destruct (Z.max_spec 0 (findIndex_truthy lines)) as [[_ ->]|[Hle ->]].
  - exact H.
  - constructor.
Qed.

Lemma skipn_Forall {A} (P : A -> Prop) (n : nat) (l : list A) :
  Forall P l -> Forall P (skipn n l).
Proof.
  revert l. induction n as [|n IH]; intros l H; [exact H|].
  destruct l; [constructor|]. inversion H; subst. now apply IH.
Qed.

(** The text [joinLines] builds has the canonical lines of the lines it
    was given. *)
Lemma canonicalLines_joinLines (lines : list jsstring) :
  Forall one_line lines ->
  canonicalLines (joinLines lines)
  = filter nonempty (List.map canonicalLine lines).
Proof.
  intros H. unfold joinLines.
  rewrite <- splice_front_canonical.
  assert (H' : Forall one_line (splice_front (findIndex_truthy lines) lines))
    by (now apply skipn_Forall).
  destruct (splice_front (findIndex_truthy lines) lines) as [|l ls] eqn:E.
  - reflexivity.
  - unfold canonicalLines.
    rewrite join_snoc_empty by discriminate.
    rewrite split_join.
    + rewrite map_app, filter_app. simpl. now rewrite app_nil_r.
    + discriminate.
    + apply Forall_app. split; [exact H'|]. repeat constructor. intros [].
Qed.

Lemma splitLines_one_line (text : jsstring) : Forall one_line (splitLines text).
Proof.
  destruct text; [constructor|]. apply split_one_line.
Qed.

Lemma splitLines_canonical (text : jsstring) :
  filter nonempty (List.map canonicalLine (splitLines text)) = canonicalLines text.
Proof. destruct text; reflexivity. Qed.

Lemma step_canonical (acc : CredMap * list warning) (l1 l2 : jsstring) :
  canonicalLine l1 = canonicalLine l2 ->
  listCredentials_step acc l1 = listCredentials_step acc l2.
Proof.
  intros H. destruct acc as [m log].
  unfold listCredentials_step, judge, lineDomain, lineCredentials. now rewrite H.
Qed.

Lemma fold_step_canonical (ls1 ls2 : list jsstring) (acc : CredMap * list warning) :
  List.map canonicalLine ls1 = List.map canonicalLine ls2 ->
  fold_left listCredentials_step ls1 acc = fold_left listCredentials_step ls2 acc.
Proof.
  revert ls2 acc. induction ls1 as [|l1 ls1 IH]; intros [|l2 ls2] acc H;
    try discriminate; [reflexivity|].
  simpl in H. injection H as Hl Hls. simpl.
  rewrite (step_canonical acc l1 l2 Hl). now apply IH.
Qed.

(** Two texts with the same canonical lines give the same map and the
    same messages. *)
Lemma listCredentials_of_canonical (t1 t2 : jsstring) :
  canonicalLines t1 = canonicalLines t2 ->
  listCredentials_of t1 = listCredentials_of t2.
Proof.
  intros H. unfold listCredentials_of. apply fold_step_canonical.
  now rewrite !credentialLines_canonical.
Qed.

(** ** The line of a domain *)

Ltac bool_to_prop :=
  repeat rewrite ?orb_true_iff, ?andb_true_iff, ?negb_true_iff,
         ?orb_false_iff, ?andb_false_iff, ?N.leb_le, ?N.eqb_eq,
         ?N.leb_gt, ?N.eqb_neq in *.

Lemma domain_char_plain (c : char) : is_domain_char c = true -> is_plain c = true.
Proof.
  unfold is_domain_char, is_label_char, is_plain, is_space, HASH.
  intros H. bool_to_prop. lia.
Qed.

Lemma credential_char_plain (c : char) :
  is_credential_char c = true -> is_plain c = true.
Proof.
  unfold is_credential_char, is_hex, is_plain, is_space, HASH, COLON.
  intros H. bool_to_prop. lia.
Qed.

Lemma plain_not_space (c : char) : is_plain c = true -> is_space c = false.
Proof. unfold is_plain. intros H. apply andb_true_iff in H as [H _]. now apply negb_true_iff. Qed.

Lemma plain_not_hash (c : char) : is_plain c = true -> N.eqb c HASH = false.
Proof. unfold is_plain. intros H. apply andb_true_iff in H as [_ H]. now apply negb_true_iff. Qed.

Lemma plain_one_line (s : jsstring) : all_plain s -> one_line s.
Proof.
  intros H Hin. unfold all_plain in H. rewrite Forall_forall in H.
  specialize (H _ Hin). vm_compute in H. discriminate.
Qed.

Lemma before_hash_plain (x rest : jsstring) :
  all_plain x -> before_hash (x ++ rest) = x ++ before_hash rest.
Proof.
  intros H. induction H as [|c x Hc Hx IH]; simpl; [reflexivity|].
  now rewrite (plain_not_hash c Hc), IH.
Qed.

Lemma split_ws_word (g : bool) (x : jsstring) :
  all_plain x -> split_ws_from g x = [x].
Proof.
  intros H. revert g. induction H as [|c x Hc Hx IH]; intros g; simpl; [reflexivity|].
  now rewrite (plain_not_space c Hc), IH.
Qed.

Lemma split_ws_two_words (x y : jsstring) :
  all_plain x -> all_plain y -> split_ws (x ++ SPACE :: y) = [x; y].
Proof.
  intros Hx Hy. unfold split_ws.
  induction Hx as [|c x Hc Hx IH]; simpl.
  - now rewrite split_ws_word.
  - now rewrite (plain_not_space c Hc), IH.
Qed.

Lemma trimStart_plain_head (c : char) (s : jsstring) :
  is_plain c = true -> trimStart (c :: s) = c :: s.
Proof. intros H. simpl. now rewrite (plain_not_space c H). Qed.

Lemma trimEnd_plain_last (c : char) (s : jsstring) :
  is_plain c = true -> trimEnd (s ++ [c]) = s ++ [c].
Proof.
  intros H. unfold trimEnd. rewrite rev_app_distr. simpl.
  rewrite (plain_not_space c H). simpl. now rewrite rev_involutive.
Qed.

Lemma nonempty_snoc (s : jsstring) : s <> [] -> exists r c, s = r ++ [c].
Proof.
  intros H. destruct (exists_last H) as [r [c ->]]. now exists r, c.
Qed.

(** The line written for a domain is its own canonical line and splits
    into the domain and the credentials. *)
Lemma credentialLine_canonical (d c : jsstring) :
  all_plain d -> all_plain c -> d <> [] -> c <> [] ->
  canonicalLine (credentialLine d c) = credentialLine d c.
Proof.
  intros Hd Hc Hdn Hcn. rewrite canonicalLine_before_hash. unfold credentialLine.
  rewrite before_hash_plain by exact Hd. simpl.
  rewrite <- (app_nil_r c) at 1. rewrite before_hash_plain by exact Hc. simpl.
  rewrite app_nil_r. unfold trim.
  destruct d as [|d0 d]; [contradiction|].
  inversion Hd as [|? ? Hd0 _]; subst.
  change ((d0 :: d) ++ SPACE :: c) with (d0 :: d ++ SPACE :: c).
  rewrite trimStart_plain_head by exact Hd0.
  destruct (nonempty_snoc c Hcn) as [r [x ->]].
  assert (Hx : is_plain x = true).
  { unfold all_plain in Hc. rewrite Forall_forall in Hc. apply Hc, in_or_app. right. now left. }
  replace (d0 :: d ++ SPACE :: r ++ [x]) with ((d0 :: d ++ SPACE :: r) ++ [x]).
  - now apply trimEnd_plain_last.
  - simpl. rewrite <- app_assoc. reflexivity.
Qed.

Lemma credentialLine_fields (d c : jsstring) :
  all_plain d -> all_plain c -> d <> [] -> c <> [] ->
  lineDomain (credentialLine d c) = d
  /\ lineCredentials (credentialLine d c) = Some c.
Proof.
  intros Hd Hc Hdn Hcn. unfold lineDomain, lineCredentials.
  rewrite credentialLine_canonical by assumption.
  unfold credentialLine. rewrite split_ws_two_words by assumption. auto.
Qed.

Lemma credentialLine_one_line (d c : jsstring) :
  all_plain d -> all_plain c -> one_line (credentialLine d c).
Proof.
  intros Hd Hc Hin. unfold credentialLine in Hin.
  apply in_app_or in Hin as [Hin|[Hin|Hin]].
  - exact (plain_one_line d Hd Hin).
  - discriminate.
  - exact (plain_one_line c Hc Hin).
Qed.

(** A fixed point of [parseStoreReference] is a non-empty string of
    [[a-z0-9_.-]]. *)
Lemma canonical_domain_chars (d : jsstring) :
  parseStoreReference d = (true, d) ->
  Forall (fun c => is_domain_char c = true) d /\ d <> [].
Proof.
  unfold parseStoreReference.
  destruct (Js.eqb (strip_reference d) TEST) eqn:E1.
  { intros H. injection H as <-. split; [|discriminate].
    apply Forall_forall. intros c Hc. vm_compute in Hc.
    repeat (destruct Hc as [<-|Hc]; [reflexivity|]). destruct Hc. }
  destruct (re_label_then DOT_JUMPSELLER_COM (strip_reference d)) eqn:E2.
  { intros H. injection H as H. rewrite H in E2.
    apply re_label_then_iff in E2 as [l [Hl ->]]. split.
    - apply domain_chars_app; [now apply label_domain_chars | apply suffix_com_domain_chars].
    - intros E. apply app_eq_nil in E as [_ E]. discriminate. }
  destruct (re_label_then DOT_LOCALHOST (strip_reference d)) eqn:E3.
  { intros H. injection H as H. rewrite H in E3.
    apply re_label_then_iff in E3 as [l [Hl ->]]. split.
    - apply domain_chars_app; [now apply label_domain_chars | apply suffix_localhost_domain_chars].
    - intros E. apply app_eq_nil in E as [_ E]. discriminate. }
  destruct (re_label (strip_reference d)) eqn:E4; [|discriminate].
  intros H. injection H as H. rewrite <- H. split.
  - apply domain_chars_app; [now apply label_domain_chars | apply suffix_com_domain_chars].
  - intros E. apply app_eq_nil in E as [_ E]. discriminate.
Qed.

Lemma break_at_spec (x : char) (s l r : jsstring) :
  break_at x s = Some (l, r) -> s = l ++ x :: r.
Proof.
  revert l. induction s as [|d s IH]; intros l; simpl; [discriminate|].
  destruct (N.eqb_spec d x) as [->|Hne].
  - intros H. injection H as <- <-. reflexivity.
  - destruct (break_at x s) as [[l' r']|]; [|discriminate].
    intros H. injection H as <- <-. simpl. now rewrite (IH l' eq_refl).
Qed.

(** A well-formed credential is a non-empty string of [[0-9a-f:]]. *)
Lemma valid_credential_chars (c : jsstring) :
  validCredentials c = true ->
  Forall (fun x => is_credential_char x = true) c /\ c <> [].
Proof.
  unfold validCredentials.
  destruct (break_at COLON c) as [[l r]|] eqn:E; [|discriminate].
  apply break_at_spec in E. subst c. intros H.
  apply andb_true_iff in H as [Hl Hr]. unfold hex_run in Hl, Hr.
  apply andb_true_iff in Hl as [Hl _]. apply andb_true_iff in Hl as [Hl _].
  apply andb_true_iff in Hr as [Hr _]. apply andb_true_iff in Hr as [Hr _].
  rewrite forallb_forall in Hl, Hr. split.
  - apply Forall_forall. intros x Hx. unfold is_credential_char.
    apply in_app_or in Hx as [Hx|[<-|Hx]].
    + now rewrite (Hl x Hx).
    + apply orb_true_r.
    + now rewrite (Hr x Hx).
  - intros E. apply app_eq_nil in E as [_ E]. discriminate.
Qed.

Lemma break_at_fresh (x : char) (l r : jsstring) :
  ~ In x l -> break_at x (l ++ x :: r) = Some (l, r).
Proof.
  intros H. induction l as [|d l IH]; simpl.
  - now rewrite N.eqb_refl.
  - destruct (N.eqb_spec d x) as [->|Hne]; [exfalso; apply H; now left|].
    rewrite IH; [reflexivity|]. intros Hin. apply H. now right.
Qed.

Lemma hex_not_colon (c : char) : is_hex c = true -> c <> COLON.
Proof. intros H ->. vm_compute in H. discriminate. Qed.

(** The regular expression [^[0-9a-f]{32,50}:[0-9a-f]{32,50}$] matches
    exactly two runs of 32 to 50 hexadecimal digits with a colon
    between them. *)
Lemma validCredentials_iff (s : jsstring) :
  validCredentials s = true <->
  exists login token,
    s = login ++ COLON :: token /\ hex_run login = true /\ hex_run token = true.
Proof.
  unfold validCredentials. split.
  - destruct (break_at COLON s) as [[l r]|] eqn:E; [|discriminate].
    apply break_at_spec in E. intros H. apply andb_true_iff in H as [Hl Hr].
    now exists l, r.
  - intros [l [r [-> [Hl Hr]]]]. rewrite break_at_fresh.
    + now rewrite Hl, Hr.
    + intros Hin. unfold hex_run in Hl.
      apply andb_true_iff in Hl as [Hl _]. apply andb_true_iff in Hl as [Hl _].
      rewrite forallb_forall in Hl. now apply (hex_not_colon COLON (Hl _ Hin)).
Qed.

Lemma canonical_domain_plain (d : jsstring) :
  parseStoreReference d = (true, d) -> all_plain d /\ d <> [].
Proof.
  intros H. destruct (canonical_domain_chars d H) as [Hc Hn]. split; [|exact Hn].
  eapply Forall_impl; [|exact Hc]. apply domain_char_plain.
Qed.

Lemma valid_credential_plain (c : jsstring) :
  validCredentials c = true -> all_plain c /\ c <> [].
Proof.
  intros H. destruct (valid_credential_chars c H) as [Hc Hn]. split; [|exact Hn].
  eapply Forall_impl; [|exact Hc]. apply credential_char_plain.
Qed.

(** ** [addCredentials] then [listCredentials] *)

Lemma addCredentials_text_lines (d c content : jsstring) :
  addCredentials_text d c content
  = joinLines (addCredentials_lines d c (splitLines content)).
Proof.
  unfold addCredentials_text, addCredentials_lines.
  now destruct (negb (existsb snd (List.map (replaceLine d c) (splitLines content)))).
Qed.

Lemma replaceLine_cases (d c line : jsstring) :
  (replaceLine d c line = (line, false) /\ lineDomain line <> d)
  \/ (replaceLine d c line = (credentialLine d c, true) /\ lineDomain line = d).
Proof.
  unfold replaceLine. destruct (Js.eqb d (lineDomain line)) eqn:E; simpl.
  - right. apply eqb_eq in E. auto.
  - left. apply eqb_neq in E. split; [reflexivity | congruence].
Qed.

Lemma added_lines_in (d c : jsstring) (lines : list jsstring) (nl : jsstring) :
  In nl (addCredentials_lines d c lines) ->
  nl = credentialLine d c \/ (In nl lines /\ lineDomain nl <> d).
Proof.
  unfold addCredentials_lines. intros H.
  assert (Hmap : In nl (List.map fst (List.map (replaceLine d c) lines)) ->
                 nl = credentialLine d c \/ (In nl lines /\ lineDomain nl <> d)).
  { rewrite map_map. intros Hin. apply in_map_iff in Hin as [line [Hf Hin]].
    destruct (replaceLine_cases d c line) as [[E Hne]|[E _]]; rewrite E in Hf; simpl in Hf.
    - subst nl. right. auto.
    - now left. }
  destruct (negb (existsb snd (List.map (replaceLine d c) lines))); [|auto].
  apply in_app_or in H as [H|[H|[]]]; [auto | now left].
Qed.

Lemma added_lines_has (d c : jsstring) (lines : list jsstring) :
  In (credentialLine d c) (addCredentials_lines d c lines).
Proof.
  unfold addCredentials_lines.
  destruct (existsb snd (List.map (replaceLine d c) lines)) eqn:E; simpl.
  - apply existsb_exists in E as [[nl b] [Hin Hb]]. simpl in Hb. subst b.
    apply in_map_iff in Hin as [line [Hr Hline]].
    rewrite map_map. apply in_map_iff. exists line.
    destruct (replaceLine_cases d c line) as [[E' _]|[E' _]]; rewrite E' in Hr.
    + discriminate.
    + rewrite E'. simpl. auto.
  - apply in_or_app. right. now left.
Qed.

Lemma added_lines_one_line (d c : jsstring) (lines : list jsstring) :
  all_plain d -> all_plain c -> Forall one_line lines ->
  Forall one_line (addCredentials_lines d c lines).
Proof.
  intros Hd Hc Hl. apply Forall_forall. intros nl Hin.
  apply added_lines_in in Hin as [->|[Hin _]].
  - now apply credentialLine_one_line.
  - rewrite Forall_forall in Hl. now apply Hl.
Qed.

Lemma lineDomain_canonical (l1 l2 : jsstring) :
  canonicalLine l1 = canonicalLine l2 -> lineDomain l1 = lineDomain l2.
Proof. unfold lineDomain. now intros ->. Qed.

Lemma lineCredentials_canonical (l1 l2 : jsstring) :
  canonicalLine l1 = canonicalLine l2 -> lineCredentials l1 = lineCredentials l2.
Proof. unfold lineCredentials. now intros ->. Qed.

Lemma passes_canonical (l1 l2 : jsstring) :
  canonicalLine l1 = canonicalLine l2 -> passes l1 = passes l2.
Proof.
  intros H. unfold passes, domain_check, credentials_check.
  now rewrite (lineDomain_canonical l1 l2 H), (lineCredentials_canonical l1 l2 H).
Qed.

(** The first element with a property splits a list. *)
Lemma first_such {A} (p : A -> bool) (l : list A) :
  (exists x, In x l /\ p x = true) ->
  exists l1 x l2, l = l1 ++ x :: l2 /\ p x = true /\ forall y, In y l1 -> p y = false.
Proof.
  induction l as [|a l IH]; intros [x [Hin Hp]]; [destruct Hin|].
  destruct (p a) eqn:Ea.
  - exists [], a, l. split; [reflexivity|]. split; [exact Ea|]. intros y [].
  - destruct Hin as [->|Hin]; [congruence|].
    destruct (IH (ex_intro _ x (conj Hin Hp))) as [l1 [x' [l2 [-> [Hp' Hl1]]]]].
    exists (a :: l1), x', l2. split; [reflexivity|]. split; [exact Hp'|].
    intros y [<-|Hy]; auto.
Qed.

(** After [addCredentials(d, c)] the text lists [c] for [d]. *)
Lemma addCredentials_text_get (d c content : jsstring) :
  parseStoreReference d = (true, d) -> validCredentials c = true ->
  map_get (fst (listCredentials_of (addCredentials_text d c content))) d = Some c.
Proof.
  intros Hd Hc.
  destruct (canonical_domain_plain d Hd) as [Hdp Hdn].
  destruct (valid_credential_plain c Hc) as [Hcp Hcn].
  destruct (credentialLine_fields d c Hdp Hcp Hdn Hcn) as [Hfd Hfc].
  pose proof (credentialLine_canonical d c Hdp Hcp Hdn Hcn) as Hcan.
  rewrite listCredentials_of_verdicts. simpl.
  set (text' := addCredentials_text d c content).
  set (newlines := addCredentials_lines d c (splitLines content)).
  assert (HL : List.map canonicalLine (credentialLines text')
               = filter nonempty (List.map canonicalLine newlines)).
  { rewrite credentialLines_canonical. unfold text'.
    rewrite addCredentials_text_lines. apply canonicalLines_joinLines.
    apply added_lines_one_line; [exact Hdp | exact Hcp | apply splitLines_one_line]. }
  assert (Hline : forall l, In l (credentialLines text') -> lineDomain l = d ->
                            canonicalLine l = canonicalLine (credentialLine d c)).
  { intros l Hin Hld.
    assert (H : In (canonicalLine l) (List.map canonicalLine (credentialLines text')))
      by now apply in_map.
    rewrite HL in H. apply filter_In in H as [H _].
    apply in_map_iff in H as [nl [Hnl Hin']].
    apply added_lines_in in Hin' as [->|[_ Hne]].
    - now symmetry.
    - exfalso. apply Hne. rewrite <- Hld. now apply lineDomain_canonical. }
  assert (Hex : exists l, In l (credentialLines text')
                          /\ Js.eqb (lineDomain l) d = true).
  { assert (H : In (credentialLine d c)
                   (filter nonempty (List.map canonicalLine newlines))).
    { apply filter_In. split.
      - rewrite <- Hcan. apply in_map. apply added_lines_has.
      - unfold credentialLine. destruct d; [contradiction | reflexivity]. }
    rewrite <- HL in H. apply in_map_iff in H as [l [Hl Hin]].
    exists l. split; [exact Hin|]. apply eqb_eq.
    rewrite <- Hfd. apply lineDomain_canonical. now rewrite Hl, Hcan. }
  apply first_such in Hex as [l1 [line [l2 [Hsplit [Hp Hl1]]]]].
  apply eqb_eq in Hp.
  assert (HinL : In line (credentialLines text'))
    by (rewrite Hsplit; apply in_or_app; right; now left).
  pose proof (Hline line HinL Hp) as Hcl.
  apply accepted_get. exists l1, line, l2. split; [exact Hsplit|].
  split; [|split; [exact Hp|split]].
  - rewrite (passes_canonical _ _ Hcl). apply passes_checks.
    rewrite Hfd. split; [exact Hd|]. exists c. auto.
  - unfold credentials_of. now rewrite (lineCredentials_canonical _ _ Hcl), Hfc.
  - simpl. unfold already_listed. apply not_true_is_false. intros H.
    apply existsb_exists in H as [y [Hy H]]. apply andb_true_iff in H as [_ H].
    rewrite (Hl1 y Hy) in H. discriminate.
Qed.

(** What a new process reads back from the written file lists the same. *)
Lemma listCredentials_of_written (text : jsstring) :
  listCredentials_of (trim (trimStart text)) = listCredentials_of text.
Proof.
  apply listCredentials_of_canonical.
  now rewrite canonicalLines_trim, canonicalLines_trimStart.
Qed.

(** ** [flush], [addCredentials] and [removeCredentials] on the state *)

Lemma app_neq_self (x y : jsstring) : y <> [] -> Js.eqb (x ++ y) x = false.
Proof.
  intros Hy. apply eqb_neq. intros E.
  apply (f_equal (@length char)) in E. rewrite length_app in E.
  destruct y; [contradiction | simpl in E; lia].
Qed.

Lemma tmp_not_credentials (env : Env) (rnd : jsstring) :
  Js.eqb (credentials_tmp env rnd) (CREDENTIALS_FILE env) = false.
Proof. unfold credentials_tmp. apply app_neq_self. discriminate. Qed.

Lemma credentials_not_tmp (env : Env) (rnd : jsstring) :
  CREDENTIALS_FILE env <> credentials_tmp env rnd.
Proof.
  intros E. pose proof (tmp_not_credentials env rnd) as H.
  rewrite <- E, eqb_refl in H. discriminate.
Qed.

Lemma fs_set_same (fs : FileSystem) (p : jsstring) (n : option node) :
  fs_set fs p n p = n.
Proof. unfold fs_set. now rewrite eqb_refl. Qed.

Lemma fs_set_other (fs : FileSystem) (p q : jsstring) (n : option node) :
  q <> p -> fs_set fs p n q = fs q.
Proof. intros H. unfold fs_set. apply eqb_neq in H. now rewrite H. Qed.

(** A flush of changed text: the state it leaves. *)
Lemma flush_dirty (env : Env) (rnd text : jsstring) (s : State) :
  credentialsTextChanged (auth s) = true ->
  credentialsText (auth s) = Some text ->
  exists s',
    flush env rnd s = Return tt s'
    /\ auth s' = auth s
    /\ console s' = console s
    /\ trace s' = trace s ++ write_ops env rnd text
    /\ files s' (CREDENTIALS_FILE env) = Some (File (trimStart text))
    /\ files s' (credentials_tmp env rnd) = None
    /\ (forall p, p <> CREDENTIALS_FILE env -> p <> credentials_tmp env rnd ->
                  files s' p = files s p).
Proof.
  intros Hdirty Htext.
  unfold flush, writeCredentialsFile, bind, get_auth, mkdirSync. rewrite Hdirty.
  simpl. rewrite Htext. unfold writeFileSync, renameSync. simpl.
  fold (credentials_tmp env rnd). rewrite fs_set_same.
  eexists. split; [reflexivity|]. simpl.
  split; [reflexivity|]. split; [reflexivity|]. split; [|split; [|split]].
  - unfold write_ops. now rewrite <- !app_assoc.
  - rewrite fs_set_other by apply credentials_not_tmp. apply fs_set_same.
  - apply fs_set_same.
  - intros p H1 H2. now rewrite !fs_set_other.
Qed.

(** C8 (amended): [flush] writes the credential text to disk exactly
    when the dirty flag is set: it makes the configuration directory,
    writes the text (without leading white space) to a sibling
    temporary file and renames that file onto the credential file; with
    the flag unset it does nothing.  It leaves the object as it was,
    the dirty flag still set, so a second flush writes the text again. *)
Theorem flush_persists_when_dirty (env : Env) (rnd : jsstring) (s : State) :
  (credentialsTextChanged (auth s) = false -> flush env rnd s = Return tt s)
  /\ (forall text,
        credentialsTextChanged (auth s) = true ->
        credentialsText (auth s) = Some text ->
        exists s',
          flush env rnd s = Return tt s'
          /\ trace s' = trace s ++ write_ops env rnd text
          /\ files s' (CREDENTIALS_FILE env) = Some (File (trimStart text))
          /\ files s' (credentials_tmp env rnd) = None
          /\ (forall p, p <> CREDENTIALS_FILE env -> p <> credentials_tmp env rnd ->
                        files s' p = files s p)
          /\ auth s' = auth s
          /\ forall rnd', exists s'',
               flush env rnd' s' = Return tt s''
               /\ trace s'' = trace s' ++ write_ops env rnd' text).
Proof.
  split.
  - intros H. unfold flush, bind, get_auth. now rewrite H.
  - intros text Hdirty Htext.
    destruct (flush_dirty env rnd text s Hdirty Htext)
      as [s' [Hrun [Hauth [_ [Htrace [Hfile [Htmp Hrest]]]]]]].
    exists s'. repeat (split; [assumption|]).
    intros rnd'. rewrite <- Hauth in Hdirty, Htext.
    destruct (flush_dirty env rnd' text s' Hdirty Htext)
      as [s'' [Hrun' [_ [_ [Htrace' _]]]]].
    exists s''. auto.
Qed.

Lemma flush_persists_when_dirty_witness :
  flush sample_env SHOP (loaded sample_file) = Return tt (loaded sample_file)
  /\ exists s',
       flush sample_env SHOP (dirty sample_file) = Return tt s'
       /\ trace s' = write_ops sample_env SHOP sample_file.
Proof.
  split.
  - exact (proj1 (flush_persists_when_dirty sample_env SHOP (loaded sample_file)) eq_refl).
  - destruct (proj2 (flush_persists_when_dirty sample_env SHOP (dirty sample_file))
                sample_file eq_refl eq_refl) as [s' [Hrun [Htrace _]]].
    exists s'. split; [exact Hrun | exact Htrace].
Defined.

(** C8 as stated fails: after a flush that wrote, the dirty flag is
    still set and a second flush writes again. *)
Lemma flush_counterexample :
  exists s1 s2,
    flush sample_env SHOP (dirty sample_file) = Return tt s1
    /\ credentialsTextChanged (auth s1) = true
    /\ flush sample_env SHOP s1 = Return tt s2
    /\ trace s1 = write_ops sample_env SHOP sample_file
    /\ trace s2 = write_ops sample_env SHOP sample_file
                  ++ write_ops sample_env SHOP sample_file.
Proof.
  eexists. eexists. split; [reflexivity|]. split; [reflexivity|].
  split; [reflexivity|]. split; reflexivity.
Qed.

Lemma filter_all {A} (p : A -> bool) (l : list A) :
  (forall x, In x l -> p x = true) -> filter p l = l.
Proof.
  induction l as [|a l IH]; intros H; simpl; [reflexivity|].
  rewrite (H a (or_introl eq_refl)). f_equal. apply IH. intros x Hx. apply H. now right.
Qed.

(** Splitting a text and joining the lines again keeps the canonical
    lines, and so what [listCredentials] makes of the text. *)
Lemma listCredentials_of_rejoined (text : jsstring) :
  listCredentials_of (joinLines (splitLines text)) = listCredentials_of text.
Proof.
  apply listCredentials_of_canonical.
  rewrite canonicalLines_joinLines by apply splitLines_one_line.
  apply splitLines_canonical.
Qed.

(** C7 (amended): for a domain that no line of the credential text has,
    [removeCredentials] keeps every line: the new text is the old lines
    joined again, no file is touched and [listCredentials] gives what
    it gave before.  The dirty flag is set all the same. *)
Theorem removeCredentials_missing_domain
    (env : Env) (s s1 : State) (content d : jsstring) :
  loadCredentialsFile env s = Return content s1 ->
  (forall line, In line (splitLines content) -> lineDomain line <> d) ->
  exists s2,
    removeCredentials env d s = Return tt s2
    /\ credentialsText (auth s2) = Some (joinLines (splitLines content))
    /\ listCredentials_of (joinLines (splitLines content)) = listCredentials_of content
    /\ files s2 = files s1 /\ trace s2 = trace s1
    /\ credentialsTextChanged (auth s2) = true.
Proof.
  intros Hload Hmiss. unfold removeCredentials, bind. rewrite Hload.
  unfold set_auth. simpl. eexists. split; [reflexivity|]. simpl.
  unfold removeCredentials_text. rewrite filter_all.
  - split; [reflexivity|]. split; [apply listCredentials_of_rejoined|]. auto.
  - intros line Hin. apply negb_true_iff, eqb_neq.
    intros E. apply (Hmiss line Hin). now symmetry.
Qed.

Lemma removeCredentials_missing_domain_witness :
  exists s2,
    removeCredentials sample_env OTHER_DOMAIN
      (loaded (credentialLine SHOP_DOMAIN sample_credentials)) = Return tt s2
    /\ credentialsText (auth s2)
       = Some (credentialLine SHOP_DOMAIN sample_credentials ++ [NEWLINE])
    /\ credentialsTextChanged (auth s2) = true.
Proof.
  destruct (removeCredentials_missing_domain sample_env
              (loaded (credentialLine SHOP_DOMAIN sample_credentials))
              (loaded (credentialLine SHOP_DOMAIN sample_credentials))
              (credentialLine SHOP_DOMAIN sample_credentials) OTHER_DOMAIN eq_refl)
    as [s2 [Hrun [Htext [_ [_ [_ Hdirty]]]]]].
  - intros line [<-|[]]. vm_compute. discriminate.
  - exists s2. split; [exact Hrun|]. split; [exact Htext | exact Hdirty].
Defined.

(** C7 as stated fails: removing a domain the file does not have sets
    the dirty flag and changes the credential text. *)
Lemma removeCredentials_counterexample :
  exists s2,
    getCredentials sample_env OTHER_DOMAIN
      (loaded (credentialLine SHOP_DOMAIN sample_credentials))
    = Return None (loaded (credentialLine SHOP_DOMAIN sample_credentials))
    /\ removeCredentials sample_env OTHER_DOMAIN
         (loaded (credentialLine SHOP_DOMAIN sample_credentials)) = Return tt s2
    /\ credentialsTextChanged
         (auth (loaded (credentialLine SHOP_DOMAIN sample_credentials))) = false
    /\ credentialsTextChanged (auth s2) = true
    /\ credentialsText (auth (loaded (credentialLine SHOP_DOMAIN sample_credentials)))
       = Some (credentialLine SHOP_DOMAIN sample_credentials)
    /\ credentialsText (auth s2)
       = Some (credentialLine SHOP_DOMAIN sample_credentials ++ [NEWLINE]).
Proof.
  eexists. split; [reflexivity|]. split; [reflexivity|].
  repeat split.
Qed.

Lemma addCredentials_run (env : Env) (s s1 : State) (content d c : jsstring) :
  loadCredentialsFile env s = Return content s1 ->
  addCredentials env d c s =
  Return tt (mkState (set_credentialsTextChanged true
                        (set_credentialsText (addCredentials_text d c content) (auth s1)))
                     (files s1) (trace s1) (console s1)).
Proof.
  intros H. unfold addCredentials, bind. now rewrite H.
Qed.

Lemma loadCredentialsFile_loaded (env : Env) (s : State) (text : jsstring) :
  credentialsText (auth s) = Some text ->
  loadCredentialsFile env s = Return text s.
Proof. intros H. unfold loadCredentialsFile, bind, get_auth. now rewrite H. Qed.

Lemma loadCredentialsFile_fresh (env : Env) (s : State) (content : jsstring) :
  credentialsText (auth s) = None ->
  files s (CREDENTIALS_FILE env) = Some (File content) ->
  loadCredentialsFile env s =
  Return (trim content)
         (mkState (set_credentialsText (trim content) (auth s))
                  (files s) (trace s) (console s)).
Proof.
  intros Ht Hf. unfold loadCredentialsFile, bind, get_auth. rewrite Ht.
  unfold readFileIfExists, catch, readFileSync. now rewrite Hf.
Qed.

(** C5: for a canonical domain [d] and well-formed credentials [c],
    once the credential text can be loaded, [addCredentials(d, c)]
    followed by [flush()] returns, and [listCredentials()] then maps
    [d] to [c], in the same process and in a new process that reads
    the written file. *)
Theorem credentials_round_trip
    (env : Env) (rnd : jsstring) (s s1 : State) (content d c : jsstring) :
  loadCredentialsFile env s = Return content s1 ->
  parseStoreReference d = (true, d) ->
  validCredentials c = true ->
  exists s2,
    bind (addCredentials env d c) (fun _ => flush env rnd) s = Return tt s2
    /\ (exists m s3, listCredentials env s2 = Return m s3 /\ map_get m d = Some c)
    /\ (exists m s3, listCredentials env (restart s2) = Return m s3
                     /\ map_get m d = Some c).
Proof.
  intros Hload Hd Hc. unfold bind at 1.
  rewrite (addCredentials_run env s s1 content d c Hload).
  set (text' := addCredentials_text d c content).
  set (sa := mkState _ _ _ _).
  destruct (flush_dirty env rnd text' sa eq_refl eq_refl)
    as [s2 [Hrun [Hauth [_ [_ [Hfile _]]]]]].
  exists s2. split; [exact Hrun|]. split.
  - assert (Hl : loadCredentialsFile env s2 = Return text' s2)
      by (apply loadCredentialsFile_loaded; now rewrite Hauth).
    rewrite (listCredentials_run env s2 s2 text' Hl).
    eexists _, _. split; [reflexivity|].
    now apply addCredentials_text_get.
  - assert (Hl : loadCredentialsFile env (restart s2) = _)
      by (apply (loadCredentialsFile_fresh env (restart s2) (trimStart text'));
          [reflexivity | exact Hfile]).
    rewrite (listCredentials_run env _ _ _ Hl).
    eexists _, _. split; [reflexivity|].
    rewrite listCredentials_of_written. now apply addCredentials_text_get.
Qed.

Lemma credentials_round_trip_witness :
  exists s2,
    bind (addCredentials sample_env SHOP_DOMAIN other_credentials)
         (fun _ => flush sample_env SHOP) (loaded sample_file) = Return tt s2
    /\ (exists m s3, listCredentials sample_env s2 = Return m s3
                     /\ map_get m SHOP_DOMAIN = Some other_credentials)
    /\ (exists m s3, listCredentials sample_env (restart s2) = Return m s3
                     /\ map_get m SHOP_DOMAIN = Some other_credentials).
Proof.
  exact (credentials_round_trip sample_env SHOP (loaded sample_file)
           (loaded sample_file) sample_file SHOP_DOMAIN other_credentials
           eq_refl eq_refl eq_refl).
Defined.

(** ** The local scope walk *)

Lemma findScopeLoop_unfold (env : Env) (up : list jsstring) (s : State) :
  findScopeLoop env up s =
  if walk_continues env (rev up) then
    match files s (path_join (rev up) LOCAL_CURRENT_FILE) with
    | Some (File content) => Return (Some (rev up)) (scope_found (rev up) content s)
    | Some (Unreadable ENOENT) | None =>
        match up with
        | [] => Return None s
        | _ :: parent => findScopeLoop env parent s
        end
    | Some (Unreadable code) => Throw (FsError code) s
    end
  else Return None s.
Proof.
  destruct up as [|x up]; simpl; unfold walk_continues; simpl;
    match goal with |- context [if ?b then _ else _] => destruct b end;
    try reflexivity;
    unfold catch, bind, readFileSync;
    match goal with |- context [files s ?p] => destruct (files s p) as [[content|[]]|] end;
    reflexivity.
Qed.

(** The walk reads files and sets the two scope fields, nothing else. *)
Lemma findScopeLoop_frame (env : Env) (up : list jsstring) (s s1 : State) (r : option dir) :
  findScopeLoop env up s = Return r s1 ->
  files s1 = files s /\ trace s1 = trace s /\ console s1 = console s
  /\ globalDefault (auth s1) = globalDefault (auth s)
  /\ commandStore (auth s1) = commandStore (auth s)
  /\ credentialsText (auth s1) = credentialsText (auth s)
  /\ credentialsTextChanged (auth s1) = credentialsTextChanged (auth s).
Proof.
  induction up as [|x up IH]; rewrite findScopeLoop_unfold;
    destruct (walk_continues env _);
    try (intros H; injection H as <- <-; repeat split; reflexivity);
    destruct (files s _) as [[content|[]]|];
    try discriminate;
    try (intros H; injection H as <- <-; repeat split; reflexivity);
    try exact IH.
Qed.

Lemma getLocalDefault_frame (env : Env) (s s1 : State) (l : value) :
  getLocalDefault env s = Return l s1 ->
  files s1 = files s /\ trace s1 = trace s /\ console s1 = console s
  /\ globalDefault (auth s1) = globalDefault (auth s)
  /\ commandStore (auth s1) = commandStore (auth s)
  /\ credentialsText (auth s1) = credentialsText (auth s)
  /\ credentialsTextChanged (auth s1) = credentialsTextChanged (auth s).
Proof.
  unfold getLocalDefault, findScopeFolder, bind.
  destruct (findScopeLoop env (rev (cwd env)) s) as [[d|] s'|e s'] eqn:E; try discriminate.
  - simpl. intros H. injection H as <- <-. exact (findScopeLoop_frame env _ s s' _ E).
  - simpl. intros H. injection H as <- <-.
    destruct (findScopeLoop_frame env _ s s' _ E) as [? [? [? [? [? [? ?]]]]]].
    repeat split; assumption.
Qed.

(** The walk uses the first directory, from the working directory up,
    in which the file can be read. *)
Lemma findScopeLoop_found (env : Env) (up : list jsstring) (s : State) (content : jsstring) :
  walk_continues env (rev up) = true ->
  files s (path_join (rev up) LOCAL_CURRENT_FILE) = Some (File content) ->
  findScopeLoop env up s = Return (Some (rev up)) (scope_found (rev up) content s).
Proof.
  intros Hc Hf. rewrite findScopeLoop_unfold, Hc, Hf. reflexivity.
Qed.

Lemma findScopeLoop_parent (env : Env) (x : jsstring) (up : list jsstring) (s : State) :
  walk_continues env (rev (x :: up)) = true ->
  files s (path_join (rev (x :: up)) LOCAL_CURRENT_FILE) = None ->
  findScopeLoop env (x :: up) s = findScopeLoop env up s.
Proof.
  intros Hc Hf. rewrite findScopeLoop_unfold, Hc, Hf. reflexivity.
Qed.

(** With no local default file anywhere the walk ends without an error
    and without a folder. *)
Lemma findScopeLoop_none (env : Env) (up : list jsstring) (s : State) :
  (forall d, files s (path_join d LOCAL_CURRENT_FILE) = None) ->
  findScopeLoop env up s = Return None s.
Proof.
  intros Hf. induction up as [|x up IH]; rewrite findScopeLoop_unfold, Hf;
    destruct (walk_continues env _); auto.
Qed.

Lemma getLocalDefault_none (env : Env) (s : State) :
  (forall d, files s (path_join d LOCAL_CURRENT_FILE) = None) ->
  getLocalDefault env s = Return False_ (scope_missing env s).
Proof.
  intros Hf. unfold getLocalDefault, findScopeFolder, bind.
  now rewrite (findScopeLoop_none env _ s Hf).
Qed.

(** C6 (evaluation at the failing input): with the working directory
    [/home/dev/theme], the home directory [/home/dev] and a local
    default file in [/home] only, the walk goes on above the home
    directory and takes the file of [/home]. *)
Theorem findScopeFolder_walks_above_home :
  exists s',
    getLocalDefault sample_env file_above_home = Return (Str SHOP_DOMAIN) s'
    /\ scopeFolder (auth s') = Some [lit "home"]
    /\ startsWith (render [lit "home"]) (render (homedir sample_env)) = false.
Proof.
  eexists. split; [reflexivity|]. split; reflexivity.
Qed.

(** ** Resolution of the current store *)

Lemma getGlobalDefault_cached (env : Env) (s : State) :
  globalDefault (auth s) <> Undefined ->
  getGlobalDefault env s = Return (globalDefault (auth s)) s.
Proof.
  intros H. unfold getGlobalDefault, loadGlobalDefault, bind, get_auth.
  destruct (globalDefault (auth s)) eqn:E; [contradiction| |]; simpl; now rewrite E.
Qed.

Lemma getGlobalDefault_file (env : Env) (s : State) (content : jsstring) :
  globalDefault (auth s) = Undefined ->
  files s (GLOBAL_CURRENT_FILE env) = Some (File content) ->
  getGlobalDefault env s =
  let v := if nonempty (trim content) then Str (trim content) else False_ in
  Return v (global_loaded v s).
Proof.
  intros Hg Hf. unfold getGlobalDefault, loadGlobalDefault, bind, get_auth.
  rewrite Hg. unfold readFileIfExists, catch, readFileSync. rewrite Hf. reflexivity.
Qed.

Lemma getGlobalDefault_missing (env : Env) (s : State) :
  globalDefault (auth s) = Undefined ->
  files s (GLOBAL_CURRENT_FILE env) = None ->
  getGlobalDefault env s = Return False_ (global_loaded False_ s).
Proof.
  intros Hg Hf. unfold getGlobalDefault, loadGlobalDefault, bind, get_auth.
  rewrite Hg. unfold readFileIfExists, catch, readFileSync. rewrite Hf. reflexivity.
Qed.

(** C2: [currentStore] returns the command-line store when one is set
    (a non-empty string), without looking further; otherwise the local
    scope default when the walk finds a non-empty one; otherwise the
    global default; and [false], no store, when the global default file
    is missing or blank as well. *)
Theorem currentStore_precedence (env : Env) (s : State) :
  (truthy (commandStore (auth s)) = true ->
   currentStore env s = Return (commandStore (auth s)) s)
  /\ (truthy (commandStore (auth s)) = false ->
      forall L s1,
        getLocalDefault env s = Return L s1 ->
        (truthy L = true -> currentStore env s = Return L s1)
        /\ (truthy L = false ->
            (forall G s2, getGlobalDefault env s1 = Return G s2 ->
                          currentStore env s = Return G s2)
            /\ (globalDefault (auth s) = Undefined ->
                forall content,
                  files s (GLOBAL_CURRENT_FILE env) = Some (File content) ->
                  nonempty (trim content) = true ->
                  currentStore env s
                  = Return (Str (trim content)) (global_loaded (Str (trim content)) s1))
            /\ (globalDefault (auth s) = Undefined ->
                files s (GLOBAL_CURRENT_FILE env) = None
                \/ (exists content,
                       files s (GLOBAL_CURRENT_FILE env) = Some (File content)
                       /\ trim content = []) ->
                currentStore env s = Return False_ (global_loaded False_ s1)))).
Proof.
  split.
  - intros HC. unfold currentStore, bind, get_auth. now rewrite HC.
  - intros HC L s1 HL.
    assert (Hrun : currentStore env s
                   = if truthy L then Return L s1 else getGlobalDefault env s1).
    { unfold currentStore, bind at 1, get_auth. rewrite HC.
      unfold bind. rewrite HL. now destruct (truthy L). }
    split; [intros HLt; now rewrite Hrun, HLt|].
    intros HLf. rewrite Hrun, HLf.
    destruct (getLocalDefault_frame env s s1 L HL) as [Hfiles [_ [_ [Hglobal _]]]].
    split; [auto|]. split.
    + intros Hg content Hf Hne.
      rewrite (getGlobalDefault_file env s1 content); [|congruence|congruence].
      simpl. now rewrite Hne.
    + intros Hg [Hf|[content [Hf Hblank]]].
      * apply getGlobalDefault_missing; congruence.
      * rewrite (getGlobalDefault_file env s1 content); [|congruence|congruence].
        simpl. now rewrite Hblank.
Qed.

Lemma currentStore_precedence_witness :
  currentStore sample_env (started (Str SHOP_DOMAIN) layered_files)
  = Return (Str SHOP_DOMAIN) (started (Str SHOP_DOMAIN) layered_files)
  /\ (exists s1, currentStore sample_env (started Undefined layered_files)
                 = Return (Str LOCAL_DOMAIN) s1)
  /\ (exists s2, currentStore sample_env (started Undefined global_only_files)
                 = Return (Str GLOBAL_DOMAIN) s2)
  /\ (exists s3, currentStore sample_env (started Undefined no_files)
                 = Return False_ s3).
Proof.
  split; [|split; [|split]].
  - exact (proj1 (currentStore_precedence sample_env
                    (started (Str SHOP_DOMAIN) layered_files)) eq_refl).
  - eexists.
    refine (proj1 (proj2 (currentStore_precedence sample_env
                            (started Undefined layered_files)) eq_refl
                     (Str LOCAL_DOMAIN) _ _) eq_refl).
    reflexivity.
  - eexists.
    refine (proj1 (proj2 (proj2 (proj2 (currentStore_precedence sample_env
                            (started Undefined global_only_files)) eq_refl
                     False_ _ _) eq_refl)) eq_refl (GLOBAL_DOMAIN ++ [NEWLINE]) eq_refl eq_refl).
    reflexivity.
  - eexists.
    refine (proj2 (proj2 (proj2 (proj2 (currentStore_precedence sample_env
                            (started Undefined no_files)) eq_refl
                     False_ _ _) eq_refl)) eq_refl (or_introl eq_refl)).
    apply getLocalDefault_none. reflexivity.
Defined.

(** ** PathPolicy *)

Section PathPolicy.

Variable isMatch : jsstring -> list jsstring -> bool.

(** C4: [isKnownPath] goes through the rules in order and the first
    rule that applies decides: an allow glob makes the path syncable,
    also when a block glob matches too; otherwise a block glob makes it
    not syncable; otherwise the directory decides, [partials/],
    [components/] and [templates/] being syncable, [assets/library/]
    not, the rest of [assets/] and [config/] syncable, and every other
    path not. *)
Theorem isKnownPath_first_match (w : ThemeWatcher) (path : jsstring) :
  isKnownPath isMatch w path
  = first_match (path_rules isMatch (allowlist w) (blocklist w)) path
  /\ (isMatch path (allowlist w) = true -> isKnownPath isMatch w path = true)
  /\ (isMatch path (allowlist w) = false ->
      (isMatch path (blocklist w) = true -> isKnownPath isMatch w path = false)
      /\ (isMatch path (blocklist w) = false ->
          isKnownPath isMatch w path
          = (under PARTIALS path || under COMPONENTS path || under TEMPLATES path
             || (negb (under ASSETS_LIBRARY path) && under ASSETS path)
             || under CONFIG path))).
Proof.
  split; [reflexivity|]. split.
  - intros Ha. unfold isKnownPath. now rewrite Ha.
  - intros Ha. split.
    + intros Hb. unfold isKnownPath. now rewrite Ha, Hb.
    + intros Hb. unfold isKnownPath, under. rewrite Ha, Hb.
      destruct (startsWith path PARTIALS); [reflexivity|].
      destruct (startsWith path COMPONENTS); [reflexivity|].
      destruct (startsWith path TEMPLATES); [reflexivity|].
      destruct (startsWith path ASSETS_LIBRARY) eqn:El; simpl.
      * destruct (startsWith path CONFIG) eqn:Ec; [|reflexivity].
        apply startsWith_iff in El as [r ->]. simpl in Ec. discriminate.
      * destruct (startsWith path ASSETS); [reflexivity|].
        now destruct (startsWith path CONFIG).
Qed.

End PathPolicy.

Lemma isKnownPath_first_match_witness :
  isKnownPath literalMatch sample_watcher HEADER = true
  /\ isKnownPath literalMatch sample_watcher VENDOR = false
  /\ isKnownPath literalMatch
       (mkThemeWatcher [] [] [] None false []) FOO = true
  /\ isKnownPath literalMatch
       (mkThemeWatcher [] [FOO] [] None false []) FOO = false
  /\ isKnownPath literalMatch
       (mkThemeWatcher [FOO] [FOO] [] None false []) FOO = true.
Proof.
  split; [|split; [|split; [|split]]].
  - rewrite (proj2 (proj2 (proj2 (isKnownPath_first_match literalMatch
                                     sample_watcher HEADER)) eq_refl) eq_refl).
    reflexivity.
  - rewrite (proj2 (proj2 (proj2 (isKnownPath_first_match literalMatch
                                     sample_watcher VENDOR)) eq_refl) eq_refl).
    reflexivity.
  - rewrite (proj2 (proj2 (proj2 (isKnownPath_first_match literalMatch
                                     (mkThemeWatcher [] [] [] None false []) FOO))
                      eq_refl) eq_refl).
    reflexivity.
  - exact (proj1 (proj2 (proj2 (isKnownPath_first_match literalMatch
                                  (mkThemeWatcher [] [FOO] [] None false []) FOO))
                   eq_refl) eq_refl).
  - exact (proj1 (proj2 (isKnownPath_first_match literalMatch
                           (mkThemeWatcher [FOO] [FOO] [] None false []) FOO))
             eq_refl).
Defined.

(** ** The event listener *)

Section Listener.

Variable isMatch : jsstring -> list jsstring -> bool.
Variable relative : jsstring -> jsstring -> jsstring.
Variable sha1 : jsstring -> jsstring.

(** C1 (what the listener does on a positive check): the GitGuard check
    runs before the event is acted on and calls [stop], but the event
    is acted on all the same: a change, an addition or a removal of a
    syncable path still hands its request to the API client. *)
Theorem on_all_requests_after_positive_check
    (watched : jsstring) (r : Repo) (read : jsstring -> option jsstring)
    (event fullpath content : jsstring) (w : ThemeWatcher) :
  checkGitRepository sha1 w r = true ->
  isKnownPath isMatch w (relative watched fullpath) = true ->
  read fullpath = Some content ->
  (event = CHANGE \/ event = ADD ->
   exists w',
     on_all isMatch relative sha1 watched r read event fullpath w = Some w'
     /\ stopped w' = true
     /\ requests w' = requests w ++ [PutSchema (relative watched fullpath) content])
  /\ (event = UNLINK ->
      exists w',
        on_all isMatch relative sha1 watched r read event fullpath w = Some w'
        /\ stopped w' = true
        /\ requests w' = requests w ++ [DeleteSchema (relative watched fullpath)]).
Proof.
  intros Hgit Hknown Hread. unfold on_all. rewrite Hknown, Hgit. split.
  - intros [-> | ->]; simpl; rewrite Hread; eexists;
      (split; [reflexivity|]); split; reflexivity.
  - intros ->. simpl. eexists. split; [reflexivity|]. split; reflexivity.
Qed.

End Listener.

Lemma on_all_requests_after_positive_check_witness :
  checkGitRepository plain_digest sample_watcher switched_repo = true
  /\ exists w',
       on_all literalMatch below plain_digest THEME_DIR switched_repo sample_read
              CHANGE HEADER_FULL sample_watcher = Some w'
       /\ stopped w' = true
       /\ requests w' = [PutSchema HEADER BRACES].
Proof.
  split; [reflexivity|].
  exact (proj1 (on_all_requests_after_positive_check literalMatch below plain_digest
                  THEME_DIR switched_repo sample_read CHANGE HEADER_FULL BRACES
                  sample_watcher eq_refl eq_refl eq_refl)
               (or_introl eq_refl)).
Defined.

(** ** Further properties *)

(** X1: what [parseStoreReference] accepts it returns in canonical form:
    the returned domain is a fixed point. *)
Theorem parseStoreReference_idempotent (s d : jsstring) :
  parseStoreReference s = (true, d) -> parseStoreReference d = (true, d).
Proof.
  unfold parseStoreReference at 1.
  destruct (Js.eqb (strip_reference s) TEST).
  { intros H. injection H as <-. reflexivity. }
  destruct (re_label_then DOT_JUMPSELLER_COM (strip_reference s)) eqn:E2.
  { intros H. injection H as <-.
    apply re_label_then_iff in E2 as [l [Hl ->]]. now apply parse_production_domain. }
  destruct (re_label_then DOT_LOCALHOST (strip_reference s)) eqn:E3.
  { intros H. injection H as <-.
    apply re_label_then_iff in E3 as [l [Hl ->]]. now apply parse_local_domain. }
  destruct (re_label (strip_reference s)) eqn:E4; [|discriminate].
  intros H. injection H as <-. now apply parse_production_domain.
Qed.

Lemma parseStoreReference_idempotent_witness :
  parseStoreReference SHOP_DOMAIN = (true, SHOP_DOMAIN).
Proof. exact (parseStoreReference_idempotent SHOP SHOP_DOMAIN eq_refl). Defined.

Section GitGuard.

Variable sha1 : jsstring -> jsstring.

(** X2 (GitGuard): right after [pin], [check] is true exactly when the
    index is locked; later, an index lock always makes it true, and so
    does another branch than the pinned one; with no lock, the same
    branch and the same stash list it is false. *)
Theorem check_after_pin (g : GitObserver) (r r' : Repo) :
  check sha1 (pin sha1 g r) r = index_lock r
  /\ (index_lock r' = true -> check sha1 (pin sha1 g r) r' = true)
  /\ (readBranch r' <> readBranch r -> check sha1 (pin sha1 g r) r' = true)
  /\ (index_lock r' = false -> readBranch r' = readBranch r ->
      stash_output r' = stash_output r -> check sha1 (pin sha1 g r) r' = false).
Proof.
  unfold check, pin, isIndexLocked. simpl. split; [|split; [|split]].
  - rewrite !eqb_refl. simpl. now rewrite !orb_false_r.
  - now intros ->.
  - intros H. apply not_eq_sym, eqb_neq in H. rewrite H. simpl.
    now rewrite orb_true_r.
  - intros -> Hb Hs. unfold readStash. rewrite Hb, Hs, !eqb_refl. reflexivity.
Qed.

End GitGuard.

Lemma check_after_pin_witness :
  check plain_digest (pin plain_digest (mkGitObserver (lit "/home/dev") None None)
                          pinned_repo) switched_repo = true.
Proof.
  refine (proj1 (proj2 (proj2 (check_after_pin plain_digest
                                 (mkGitObserver (lit "/home/dev") None None)
                                 pinned_repo switched_repo))) _).
  vm_compute. discriminate.
Defined.

Lemma findScopeLoop_at (env : Env) (d : dir) (s : State) (content : jsstring) :
  walk_continues env d = true ->
  files s (path_join d LOCAL_CURRENT_FILE) = Some (File content) ->
  findScopeLoop env (rev d) s = Return (Some d) (scope_found d content s).
Proof.
  intros Hc Hf. pose proof (findScopeLoop_found env (rev d) s content) as H.
  rewrite rev_involutive in H. auto.
Qed.

Lemma findScopeLoop_up (env : Env) (d : dir) (x : jsstring) (s : State) :
  walk_continues env (d ++ [x]) = true ->
  files s (path_join (d ++ [x]) LOCAL_CURRENT_FILE) = None ->
  findScopeLoop env (rev (d ++ [x])) s = findScopeLoop env (rev d) s.
Proof.
  intros Hc Hf. rewrite rev_app_distr. simpl.
  apply findScopeLoop_parent; simpl; now rewrite rev_involutive.
Qed.

Lemma walk_continues_below_root (env : Env) (top : jsstring) (rest : dir) :
  top <> [] -> walk_continues env (top :: rest) = true.
Proof.
  intros H. unfold walk_continues. apply orb_true_iff. right.
  destruct top as [|c top]; [contradiction|]. now destruct rest.
Qed.

(** X3: the nearest directory wins.  When the local default file is
    missing in the working directory and in the directories between it
    and a directory [far] below the root, and can be read in [far], the
    walk takes the file of [far], wherever the home directory is. *)
Theorem findScopeFolder_nearest
    (env : Env) (s : State) (top : jsstring) (above near : list jsstring)
    (content : jsstring) :
  top <> [] ->
  cwd env = (top :: above) ++ near ->
  (forall d rest, near = d ++ rest -> d <> [] ->
                  files s (path_join ((top :: above) ++ d) LOCAL_CURRENT_FILE) = None) ->
  files s (path_join (top :: above) LOCAL_CURRENT_FILE) = Some (File content) ->
  getLocalDefault env s
  = Return (Str content) (scope_found (top :: above) content s).
Proof.
  intros Htop Hcwd Hmiss Hfile.
  set (far := top :: above) in *.
  assert (Hwalk : forall d, walk_continues env (far ++ d) = true)
    by (intros d; now apply walk_continues_below_root).
  assert (Hloop : findScopeLoop env (rev (far ++ near)) s
                  = Return (Some far) (scope_found far content s)).
  { clear Hcwd. induction near as [|x near IH] using rev_ind.
    - rewrite app_nil_r. apply findScopeLoop_at; [|exact Hfile].
      rewrite <- (app_nil_r far). apply Hwalk.
    - rewrite app_assoc, findScopeLoop_up.
      + apply IH. intros d rest -> Hd. apply (Hmiss d (rest ++ [x])); [|exact Hd].
        now rewrite app_assoc.
      + rewrite <- app_assoc. apply Hwalk.
      + rewrite <- app_assoc. apply (Hmiss (near ++ [x]) []).
        * now rewrite app_nil_r.
        * intros E. apply app_eq_nil in E as [_ E]. discriminate. }
  unfold getLocalDefault, findScopeFolder, bind. rewrite Hcwd, Hloop. reflexivity.
Qed.

Lemma findScopeFolder_nearest_witness :
  getLocalDefault sample_env file_above_home
  = Return (Str SHOP_DOMAIN) (scope_found [lit "home"] SHOP_DOMAIN file_above_home).
Proof.
  apply (findScopeFolder_nearest sample_env file_above_home
           (lit "home") [] [lit "dev"; lit "theme"] SHOP_DOMAIN).
  - discriminate.
  - reflexivity.
  - intros d rest Hnear Hd.
    destruct d as [|x d]; [contradiction|].
    simpl in Hnear. injection Hnear as <- Hnear.
    destruct d as [|y d]; [reflexivity|].
    simpl in Hnear. injection Hnear as <- Hnear.
    destruct d as [|z d]; [reflexivity | discriminate Hnear].
  - reflexivity.
Defined.

(** X4: with no local default file in any directory the lookup ends
    with [false], no local default, and throws nothing; the scope
    folder is then the working directory. *)
Theorem no_local_default_is_no_error (env : Env) (s : State) :
  (forall d, files s (path_join d LOCAL_CURRENT_FILE) = None) ->
  getLocalDefault env s = Return False_ (scope_missing env s).
Proof. apply getLocalDefault_none. Qed.

Lemma no_local_default_is_no_error_witness :
  getLocalDefault sample_env (started Undefined no_files)
  = Return False_ (scope_missing sample_env (started Undefined no_files)).
Proof.
  exact (no_local_default_is_no_error sample_env (started Undefined no_files)
           (fun _ => eq_refl)).
Defined.

Section ListenerWithoutGitOperation.

Variable isMatch : jsstring -> list jsstring -> bool.
Variable relative : jsstring -> jsstring -> jsstring.
Variable sha1 : jsstring -> jsstring.

(** X5: while the GitGuard check is negative, an event on a path that is
    not syncable hands over no request, a change or an addition of a
    syncable path hands over one write with the file's text, and a
    removal one delete; the session is not stopped. *)
Theorem on_all_one_request_per_event
    (watched : jsstring) (r : Repo) (read : jsstring -> option jsstring)
    (event fullpath : jsstring) (w : ThemeWatcher) :
  checkGitRepository sha1 w r = false ->
  (isKnownPath isMatch w (relative watched fullpath) = false ->
   exists w',
     on_all isMatch relative sha1 watched r read event fullpath w = Some w'
     /\ requests w' = requests w /\ stopped w' = stopped w)
  /\ (isKnownPath isMatch w (relative watched fullpath) = true ->
      (forall content,
         event = CHANGE \/ event = ADD -> read fullpath = Some content ->
         exists w',
           on_all isMatch relative sha1 watched r read event fullpath w = Some w'
           /\ requests w'
              = requests w ++ [PutSchema (relative watched fullpath) content]
           /\ stopped w' = stopped w)
      /\ (event = UNLINK ->
          exists w',
            on_all isMatch relative sha1 watched r read event fullpath w = Some w'
            /\ requests w' = requests w ++ [DeleteSchema (relative watched fullpath)]
            /\ stopped w' = stopped w)).
Proof.
  intros Hgit. unfold on_all. rewrite Hgit. split.
  - intros ->. simpl. eexists. split; [reflexivity|]. split; reflexivity.
  - intros ->. split.
    + intros content [-> | ->] Hread; simpl; rewrite Hread; eexists;
        (split; [reflexivity|]); split; reflexivity.
    + intros ->. simpl. eexists. split; [reflexivity|]. split; reflexivity.
Qed.

End ListenerWithoutGitOperation.

Lemma on_all_one_request_per_event_witness :
  exists w',
    on_all literalMatch below plain_digest THEME_DIR pinned_repo sample_read
           CHANGE HEADER_FULL sample_watcher = Some w'
    /\ requests w' = [PutSchema HEADER BRACES]
    /\ stopped w' = false.
Proof.
  exact (proj1 (proj2 (on_all_one_request_per_event literalMatch below plain_digest
                         THEME_DIR pinned_repo sample_read CHANGE HEADER_FULL
                         sample_watcher eq_refl) eq_refl)
               BRACES (or_introl eq_refl) eq_refl).
Defined.

(** * Further properties of the credential store *)

(** ** Lookup by the first passing line *)

Lemma already_listed_existsb (before : list jsstring) (d : jsstring) :
  already_listed before d = existsb (lists d) before.
Proof. reflexivity. Qed.

(** The entry of a domain in the map, read off the lines. *)
Lemma accepted_get_find (lines before : list jsstring) (d : jsstring) :
  map_get (accepted (verdicts before lines)) d
  = if already_listed before d then None else lookup_lines d lines.
Proof.
  revert before. induction lines as [|l lines IH]; intros before.
  - simpl. now destruct (already_listed before d).
  - assert (Hlookup : lookup_lines d (l :: lines)
                      = if lists d l then Some (credentials_of l)
                        else lookup_lines d lines).
    { unfold lookup_lines. simpl. now destruct (lists d l). }
    rewrite Hlookup. simpl verdicts.
    destruct (classify before l) as [w|d0 c0] eqn:E.
    + change (accepted (Reject w :: verdicts (before ++ [l]) lines))
        with (accepted (verdicts (before ++ [l]) lines)).
      rewrite IH, already_listed_snoc.
      change (passes l && Js.eqb (lineDomain l) d) with (lists d l).
      destruct (lists d l) eqn:Eh.
      * rewrite orb_true_r. unfold lists in Eh.
        apply andb_true_iff in Eh as [Hp Hd]. apply eqb_eq in Hd. subst d.
        apply classify_reject in E as [[E|E] _]; [congruence|]. now rewrite E.
      * now rewrite orb_false_r.
    + apply classify_accept in E as [Hp [Hn [-> ->]]].
      change (accepted (Accept (lineDomain l) (credentials_of l)
                          :: verdicts (before ++ [l]) lines))
        with ((lineDomain l, credentials_of l)
                :: accepted (verdicts (before ++ [l]) lines)).
      simpl map_get. rewrite IH, already_listed_snoc.
      change (passes l && Js.eqb (lineDomain l) d) with (lists d l).
      unfold lists. rewrite Hp, (eqb_sym d). simpl.
      destruct (Js.eqb (lineDomain l) d) eqn:Ed.
      * apply eqb_eq in Ed. subst d. now rewrite Hn.
      * now rewrite orb_false_r.
Qed.

Lemma passes_nonempty (line : jsstring) :
  passes line = true -> nonempty (canonicalLine line) = true.
Proof.
  intros H. destruct (canonicalLine line) eqn:E; [|reflexivity].
  unfold passes, domain_check, lineDomain in H. rewrite E in H.
  vm_compute in H. discriminate.
Qed.

Lemma find_filter_nonempty (d : jsstring) (lines : list jsstring) :
  find (lists d) (filter (fun l => nonempty (canonicalLine l)) lines)
  = find (lists d) lines.
Proof.
  induction lines as [|l lines IH]; simpl; [reflexivity|].
  destruct (nonempty (canonicalLine l)) eqn:E; simpl.
  - now rewrite IH.
  - rewrite IH. unfold lists at 2.
    destruct (passes l) eqn:Hp; [|reflexivity].
    apply passes_nonempty in Hp. congruence.
Qed.

Lemma lookup_lines_canonical (d : jsstring) (ls1 ls2 : list jsstring) :
  List.map canonicalLine ls1 = List.map canonicalLine ls2 ->
  lookup_lines d ls1 = lookup_lines d ls2.
Proof.
  unfold lookup_lines.
  revert ls2. induction ls1 as [|l1 ls1 IH]; intros [|l2 ls2] H; try discriminate;
    [reflexivity|].
  simpl in H. injection H as Hl Hls. simpl. unfold lists at 1 3.
  rewrite (passes_canonical _ _ Hl), (lineDomain_canonical _ _ Hl).
  destruct (passes l2 && Js.eqb (lineDomain l2) d).
  - simpl. unfold credentials_of. now rewrite (lineCredentials_canonical _ _ Hl).
  - now apply IH.
Qed.

(** What [getCredentials] finds in a text is the first passing line of
    the domain. *)
Lemma lookup_text (text d : jsstring) :
  map_get (fst (listCredentials_of text)) d = lookup_lines d (splitLines text).
Proof.
  rewrite listCredentials_of_verdicts. simpl. rewrite accepted_get_find. simpl.
  unfold lookup_lines, credentialLines. now rewrite find_filter_nonempty.
Qed.

(** The same for the text [joinLines] makes of lines. *)
Lemma lookup_joinLines (lines : list jsstring) (d : jsstring) :
  Forall one_line lines ->
  map_get (fst (listCredentials_of (joinLines lines))) d = lookup_lines d lines.
Proof.
  intros H. rewrite listCredentials_of_verdicts. simpl. rewrite accepted_get_find.
  simpl. unfold lookup_lines at 1. 
  transitivity (lookup_lines d (filter (fun l => nonempty (canonicalLine l)) lines)).
  - apply lookup_lines_canonical.
    rewrite credentialLines_canonical, canonicalLines_joinLines by exact H.
    now rewrite map_filter_comm.
  - unfold lookup_lines. now rewrite find_filter_nonempty.
Qed.

(** ** What [addCredentials] and [removeCredentials] do to the entries *)

Lemma lookup_lines_cons (d l : jsstring) (lines : list jsstring) :
  lookup_lines d (l :: lines)
  = if lists d l then Some (credentials_of l) else lookup_lines d lines.
Proof. unfold lookup_lines. simpl. now destruct (lists d l). Qed.

Lemma lookup_lines_removed (d d' : jsstring) (lines : list jsstring) :
  lookup_lines d' (filter (fun l => negb (Js.eqb d (lineDomain l))) lines)
  = if Js.eqb d' d then None else lookup_lines d' lines.
Proof.
  induction lines as [|l lines IH]; simpl.
  - unfold lookup_lines. simpl. now destruct (Js.eqb d' d).
  - rewrite lookup_lines_cons.
    destruct (Js.eqb d (lineDomain l)) eqn:Ed; simpl.
    + rewrite IH. apply eqb_eq in Ed. unfold lists. rewrite <- Ed, (eqb_sym d d').
      destruct (Js.eqb d' d); [reflexivity|]. now rewrite andb_false_r.
    + rewrite lookup_lines_cons, IH.
      destruct (lists d' l) eqn:Eh; [|reflexivity].
      unfold lists in Eh. apply andb_true_iff in Eh as [_ Eh]. apply eqb_eq in Eh.
      subst d'. rewrite eqb_sym, Ed. reflexivity.
Qed.

Lemma lookup_lines_app (d : jsstring) (ls1 ls2 : list jsstring) :
  lookup_lines d (ls1 ++ ls2)
  = match lookup_lines d ls1 with
    | Some c => Some c
    | None => lookup_lines d ls2
    end.
Proof.
  induction ls1 as [|l ls1 IH]; [reflexivity|].
  change ((l :: ls1) ++ ls2) with (l :: ls1 ++ ls2).
  rewrite !lookup_lines_cons. now destruct (lists d l).
Qed.

Lemma lookup_lines_replaced (d c d' : jsstring) (lines : list jsstring) :
  lineDomain (credentialLine d c) = d -> d' <> d ->
  lookup_lines d' (List.map fst (List.map (replaceLine d c) lines))
  = lookup_lines d' lines.
Proof.
  intros Hdc Hne. induction lines as [|l lines IH]; [reflexivity|].
  simpl. rewrite !lookup_lines_cons, IH.
  destruct (replaceLine_cases d c l) as [[-> _]|[-> Hl]]; simpl; [reflexivity|].
  unfold lists. rewrite Hdc, Hl.
  assert (E : Js.eqb d d' = false) by (apply eqb_neq; congruence).
  now rewrite E, !andb_false_r.
Qed.

Lemma lookup_lines_added (d c d' : jsstring) (lines : list jsstring) :
  lineDomain (credentialLine d c) = d -> d' <> d ->
  lookup_lines d' (addCredentials_lines d c lines) = lookup_lines d' lines.
Proof.
  intros Hdc Hne. unfold addCredentials_lines.
  destruct (negb (existsb snd (List.map (replaceLine d c) lines))).
  - rewrite lookup_lines_app, lookup_lines_replaced by assumption.
    destruct (lookup_lines d' lines); [reflexivity|].
    fold (credentialLine d c). rewrite lookup_lines_cons. unfold lists.
    rewrite Hdc.
    assert (E : Js.eqb d d' = false) by (apply eqb_neq; congruence).
    now rewrite E, andb_false_r.
  - now apply lookup_lines_replaced.
Qed.

Lemma filter_Forall {A} (P : A -> Prop) (p : A -> bool) (l : list A) :
  Forall P l -> Forall P (filter p l).
Proof.
  intros H. apply Forall_forall. intros x Hx. apply filter_In in Hx as [Hx _].
  rewrite Forall_forall in H. now apply H.
Qed.

(** The entries of the text [removeCredentials] leaves. *)
Lemma removeCredentials_text_get (d d' content : jsstring) :
  map_get (fst (listCredentials_of (removeCredentials_text d content))) d'
  = if Js.eqb d' d then None else map_get (fst (listCredentials_of content)) d'.
Proof.
  unfold removeCredentials_text.
  rewrite lookup_joinLines by (apply filter_Forall, splitLines_one_line).
  now rewrite lookup_lines_removed, lookup_text.
Qed.

(** The entries of the text [addCredentials] leaves. *)
Lemma addCredentials_text_get_any (d c d' content : jsstring) :
  parseStoreReference d = (true, d) -> validCredentials c = true ->
  map_get (fst (listCredentials_of (addCredentials_text d c content))) d'
  = if Js.eqb d' d then Some c else map_get (fst (listCredentials_of content)) d'.
Proof.
  intros Hd Hc. destruct (Js.eqb d' d) eqn:E.
  - apply eqb_eq in E. subst d'. now apply addCredentials_text_get.
  - apply eqb_neq in E.
    destruct (canonical_domain_plain d Hd) as [Hdp Hdn].
    destruct (valid_credential_plain c Hc) as [Hcp Hcn].
    destruct (credentialLine_fields d c Hdp Hcp Hdn Hcn) as [Hfd _].
    rewrite addCredentials_text_lines, lookup_joinLines.
    + now rewrite lookup_lines_added, lookup_text.
    + apply added_lines_one_line; [exact Hdp | exact Hcp | apply splitLines_one_line].
Qed.

Lemma getCredentials_run (env : Env) (s s1 : State) (content d : jsstring) :
  loadCredentialsFile env s = Return content s1 ->
  getCredentials env d s =
  Return (map_get (fst (listCredentials_of content)) d)
         (mkState (auth s1) (files s1) (trace s1)
                  (console s1 ++ snd (listCredentials_of content))).
Proof.
  intros H. unfold getCredentials, bind.
  now rewrite (listCredentials_run env s s1 content H).
Qed.

Lemma removeCredentials_run (env : Env) (s s1 : State) (content d : jsstring) :
  loadCredentialsFile env s = Return content s1 ->
  removeCredentials env d s =
  Return tt (mkState (set_credentialsTextChanged true
                        (set_credentialsText (removeCredentials_text d content) (auth s1)))
                     (files s1) (trace s1) (console s1)).
Proof.
  intros H. unfold removeCredentials, bind. now rewrite H.
Qed.

(** After a change of the text and a flush, [getCredentials] reads the
    changed text, in the process itself and in a new one. *)
Lemma getCredentials_after_flush
    (env : Env) (rnd text : jsstring) (sa : State) :
  credentialsTextChanged (auth sa) = true ->
  credentialsText (auth sa) = Some text ->
  exists s2,
    flush env rnd sa = Return tt s2
    /\ files s2 (CREDENTIALS_FILE env) = Some (File (trimStart text))
    /\ credentialsText (auth s2) = Some text
    /\ (forall d, exists s3,
          getCredentials env d s2
          = Return (map_get (fst (listCredentials_of text)) d) s3)
    /\ (forall d, exists s3,
          getCredentials env d (restart s2)
          = Return (map_get (fst (listCredentials_of text)) d) s3).
Proof.
  intros Hdirty Htext.
  destruct (flush_dirty env rnd text sa Hdirty Htext)
    as [s2 [Hrun [Hauth [_ [_ [Hfile _]]]]]].
  exists s2. split; [exact Hrun|]. split; [exact Hfile|].
  split; [now rewrite Hauth|]. split.
  - intros d. eexists.
    apply getCredentials_run, loadCredentialsFile_loaded. now rewrite Hauth.
  - intros d. eexists. rewrite <- (listCredentials_of_written text).
    apply getCredentials_run.
    apply (loadCredentialsFile_fresh env (restart s2) (trimStart text));
      [reflexivity | exact Hfile].
Qed.

(** X6: [removeCredentials(d)] followed by [flush()] removes the entry
    of [d] and no other: afterwards [getCredentials] finds nothing for
    [d] and, for every other domain, what it found before, both in the
    same process and in a new process reading the written file. *)
Theorem removeCredentials_removes_only_domain
    (env : Env) (rnd : jsstring) (s s1 : State) (content d : jsstring) :
  loadCredentialsFile env s = Return content s1 ->
  exists s2,
    bind (removeCredentials env d) (fun _ => flush env rnd) s = Return tt s2
    /\ (forall d', exists s3,
          getCredentials env d' s2
          = Return (if Js.eqb d' d then None
                    else map_get (fst (listCredentials_of content)) d') s3)
    /\ (forall d', exists s3,
          getCredentials env d' (restart s2)
          = Return (if Js.eqb d' d then None
                    else map_get (fst (listCredentials_of content)) d') s3).
Proof.
  intros Hload. unfold bind at 1.
  rewrite (removeCredentials_run env s s1 content d Hload).
  set (sa := mkState _ _ _ _).
  destruct (getCredentials_after_flush env rnd (removeCredentials_text d content) sa
              eq_refl eq_refl) as [s2 [Hrun [_ [_ [Hsame Hnew]]]]].
  exists s2. split; [exact Hrun|].
  split; intros d'; rewrite <- removeCredentials_text_get; auto.
Qed.

Lemma removeCredentials_removes_only_domain_witness :
  exists s2,
    bind (removeCredentials sample_env SHOP_DOMAIN) (fun _ => flush sample_env SHOP)
         (loaded sample_file) = Return tt s2
    /\ (exists s3, getCredentials sample_env SHOP_DOMAIN (restart s2) = Return None s3).
Proof.
  destruct (removeCredentials_removes_only_domain sample_env SHOP
              (loaded sample_file) (loaded sample_file) sample_file SHOP_DOMAIN eq_refl)
    as [s2 [Hrun [_ Hnew]]].
  exists s2. split; [exact Hrun|]. exact (Hnew SHOP_DOMAIN).
Defined.

(** X7: for a canonical domain [d] and well-formed credentials [c],
    [addCredentials(d, c)] followed by [flush()] changes the entry of
    [d] and no other: afterwards [getCredentials] finds [c] for [d] and,
    for every other domain, what it found before, both in the same
    process and in a new process reading the written file. *)
Theorem addCredentials_changes_only_domain
    (env : Env) (rnd : jsstring) (s s1 : State) (content d c : jsstring) :
  loadCredentialsFile env s = Return content s1 ->
  parseStoreReference d = (true, d) ->
  validCredentials c = true ->
  exists s2,
    bind (addCredentials env d c) (fun _ => flush env rnd) s = Return tt s2
    /\ (forall d', exists s3,
          getCredentials env d' s2
          = Return (if Js.eqb d' d then Some c
                    else map_get (fst (listCredentials_of content)) d') s3)
    /\ (forall d', exists s3,
          getCredentials env d' (restart s2)
          = Return (if Js.eqb d' d then Some c
                    else map_get (fst (listCredentials_of content)) d') s3).
Proof.
  intros Hload Hd Hc. unfold bind at 1.
  rewrite (addCredentials_run env s s1 content d c Hload).
  set (sa := mkState _ _ _ _).
  destruct (getCredentials_after_flush env rnd (addCredentials_text d c content) sa
              eq_refl eq_refl) as [s2 [Hrun [_ [_ [Hsame Hnew]]]]].
  exists s2. split; [exact Hrun|].
  split; intros d'; rewrite <- (addCredentials_text_get_any d c d' content Hd Hc); auto.
Qed.

Lemma addCredentials_changes_only_domain_witness :
  exists s2,
    bind (addCredentials sample_env OTHER_DOMAIN other_credentials)
         (fun _ => flush sample_env SHOP) (loaded sample_file) = Return tt s2
    /\ (exists s3, getCredentials sample_env SHOP_DOMAIN (restart s2)
                   = Return (Some sample_credentials) s3)
    /\ (exists s3, getCredentials sample_env OTHER_DOMAIN (restart s2)
                   = Return (Some other_credentials) s3).
Proof.
  destruct (addCredentials_changes_only_domain sample_env SHOP
              (loaded sample_file) (loaded sample_file) sample_file
              OTHER_DOMAIN other_credentials eq_refl eq_refl eq_refl)
    as [s2 [Hrun [_ Hnew]]].
  exists s2. split; [exact Hrun|]. split.
  - exact (Hnew SHOP_DOMAIN).
  - exact (Hnew OTHER_DOMAIN).
Defined.

Lemma loadCredentialsFile_frame (env : Env) (s s1 : State) (content : jsstring) :
  loadCredentialsFile env s = Return content s1 ->
  credentialsText (auth s1) = Some content
  /\ credentialsTextChanged (auth s1) = credentialsTextChanged (auth s)
  /\ files s1 = files s /\ trace s1 = trace s /\ console s1 = console s.
Proof.
  unfold loadCredentialsFile, bind, get_auth.
  destruct (credentialsText (auth s)) as [text|] eqn:E.
  - intros H. injection H as <- <-. auto.
  - unfold readFileIfExists, catch, readFileSync.
    destruct (files s (CREDENTIALS_FILE env)) as [[c|[]]|]; simpl; try discriminate;
      intros H; injection H as <- <-; simpl; auto.
Qed.

(** X8: the [access remove] command.  For a store without a valid entry
    it prints "No credentials found" and leaves the object's text and
    dirty flag and the disk as they were; for a store with an entry it
    prints "Removed", and a new process then finds nothing for that
    store and, for every other domain, what was found before. *)
Theorem remove_command_spec
    (env : Env) (rnd : jsstring) (s s1 : State) (content store : jsstring) :
  loadCredentialsFile env s = Return content s1 ->
  (map_get (fst (listCredentials_of content)) store = None ->
   exists s',
     remove_command env rnd store s = Return false s'
     /\ auth s' = auth s1 /\ files s' = files s /\ trace s' = trace s)
  /\ (forall c,
        map_get (fst (listCredentials_of content)) store = Some c ->
        exists s2,
          remove_command env rnd store s = Return true s2
          /\ forall d', exists s3,
               getCredentials env d' (restart s2)
               = Return (if Js.eqb d' store then None
                         else map_get (fst (listCredentials_of content)) d') s3).
Proof.
  intros Hload.
  destruct (loadCredentialsFile_frame env s s1 content Hload)
    as [Htext [_ [Hfiles [Htrace _]]]].
  pose proof (getCredentials_run env s s1 content store Hload) as Hget.
  split.
  - intros Hnone. unfold remove_command, bind at 1. rewrite Hget, Hnone.
    eexists. split; [reflexivity|]. simpl. auto.
  - intros c Hsome. unfold remove_command, bind at 1. rewrite Hget, Hsome.
    set (s3 := mkState _ _ _ _).
    assert (Hload3 : loadCredentialsFile env s3 = Return content s3)
      by (now apply loadCredentialsFile_loaded).
    unfold bind at 1. rewrite (removeCredentials_run env s3 s3 content store Hload3).
    set (sa := mkState _ _ _ _).
    destruct (getCredentials_after_flush env rnd (removeCredentials_text store content)
                sa eq_refl eq_refl) as [s2 [Hrun [_ [_ [_ Hnew]]]]].
    unfold bind. rewrite Hrun. exists s2. split; [reflexivity|].
    intros d'. rewrite <- removeCredentials_text_get. apply Hnew.
Qed.

Lemma remove_command_spec_witness :
  (exists s',
     remove_command sample_env SHOP OTHER_DOMAIN (loaded sample_file) = Return false s'
     /\ trace s' = [])
  /\ (exists s2,
        remove_command sample_env SHOP SHOP_DOMAIN (loaded sample_file) = Return true s2
        /\ exists s3, getCredentials sample_env SHOP_DOMAIN (restart s2) = Return None s3).
Proof.
  split.
  - destruct (proj1 (remove_command_spec sample_env SHOP (loaded sample_file)
                       (loaded sample_file) sample_file OTHER_DOMAIN eq_refl) eq_refl)
      as [s' [Hrun [_ [_ Htrace]]]].
    exists s'. split; [exact Hrun | exact Htrace].
  - destruct (proj2 (remove_command_spec sample_env SHOP (loaded sample_file)
                       (loaded sample_file) sample_file SHOP_DOMAIN eq_refl)
                sample_credentials eq_refl)
      as [s2 [Hrun Hnew]].
    exists s2. split; [exact Hrun|]. exact (Hnew SHOP_DOMAIN).
Defined.

(** * The defaults *)

Lemma trimStart_idempotent (s : jsstring) : trimStart (trimStart s) = trimStart s.
Proof.
  induction s as [|c s IH]; simpl; [reflexivity|].
  destruct (is_space c) eqn:E; [exact IH|]. simpl. now rewrite E.
Qed.

Lemma trim_trimStart (s : jsstring) : trim (trimStart s) = trim s.
Proof. unfold trim. now rewrite trimStart_idempotent. Qed.

Lemma trimStart_plain (s : jsstring) : all_plain s -> trimStart s = s.
Proof.
  intros H. destruct H as [|c s Hc _]; [reflexivity|].
  now apply trimStart_plain_head.
Qed.

Lemma trim_plain (s : jsstring) : all_plain s -> trim s = s.
Proof.
  intros H. unfold trim. rewrite (trimStart_plain s H).
  destruct s as [|c s]; [reflexivity|].
  destruct (nonempty_snoc (c :: s)) as [r [x E]]; [discriminate|].
  rewrite E. apply trimEnd_plain_last.
  unfold all_plain in H. rewrite Forall_forall in H. apply H.
  rewrite E. apply in_or_app. right. now left.
Qed.

Lemma global_not_tmp (env : Env) (rnd : jsstring) :
  GLOBAL_CURRENT_FILE env <> global_tmp env rnd.
Proof.
  intros E. assert (H : Js.eqb (global_tmp env rnd) (GLOBAL_CURRENT_FILE env) = false)
    by (unfold global_tmp; apply app_neq_self; discriminate).
  rewrite <- E, eqb_refl in H. discriminate.
Qed.

(** The state [setGlobalDefault] leaves. *)
Lemma setGlobalDefault_run (env : Env) (d rnd : jsstring) (s : State) :
  exists s2,
    setGlobalDefault env d rnd s = Return tt s2
    /\ auth s2 = set_globalDefault (Str d) (auth s)
    /\ trace s2 = trace s ++ [Mkdir (render (CONFIG_DIR env));
                             WriteFile (global_tmp env rnd) (trimStart d);
                             Rename (global_tmp env rnd) (GLOBAL_CURRENT_FILE env)]
    /\ files s2 (GLOBAL_CURRENT_FILE env) = Some (File (trimStart d))
    /\ (forall p, p <> GLOBAL_CURRENT_FILE env -> p <> global_tmp env rnd ->
                  files s2 p = files s p)
    /\ (forall p, files s p = None -> p <> GLOBAL_CURRENT_FILE env ->
                  files s2 p = None).
Proof.
  unfold setGlobalDefault, writeGlobalDefault, bind, set_auth, mkdirSync, get_auth.
  simpl. unfold writeFileSync, renameSync. simpl.
  fold (global_tmp env rnd). rewrite fs_set_same.
  eexists. split; [reflexivity|]. simpl.
  split; [reflexivity|]. split; [now rewrite <- !app_assoc|]. split; [|split].
  - rewrite fs_set_other by apply global_not_tmp. apply fs_set_same.
  - intros p H1 H2. now rewrite !fs_set_other.
  - intros p Hp H1. unfold fs_set.
    repeat match goal with
           | |- context [if ?b then _ else _] => destruct b eqn:?
           end; try reflexivity; try exact Hp.
    exfalso. apply H1. now apply eqb_eq.
Qed.

Lemma join_snoc (sep : char) (l : list jsstring) (n : jsstring) :
  join sep (l ++ [n])
  = match l with
    | [] => n
    | _ :: _ => join sep l ++ sep :: n
    end.
Proof.
  induction l as [|x l IH]; [reflexivity|].
  change ((x :: l) ++ [n]) with (x :: l ++ [n]).
  destruct l as [|y l].
  - reflexivity.
  - change (join sep (x :: (y :: l) ++ [n]))
      with (x ++ sep :: join sep ((y :: l) ++ [n])).
    rewrite IH. change (join sep (x :: y :: l)) with (x ++ sep :: join sep (y :: l)).
    now rewrite <- app_assoc.
Qed.

(** A local default file is never the global default file. *)
Lemma local_not_global (env : Env) (d : dir) :
  path_join d LOCAL_CURRENT_FILE <> GLOBAL_CURRENT_FILE env.
Proof.
  unfold path_join, GLOBAL_CURRENT_FILE, path_join, render, CONFIG_DIR.
  rewrite !join_snoc. intros E. injection E as E.
  assert (Hg : exists q, (homedir env ++ [DOT_CONFIG; JUMPSELLER]) = q /\ q <> []).
  { eexists. split; [reflexivity|]. intros H. apply app_eq_nil in H as [_ H]. discriminate. }
  destruct Hg as [q [Hq Hne]]. rewrite Hq in E.
  destruct q as [|q0 q]; [contradiction|].
  apply (f_equal (@rev char)) in E.
  destruct d as [|d0 d]; rewrite ?rev_app_distr in E; simpl in E; discriminate.
Qed.

(** X9: [setGlobalDefault(d)] writes [d] (without leading white space)
    to the global default file through a temporary file; the same
    process then has [d] as its global default, and a new process reads
    back the trimmed text, [false] when that is empty.  For a canonical
    domain the new process reads [d] itself, and [currentStore()] is [d]
    when there is no command-line store and no local default file. *)
Theorem setGlobalDefault_round_trip (env : Env) (d rnd : jsstring) (s : State) :
  exists s2,
    setGlobalDefault env d rnd s = Return tt s2
    /\ trace s2 = trace s ++ [Mkdir (render (CONFIG_DIR env));
                             WriteFile (global_tmp env rnd) (trimStart d);
                             Rename (global_tmp env rnd) (GLOBAL_CURRENT_FILE env)]
    /\ getGlobalDefault env s2 = Return (Str d) s2
    /\ getGlobalDefault env (restart s2)
       = (let v := if nonempty (trim d) then Str (trim d) else False_ in
          Return v (global_loaded v (restart s2)))
    /\ (parseStoreReference d = (true, d) ->
        getGlobalDefault env (restart s2)
        = Return (Str d) (global_loaded (Str d) (restart s2))
        /\ ((forall dd, files s (path_join dd LOCAL_CURRENT_FILE) = None) ->
            exists s3, currentStore env (restart s2) = Return (Str d) s3)).
Proof.
  destruct (setGlobalDefault_run env d rnd s)
    as [s2 [Hrun [Hauth [Htrace [Hfile [_ Hnone]]]]]].
  exists s2. split; [exact Hrun|]. split; [exact Htrace|].
  assert (Hnew : getGlobalDefault env (restart s2)
                 = (let v := if nonempty (trim d) then Str (trim d) else False_ in
                    Return v (global_loaded v (restart s2)))).
  { rewrite (getGlobalDefault_file env (restart s2) (trimStart d));
      [|reflexivity|exact Hfile].
    now rewrite trim_trimStart. }
  split; [|split; [exact Hnew|]].
  - rewrite getGlobalDefault_cached; rewrite Hauth; simpl; [reflexivity | discriminate].
  - intros Hd. destruct (canonical_domain_plain d Hd) as [Hp Hn].
    assert (Hv : (if nonempty (trim d) then Str (trim d) else False_) = Str d).
    { rewrite (trim_plain d Hp). destruct d; [contradiction | reflexivity]. }
    simpl in Hnew. rewrite Hv in Hnew. split; [exact Hnew|].
    intros Hlocal.
    assert (Hl : getLocalDefault env (restart s2)
                 = Return False_ (scope_missing env (restart s2))).
    { apply getLocalDefault_none. intros dd. simpl.
      apply Hnone; [apply Hlocal | apply local_not_global]. }
    unfold currentStore, bind at 1, get_auth. simpl.
    unfold bind. rewrite Hl. simpl.
    rewrite (getGlobalDefault_file env (scope_missing env (restart s2)) (trimStart d));
      [|reflexivity|exact Hfile].
    rewrite trim_trimStart. simpl. rewrite Hv. eexists. reflexivity.
Qed.

Lemma setGlobalDefault_round_trip_witness :
  exists s2,
    setGlobalDefault sample_env SHOP_DOMAIN SHOP (started Undefined no_files)
    = Return tt s2
    /\ exists s3, currentStore sample_env (restart s2) = Return (Str SHOP_DOMAIN) s3.
Proof.
  destruct (setGlobalDefault_round_trip sample_env SHOP_DOMAIN SHOP
              (started Undefined no_files))
    as [s2 [Hrun [_ [_ [_ Hcanon]]]]].
  exists s2. split; [exact Hrun|].
  exact (proj2 (Hcanon eq_refl) (fun _ => eq_refl)).
Defined.

(** ** The local default *)

Lemma findScopeLoop_result (env : Env) (up : list jsstring) (s s1 : State) (r : option dir) :
  findScopeLoop env up s = Return r s1 ->
  match r with
  | Some D => exists content,
                s1 = scope_found D content s
                /\ files s (path_join D LOCAL_CURRENT_FILE) = Some (File content)
  | None => s1 = s
  end.
Proof.
  induction up as [|x up IH]; rewrite findScopeLoop_unfold;
    destruct (walk_continues env _);
    try (intros H; injection H as <- <-; reflexivity);
    destruct (files s _) as [[content|[]]|] eqn:Ef;
    try discriminate;
    try (intros H; injection H as <- <-; first [reflexivity | now exists content]);
    try exact IH.
Qed.

(** A walk that found the file in [D] finds it there again after the
    file of [D] was rewritten, whatever else disappeared. *)
Lemma findScopeLoop_after_write
    (env : Env) (up : list jsstring) (s s1 s' : State) (D : dir) (c' : jsstring) :
  findScopeLoop env up s = Return (Some D) s1 ->
  files s' (path_join D LOCAL_CURRENT_FILE) = Some (File c') ->
  (forall p, p <> path_join D LOCAL_CURRENT_FILE ->
             files s' p = files s p \/ files s' p = None) ->
  findScopeLoop env up s' = Return (Some D) (scope_found D c' s').
Proof.
  intros Hold Hnew Hrest.
  pose proof (findScopeLoop_result env up s s1 (Some D) Hold) as [c0 [_ Htarget]].
  revert Hold. induction up as [|x up IH].
  - rewrite (findScopeLoop_unfold env [] s), (findScopeLoop_unfold env [] s').
    destruct (walk_continues env (rev [])); try discriminate.
    destruct (files s (path_join (rev []) LOCAL_CURRENT_FILE)) as [[content|[]]|] eqn:Ef;
      try discriminate.
    intros H. injection H as HD _. simpl rev in *. subst D. now rewrite Hnew.
  - rewrite (findScopeLoop_unfold env (x :: up) s),
            (findScopeLoop_unfold env (x :: up) s').
    destruct (walk_continues env (rev (x :: up))); try discriminate.
    destruct (files s (path_join (rev (x :: up)) LOCAL_CURRENT_FILE))
      as [[content|code]|] eqn:Ef.
    + intros H. injection H as HD _. simpl rev in *. subst D. now rewrite Hnew.
    + destruct code; try discriminate. intros H.
      assert (Hne : path_join (rev (x :: up)) LOCAL_CURRENT_FILE
                    <> path_join D LOCAL_CURRENT_FILE) by congruence.
      destruct (Hrest _ Hne) as [E|E]; rewrite E, ?Ef; now apply IH.
    + intros H.
      assert (Hne : path_join (rev (x :: up)) LOCAL_CURRENT_FILE
                    <> path_join D LOCAL_CURRENT_FILE) by congruence.
      destruct (Hrest _ Hne) as [E|E]; rewrite E, ?Ef; now apply IH.
Qed.

Lemma local_target_not_tmp (D : dir) (rnd : jsstring) :
  path_join D LOCAL_CURRENT_FILE <> local_tmp D rnd.
Proof.
  unfold local_tmp, path_join, render. rewrite !join_snoc. intros E.
  apply (f_equal (@length char)) in E.
  destruct D as [|d0 D]; simpl in E; rewrite ?length_app in E; simpl in E;
    rewrite ?length_app in E; simpl in E; lia.
Qed.

(** The state [setLocalDefault] leaves when the walk ended in [D]. *)
Lemma setLocalDefault_run
    (env : Env) (d rnd : jsstring) (s s1 : State) (D : dir) :
  findScopeFolder env s = Return D s1 ->
  exists s2,
    setLocalDefault env d rnd s = Return tt s2
    /\ scopeFolder (auth s2) = Some D
    /\ scopeDefault (auth s2) = Str d
    /\ trace s2 = trace s ++ [Mkdir (render D);
                             WriteFile (local_tmp D rnd) (trimStart d);
                             Rename (local_tmp D rnd) (path_join D LOCAL_CURRENT_FILE)]
    /\ files s2 (path_join D LOCAL_CURRENT_FILE) = Some (File (trimStart d))
    /\ (forall p, p <> path_join D LOCAL_CURRENT_FILE ->
                  files s2 p = files s p \/ files s2 p = None).
Proof.
  intros Hfind.
  assert (Hs1 : scopeFolder (auth s1) = Some D
                /\ files s1 = files s /\ trace s1 = trace s).
  { unfold findScopeFolder, bind in Hfind.
    destruct (findScopeLoop env (rev (cwd env)) s) as [[D'|] s'|e s'] eqn:E;
      try discriminate.
    - injection Hfind as <- <-.
      destruct (findScopeLoop_result env _ s s' _ E) as [content [-> _]]. auto.
    - simpl in Hfind. injection Hfind as <- <-.
      now rewrite (findScopeLoop_result env _ s s' _ E). }
  destruct Hs1 as [Hfolder [Hfiles Htrace]].
  unfold setLocalDefault, bind at 1. rewrite Hfind.
  unfold bind, set_auth, writeLocalDefault, bind, get_auth. simpl.
  rewrite Hfolder. unfold mkdirSync. simpl.
  unfold writeFileSync, renameSync. simpl. rewrite fs_set_same.
  eexists. split; [reflexivity|]. simpl. rewrite Hfiles, Htrace.
  split; [exact Hfolder|]. split; [reflexivity|].
  split; [now rewrite <- !app_assoc|]. split.
  - rewrite fs_set_other by apply local_target_not_tmp. apply fs_set_same.
  - intros p Hp. unfold fs_set.
    destruct (Js.eqb p (local_tmp D rnd)); [now right|].
    apply eqb_neq in Hp. rewrite Hp. now left.
Qed.

Lemma getLocalDefault_of_loop (env : Env) (s : State) (D : dir) (c : jsstring) :
  findScopeLoop env (rev (cwd env)) s = Return (Some D) (scope_found D c s) ->
  getLocalDefault env s = Return (Str c) (scope_found D c s).
Proof.
  intros H. unfold getLocalDefault, findScopeFolder, bind. now rewrite H.
Qed.

Lemma getLocalDefault_after_write
    (env : Env) (s s1 s' : State) (D : dir) (c' : jsstring) :
  walk_continues env (cwd env) = true ->
  findScopeFolder env s = Return D s1 ->
  files s' (path_join D LOCAL_CURRENT_FILE) = Some (File c') ->
  (forall p, p <> path_join D LOCAL_CURRENT_FILE ->
             files s' p = files s p \/ files s' p = None) ->
  getLocalDefault env s' = Return (Str c') (scope_found D c' s').
Proof.
  intros Hwalk Hfind Hnew Hrest. apply getLocalDefault_of_loop.
  unfold findScopeFolder, bind in Hfind.
  destruct (findScopeLoop env (rev (cwd env)) s) as [[D'|] s0|e s0] eqn:E;
    try discriminate.
  - injection Hfind as <- _.
    exact (findScopeLoop_after_write env _ s s0 s' D' c' E Hnew Hrest).
  - simpl in Hfind. injection Hfind as <- _.
    now apply findScopeLoop_at.
Qed.

(** X10: [setLocalDefault(d)] writes [d] (without leading white space)
    to the local default file of the scope folder, which is the nearest
    directory that already has such a file, or else the working
    directory.  Unless the process runs in the root directory,
    [getLocalDefault()] then returns the written text, in the same
    process and in a new one started in the same directory. *)
Theorem setLocalDefault_round_trip
    (env : Env) (d rnd : jsstring) (s s1 : State) (D : dir) :
  walk_continues env (cwd env) = true ->
  findScopeFolder env s = Return D s1 ->
  exists s2,
    setLocalDefault env d rnd s = Return tt s2
    /\ trace s2 = trace s ++ [Mkdir (render D);
                             WriteFile (local_tmp D rnd) (trimStart d);
                             Rename (local_tmp D rnd) (path_join D LOCAL_CURRENT_FILE)]
    /\ getLocalDefault env s2
       = Return (Str (trimStart d)) (scope_found D (trimStart d) s2)
    /\ getLocalDefault env (restart s2)
       = Return (Str (trimStart d)) (scope_found D (trimStart d) (restart s2)).
Proof.
  intros Hwalk Hfind.
  destruct (setLocalDefault_run env d rnd s s1 D Hfind)
    as [s2 [Hrun [_ [_ [Htrace [Hfile Hrest]]]]]].
  exists s2. split; [exact Hrun|]. split; [exact Htrace|]. split.
  - exact (getLocalDefault_after_write env s s1 s2 D _ Hwalk Hfind Hfile Hrest).
  - exact (getLocalDefault_after_write env s s1 (restart s2) D _ Hwalk Hfind Hfile Hrest).
Qed.

Lemma setLocalDefault_round_trip_witness :
  exists s2,
    setLocalDefault sample_env SHOP_DOMAIN SHOP file_above_home = Return tt s2
    /\ getLocalDefault sample_env (restart s2)
       = Return (Str SHOP_DOMAIN) (scope_found [lit "home"] SHOP_DOMAIN (restart s2)).
Proof.
  destruct (setLocalDefault_round_trip sample_env SHOP_DOMAIN SHOP file_above_home
              (scope_found [lit "home"] SHOP_DOMAIN file_above_home) [lit "home"]
              eq_refl eq_refl)
    as [s2 [Hrun [_ [_ Hnew]]]].
  exists s2. split; [exact Hrun | exact Hnew].
Defined.

(** X11: in a process whose working directory is the root while the
    home directory is not, the walk reads no file at all:
    [getLocalDefault()] is always [false], and a local default that
    [setLocalDefault] has just written to the root is not found again. *)
Theorem local_default_unseen_at_root (env : Env) (d rnd : jsstring) (s : State) :
  walk_continues env (cwd env) = false ->
  getLocalDefault env s = Return False_ (scope_missing env s)
  /\ exists s2,
       setLocalDefault env d rnd s = Return tt s2
       /\ files s2 (path_join (cwd env) LOCAL_CURRENT_FILE) = Some (File (trimStart d))
       /\ getLocalDefault env s2 = Return False_ (scope_missing env s2)
       /\ getLocalDefault env (restart s2)
          = Return False_ (scope_missing env (restart s2)).
Proof.
  intros Hwalk.
  assert (Hloop : forall s0, findScopeLoop env (rev (cwd env)) s0 = Return None s0).
  { intros s0. rewrite findScopeLoop_unfold, rev_involutive, Hwalk. reflexivity. }
  assert (Hget : forall s0, getLocalDefault env s0 = Return False_ (scope_missing env s0)).
  { intros s0. unfold getLocalDefault, findScopeFolder, bind. now rewrite Hloop. }
  split; [apply Hget|].
  assert (Hfind : findScopeFolder env s = Return (cwd env) (scope_missing env s)).
  { unfold findScopeFolder, bind. now rewrite Hloop. }
  destruct (setLocalDefault_run env d rnd s _ (cwd env) Hfind)
    as [s2 [Hrun [_ [_ [_ [Hfile _]]]]]].
  exists s2. auto.
Qed.

Lemma local_default_unseen_at_root_witness :
  exists s2,
    setLocalDefault root_env SHOP_DOMAIN SHOP (started Undefined no_files)
    = Return tt s2
    /\ files s2 (path_join [] LOCAL_CURRENT_FILE) = Some (File SHOP_DOMAIN)
    /\ getLocalDefault root_env (restart s2)
       = Return False_ (scope_missing root_env (restart s2)).
Proof.
  destruct (proj2 (local_default_unseen_at_root root_env SHOP_DOMAIN SHOP
                     (started Undefined no_files) eq_refl))
    as [s2 [Hrun [Hfile [_ Hnew]]]].
  exists s2. split; [exact Hrun|]. split; [exact Hfile | exact Hnew].
Defined.

(** * References, URLs and validation *)

Lemma no_slash_not_endsWith (p s : jsstring) :
  s <> [] -> ~ In SLASH s -> endsWith (p ++ s) [SLASH] = false.
Proof.
  intros Hne Hs. destruct (endsWith (p ++ s) [SLASH]) eqn:E; [|reflexivity].
  exfalso. apply endsWith_iff in E as [l E].
  destruct (nonempty_snoc s Hne) as [r [x Hx]]. subst s.
  rewrite app_assoc in E. apply app_inj_tail in E as [_ ->].
  apply Hs, in_or_app. right. now left.
Qed.

Lemma no_slash_not_startsWith (s p : jsstring) :
  In SLASH p -> ~ In SLASH s -> startsWith s p = false.
Proof.
  intros Hp Hs. destruct (startsWith s p) eqn:E; [|reflexivity].
  exfalso. apply startsWith_iff in E as [r ->]. apply Hs, in_or_app. now left.
Qed.

Lemma startsWith_app (p s : jsstring) : startsWith (p ++ s) p = true.
Proof. apply startsWith_iff. now exists s. Qed.

Lemma strip_https (d : jsstring) :
  d <> [] -> ~ In SLASH d -> strip_reference (HTTPS ++ d) = d.
Proof.
  intros Hne Hs. unfold strip_reference.
  rewrite (no_slash_not_endsWith HTTPS d Hne Hs).
  rewrite startsWith_app.
  change (slice_from 8 (HTTPS ++ d)) with d.
  rewrite (no_slash_not_startsWith d HTTP), (no_slash_not_startsWith d SLASHES);
    auto; vm_compute; tauto.
Qed.

Lemma strip_http (d : jsstring) :
  d <> [] -> ~ In SLASH d -> strip_reference (HTTP ++ d) = d.
Proof.
  intros Hne Hs. unfold strip_reference.
  rewrite (no_slash_not_endsWith HTTP d Hne Hs).
  change (startsWith (HTTP ++ d) HTTPS) with false. cbv iota.
  rewrite startsWith_app.
  change (slice_from 7 (HTTP ++ d)) with d.
  rewrite (no_slash_not_startsWith d SLASHES); auto; vm_compute; tauto.
Qed.

Lemma strip_trailing_slash (s : jsstring) :
  strip_reference (s ++ [SLASH])
  = (let store := s in
     let store := if startsWith store HTTPS then slice_from 8 store else store in
     let store := if startsWith store HTTP then slice_from 7 store else store in
     if startsWith store SLASHES then slice_from 2 store else store).
Proof.
  unfold strip_reference. rewrite endsWith_snoc. unfold slice_drop_last.
  now rewrite removelast_last.
Qed.

(** X12: the URL of a store leads back to the store.  For a canonical
    domain [d], [jumpsellerDomain(d)], with or without a slash at its
    end, is a reference that [parseStoreReference] accepts as [d]. *)
Theorem parse_jumpsellerDomain (d : jsstring) :
  parseStoreReference d = (true, d) ->
  parseStoreReference (jumpsellerDomain d) = (true, d)
  /\ parseStoreReference (jumpsellerDomain d ++ [SLASH]) = (true, d).
Proof.
  intros Hd. destruct (canonical_domain_chars d Hd) as [Hc Hne].
  pose proof (domain_chars_no_slash d Hc) as Hs.
  assert (Hstrip : strip_reference (jumpsellerDomain d) = d).
  { unfold jumpsellerDomain. destruct (endsWith d DOT_LOCALHOST);
      [now apply strip_http | now apply strip_https]. }
  assert (Hself : strip_reference d = d) by now apply strip_reference_no_slash.
  assert (Hparse : forall x, strip_reference x = d -> parseStoreReference x = (true, d)).
  { intros x Hx. unfold parseStoreReference in *. rewrite Hx. now rewrite Hself in Hd. }
  split; [now apply Hparse|].
  apply Hparse. rewrite strip_trailing_slash.
  pose proof Hstrip as H. unfold strip_reference in H.
  assert (E : endsWith (jumpsellerDomain d) [SLASH] = false).
  { unfold jumpsellerDomain. destruct (endsWith d DOT_LOCALHOST);
      now apply no_slash_not_endsWith. }
  now rewrite E in H.
Qed.

Lemma parse_jumpsellerDomain_witness :
  parseStoreReference (lit "https://shop.jumpseller.com/") = (true, SHOP_DOMAIN)
  /\ parseStoreReference (lit "http://test.localhost") = (true, TEST_LOCALHOST).
Proof.
  split.
  - exact (proj2 (parse_jumpsellerDomain SHOP_DOMAIN eq_refl)).
  - exact (proj1 (parse_jumpsellerDomain TEST_LOCALHOST eq_refl)).
Defined.

Lemma parse_accepts_canonical (s d : jsstring) :
  parseStoreReference s = (true, d) -> parseStoreReference d = (true, d).
Proof.
  unfold parseStoreReference at 1.
  destruct (Js.eqb (strip_reference s) TEST); [intros H; injection H as <-; reflexivity|].
  destruct (re_label_then DOT_JUMPSELLER_COM (strip_reference s)) eqn:E2.
  { intros H. injection H as <-.
    apply re_label_then_iff in E2 as [l [Hl ->]]. now apply parse_production_domain. }
  destruct (re_label_then DOT_LOCALHOST (strip_reference s)) eqn:E3.
  { intros H. injection H as <-.
    apply re_label_then_iff in E3 as [l [Hl ->]]. now apply parse_local_domain. }
  destruct (re_label (strip_reference s)) eqn:E4; [|discriminate].
  intros H. injection H as <-. now apply parse_production_domain.
Qed.

(** X13: [validateStoreDomain] returns only canonical domains: what it
    returns it returns again unchanged, [listCredentials] accepts it as
    a domain, and it is made of [[a-z0-9_.-]] only; what it rejects it
    reports by the value as typed, not by the stripped one. *)
Theorem validateStoreDomain_canonical (value : jsstring) :
  match validateStoreDomain value with
  | Valid d =>
      validateStoreDomain d = Valid d
      /\ parseStoreReference d = (true, d)
      /\ Forall (fun c => is_domain_char c = true) d /\ d <> []
  | InvalidArgument v =>
      v = value /\ parseStoreReference value = (false, strip_reference value)
  end.
Proof.
  unfold validateStoreDomain.
  destruct (parseStoreReference value) as [[|] d] eqn:E.
  - pose proof (parse_accepts_canonical value d E) as Hd.
    rewrite Hd. split; [reflexivity|]. split; [reflexivity|].
    now apply canonical_domain_chars.
  - split; [reflexivity|]. f_equal.
    unfold parseStoreReference in E.
    repeat match type of E with
           | (if ?b then _ else _) = _ => destruct b; try discriminate
           end.
    now injection E as <-.
Qed.

(** * The current store, asked twice *)

Lemma findScopeLoop_files (env : Env) (up : list jsstring) (s s1 s' : State) (r : option dir) :
  files s' = files s ->
  findScopeLoop env up s = Return r s1 ->
  findScopeLoop env up s' = Return r (match r with
                                      | Some _ => copy_scope s1 s'
                                      | None => s'
                                      end).
Proof.
  intros Hf. induction up as [|x up IH].
  - rewrite (findScopeLoop_unfold env [] s), (findScopeLoop_unfold env [] s'), Hf.
    destruct (walk_continues env (rev [])).
    + destruct (files s (path_join (rev []) LOCAL_CURRENT_FILE)) as [[content|[]]|];
        try discriminate; intros H; injection H as <- <-; reflexivity.
    + intros H; injection H as <- <-; reflexivity.
  - rewrite (findScopeLoop_unfold env (x :: up) s),
            (findScopeLoop_unfold env (x :: up) s'), Hf.
    destruct (walk_continues env (rev (x :: up))).
    + destruct (files s (path_join (rev (x :: up)) LOCAL_CURRENT_FILE))
        as [[content|[]]|];
        try discriminate; try exact IH; intros H; injection H as <- <-; reflexivity.
    + intros H; injection H as <- <-; reflexivity.
Qed.

Lemma getLocalDefault_files (env : Env) (s s1 s' : State) (L : value) :
  files s' = files s ->
  getLocalDefault env s = Return L s1 ->
  getLocalDefault env s' = Return L (copy_scope s1 s').
Proof.
  intros Hf. unfold getLocalDefault, findScopeFolder, bind.
  destruct (findScopeLoop env (rev (cwd env)) s) as [[D|] s0|e s0] eqn:E;
    try discriminate.
  - rewrite (findScopeLoop_files env _ s s0 s' _ Hf E). simpl.
    intros H. injection H as <- <-. reflexivity.
  - rewrite (findScopeLoop_files env _ s s0 s' _ Hf E). simpl.
    intros H. injection H as <- <-. reflexivity.
Qed.

Lemma copy_scope_same (s1 s' : State) :
  scopeDefault (auth s') = scopeDefault (auth s1) ->
  scopeFolder (auth s') = scopeFolder (auth s1) ->
  copy_scope s1 s' = s'.
Proof.
  destruct s' as [[t ch g sd sf cs] f tr co]. unfold copy_scope. simpl.
  intros <- <-. reflexivity.
Qed.

Lemma getGlobalDefault_result (env : Env) (s s1 : State) (G : value) :
  getGlobalDefault env s = Return G s1 ->
  globalDefault (auth s1) = G /\ G <> Undefined
  /\ files s1 = files s /\ commandStore (auth s1) = commandStore (auth s)
  /\ scopeDefault (auth s1) = scopeDefault (auth s)
  /\ scopeFolder (auth s1) = scopeFolder (auth s).
Proof.
  unfold getGlobalDefault, loadGlobalDefault, bind, get_auth.
  destruct (globalDefault (auth s)) eqn:Eg.
  - unfold readFileIfExists, catch, readFileSync.
    destruct (files s (GLOBAL_CURRENT_FILE env)) as [[c|[]]|]; simpl; try discriminate;
      intros H; injection H as <- <-; simpl;
      repeat split; try reflexivity;
      try (destruct (nonempty (trim c))); discriminate.
  - simpl. rewrite Eg. intros H. injection H as <- <-.
    rewrite Eg. repeat split. discriminate.
  - simpl. rewrite Eg. intros H. injection H as <- <-.
    rewrite Eg. repeat split. discriminate.
Qed.

Lemma currentStore_unfold (env : Env) (s : State) :
  currentStore env s =
  if truthy (commandStore (auth s)) then Return (commandStore (auth s)) s
  else match getLocalDefault env s with
       | Throw e s' => Throw e s'
       | Return L sL => if truthy L then Return L sL else getGlobalDefault env sL
       end.
Proof.
  unfold currentStore, bind at 1, get_auth.
  destruct (truthy (commandStore (auth s))); [reflexivity|].
  unfold bind. destruct (getLocalDefault env s) as [L sL|e sL]; [|reflexivity].
  now destruct (truthy L).
Qed.

(** What [currentStore] returned it returns again, without a change of
    state, in every state with the same files and the same layers. *)
Lemma currentStore_again (env : Env) (s s1 s2 : State) (v : value) :
  currentStore env s = Return v s1 ->
  same_layers s1 s2 ->
  currentStore env s2 = Return v s2.
Proof.
  rewrite (currentStore_unfold env s), (currentStore_unfold env s2).
  intros Hrun [Hf [Hc [Hg [Hsd Hsf]]]].
  destruct (truthy (commandStore (auth s))) eqn:Ec.
  - injection Hrun as <- <-. now rewrite Hc, Ec.
  - destruct (getLocalDefault env s) as [L sL|e sL] eqn:EL; [|discriminate].
    destruct (getLocalDefault_frame env s sL L EL) as [HfL [_ [_ [HgL [HcL _]]]]].
    destruct (truthy L) eqn:Et.
    + injection Hrun as <- <-.
      assert (EL2 : getLocalDefault env s2 = Return L s2).
      { rewrite (getLocalDefault_files env s sL s2 L); [|congruence|exact EL].
        now rewrite copy_scope_same. }
      now rewrite Hc, HcL, Ec, EL2, Et.
    + destruct (getGlobalDefault_result env sL s1 v Hrun)
        as [Hv [Hdef [Hf1 [Hc1 [Hsd1 Hsf1]]]]].
      assert (EL2 : getLocalDefault env s2 = Return L s2).
      { rewrite (getLocalDefault_files env s sL s2 L); [|congruence|exact EL].
        rewrite copy_scope_same; congruence. }
      rewrite Hc, Hc1, HcL, Ec, EL2, Et.
      rewrite getGlobalDefault_cached; congruence.
Qed.

Lemma same_layers_refl (s : State) : same_layers s s.
Proof. repeat split. Qed.

(** X14: [currentStore()] is stable: called again right after it
    returned, it returns the same store and leaves the state as it is. *)
Theorem currentStore_stable (env : Env) (s s1 : State) (v : value) :
  currentStore env s = Return v s1 ->
  currentStore env s1 = Return v s1.
Proof.
  intros H. exact (currentStore_again env s s1 s1 v H (same_layers_refl s1)).
Qed.

Lemma currentStore_stable_witness :
  exists s1,
    currentStore sample_env (started Undefined layered_files)
    = Return (Str LOCAL_DOMAIN) s1
    /\ currentStore sample_env s1 = Return (Str LOCAL_DOMAIN) s1.
Proof.
  eexists. split; [reflexivity|].
  exact (currentStore_stable sample_env (started Undefined layered_files) _
           (Str LOCAL_DOMAIN) eq_refl).
Defined.

(** * The guard of the store commands *)

Lemma entry_valid (content d c : jsstring) :
  map_get (fst (listCredentials_of content)) d = Some c ->
  parseStoreReference d = (true, d) /\ validCredentials c = true.
Proof.
  rewrite lookup_text. unfold lookup_lines.
  destruct (find (lists d) (splitLines content)) as [l|] eqn:E; [|discriminate].
  apply find_some in E as [_ E]. unfold lists in E.
  apply andb_true_iff in E as [Hp Hd]. apply eqb_eq in Hd.
  apply passes_checks in Hp as [Hparse [c' [Hc' Hv]]].
  simpl. unfold credentials_of. rewrite Hc'. intros H. injection H as <-.
  now rewrite <- Hd.
Qed.

Lemma loadCredentialsFile_layers (env : Env) (s s1 : State) (content : jsstring) :
  loadCredentialsFile env s = Return content s1 -> same_layers s s1.
Proof.
  unfold loadCredentialsFile, bind, get_auth.
  destruct (credentialsText (auth s)) as [text|].
  - intros H. injection H as _ <-. apply same_layers_refl.
  - unfold readFileIfExists, catch, readFileSync.
    destruct (files s (CREDENTIALS_FILE env)) as [[c|[]]|]; simpl; try discriminate;
      intros H; injection H as _ <-; repeat split.
Qed.

Lemma listCredentials_inv (env : Env) (s s2 : State) (m : CredMap) :
  listCredentials env s = Return m s2 ->
  exists content s1,
    loadCredentialsFile env s = Return content s1
    /\ m = fst (listCredentials_of content)
    /\ s2 = mkState (auth s1) (files s1) (trace s1)
                    (console s1 ++ snd (listCredentials_of content)).
Proof.
  unfold listCredentials, bind.
  destruct (loadCredentialsFile env s) as [content s1|e s1] eqn:E; [|discriminate].
  intros H. exists content, s1. split; [reflexivity|].
  destruct (listCredentials_of content) as [m' log]. simpl in *.
  unfold console_error in H. injection H as <- <-. split; reflexivity.
Qed.

Lemma getGlobalDefault_frame (env : Env) (s s1 : State) (G : value) :
  getGlobalDefault env s = Return G s1 ->
  trace s1 = trace s
  /\ credentialsText (auth s1) = credentialsText (auth s)
  /\ credentialsTextChanged (auth s1) = credentialsTextChanged (auth s).
Proof.
  unfold getGlobalDefault, loadGlobalDefault, bind, get_auth.
  destruct (globalDefault (auth s)) eqn:Eg.
  - unfold readFileIfExists, catch, readFileSync.
    destruct (files s (GLOBAL_CURRENT_FILE env)) as [[c|[]]|]; simpl; try discriminate;
      intros H; injection H as _ <-; repeat split.
  - simpl. intros H. injection H as _ <-. repeat split.
  - simpl. intros H. injection H as _ <-. repeat split.
Qed.

(** [currentStore] writes nothing and leaves the credential text alone. *)
Lemma currentStore_frame (env : Env) (s s1 : State) (v : value) :
  currentStore env s = Return v s1 ->
  files s1 = files s /\ trace s1 = trace s
  /\ credentialsText (auth s1) = credentialsText (auth s)
  /\ credentialsTextChanged (auth s1) = credentialsTextChanged (auth s).
Proof.
  rewrite currentStore_unfold.
  destruct (truthy (commandStore (auth s))).
  - intros H. injection H as _ <-. repeat split.
  - destruct (getLocalDefault env s) as [L sL|e sL] eqn:EL; [|discriminate].
    destruct (getLocalDefault_frame env s sL L EL) as [Hf [Ht [_ [_ [_ [Hc Hd]]]]]].
    destruct (truthy L).
    + intros H. injection H as _ <-. auto.
    + intros H.
      destruct (getGlobalDefault_result env sL s1 v H) as [_ [_ [Hf1 _]]].
      destruct (getGlobalDefault_frame env sL s1 v H) as [Ht1 [Hc1 Hd1]].
      repeat split; congruence.
Qed.

Section Guard.

Variable env : Env.
Variable A : Type.
Variable action : State -> command_outcome A.

(** X15: the guard [withCurrentStore].  It resolves the current store
    and reads the credential list before it judges either, so a read
    error comes first; then no store is a [NoStoreError] and a store
    without a valid entry a [NoCredentialsError].  The action runs only
    for a canonical domain with well-formed credentials, in a state in
    which [currentStore()] gives that domain again and
    [getCredentials] those credentials.  The guard writes no file and
    leaves the dirty flag alone. *)
Theorem withCurrentStore_guard (s : State) :
  (forall e s1, currentStore env s = Throw e s1 ->
                withCurrentStore env action s = Failed (Uncaught e) s1)
  /\ (forall v s1 e s2,
        currentStore env s = Return v s1 -> listCredentials env s1 = Throw e s2 ->
        withCurrentStore env action s = Failed (Uncaught e) s2)
  /\ (forall v s1 m s2,
        currentStore env s = Return v s1 -> listCredentials env s1 = Return m s2 ->
        files s2 = files s /\ trace s2 = trace s
        /\ credentialsTextChanged (auth s2) = credentialsTextChanged (auth s)
        /\ (truthy v = false ->
            withCurrentStore env action s = Failed NoStoreError s2)
        /\ (forall d, v = Str d -> d <> [] -> map_get m d = None ->
            withCurrentStore env action s = Failed (NoCredentialsError v) s2)
        /\ (forall d c, v = Str d -> d <> [] -> map_get m d = Some c ->
            withCurrentStore env action s = action s2
            /\ parseStoreReference d = (true, d) /\ validCredentials c = true
            /\ currentStore env s2 = Return (Str d) s2
            /\ exists s3, getCredentials env d s2 = Return (Some c) s3)).
Proof.
  split; [|split].
  - intros e s1 H. unfold withCurrentStore. now rewrite H.
  - intros v s1 e s2 H1 H2. unfold withCurrentStore, getCredentials_value, bind.
    now rewrite H1, H2.
  - intros v s1 m s2 H1 H2.
    assert (Hrun : withCurrentStore env action s
                   = if negb (truthy v) then Failed NoStoreError s2
                     else match (match v with Str d => map_get m d | _ => None end) with
                          | None => Failed (NoCredentialsError v) s2
                          | Some _ => action s2
                          end).
    { unfold withCurrentStore, getCredentials_value, bind. now rewrite H1, H2. }
    destruct (currentStore_frame env s s1 v H1) as [Hf1 [Ht1 [_ Hd1]]].
    destruct (listCredentials_inv env s1 s2 m H2) as [content [s1' [Hload [Hm Hs2]]]].
    destruct (loadCredentialsFile_frame env s1 s1' content Hload)
      as [Htext [Hd2 [Hf2 [Ht2 _]]]].
    pose proof (loadCredentialsFile_layers env s1 s1' content Hload) as Hlayers.
    subst s2. simpl.
    split; [congruence|]. split; [congruence|]. split; [congruence|].
    split; [|split].
    + intros Hv. now rewrite Hrun, Hv.
    + intros d -> Hne Hnone. rewrite Hrun, Hnone.
      destruct d; [contradiction | reflexivity].
    + intros d c -> Hne Hsome. rewrite Hrun, Hsome.
      split; [destruct d; [contradiction | reflexivity]|].
      rewrite Hm in Hsome. destruct (entry_valid content d c Hsome) as [Hp Hv].
      split; [exact Hp|]. split; [exact Hv|]. split.
      * apply (currentStore_again env s s1 _ (Str d) H1).
        destruct Hlayers as [? [? [? [? ?]]]]. repeat split; assumption.
      * eexists. rewrite <- Hsome. apply getCredentials_run.
        now apply loadCredentialsFile_loaded.
Qed.

End Guard.

Lemma withCurrentStore_guard_witness :
  withCurrentStore sample_env (fun s => Done tt s) (started Undefined no_files)
  = Failed NoStoreError
           (mkState (set_credentialsText [] (auth (global_loaded False_
                       (scope_missing sample_env (started Undefined no_files)))))
                    no_files [] []).
Proof.
  refine (proj1 (proj2 (proj2 (proj2
            (proj2 (proj2 (withCurrentStore_guard sample_env unit (fun s => Done tt s)
                             (started Undefined no_files)))
               False_ _ [] _ eq_refl eq_refl)))) eq_refl).
Defined.

(** * The git root *)

Lemma snoc_split {X} (near d rest : list X) (x : X) :
  near ++ [x] = d ++ rest ->
  (rest = [] /\ d = near ++ [x])
  \/ (exists rest', rest = rest' ++ [x] /\ near = d ++ rest').
Proof.
  intros H. induction rest as [|r0 rest IHrest] using rev_ind.
  - left. rewrite app_nil_r in H. auto.
  - right. clear IHrest. rewrite app_assoc in H.
    apply app_inj_tail in H as [H ->]. now exists rest.
Qed.

Section GitRootFacts.

Variable present : jsstring -> bool.

Lemma findGitRoot_from_spec (up : list jsstring) :
  match findGitRoot_from present up with
  | Some D =>
      D <> []
      /\ exists near,
           rev up = D ++ near
           /\ present (path_join D DOT_GIT) = true
           /\ forall d rest, near = d ++ rest -> d <> [] ->
                             present (path_join (D ++ d) DOT_GIT) = false
  | None =>
      forall D near, rev up = D ++ near -> D <> [] ->
                     present (path_join D DOT_GIT) = false
  end.
Proof.
  induction up as [|x up IH].
  - simpl. intros D near H Hne. symmetry in H. apply app_eq_nil in H as [H _].
    contradiction.
  - change (findGitRoot_from present (x :: up))
      with (if present (path_join (rev (x :: up)) DOT_GIT)
            then Some (rev (x :: up)) else findGitRoot_from present up).
    destruct (present (path_join (rev (x :: up)) DOT_GIT)) eqn:Ep; cbv beta iota.
    + split.
      * simpl. intros E. apply app_eq_nil in E as [_ E]. discriminate.
      * exists []. split; [now rewrite app_nil_r|]. split; [exact Ep|].
        intros d rest H Hne. symmetry in H. apply app_eq_nil in H as [H _].
        contradiction.
    + destruct (findGitRoot_from present up) as [D|].
      * destruct IH as [HD [near [Hup [Hp Hnear]]]]. split; [exact HD|].
        exists (near ++ [x]). split; [simpl; now rewrite Hup, app_assoc|].
        split; [exact Hp|].
        intros d rest H Hne.
        apply snoc_split in H as [[_ ->]|[rest' [_ ->]]].
        -- rewrite app_assoc, <- Hup. exact Ep.
        -- now apply (Hnear d rest').
      * intros D near H Hne. simpl in H.
        apply snoc_split in H as [[_ ->]|[rest' [_ H]]].
        -- exact Ep.
        -- now apply (IH D rest').
Qed.

(** X16: [findGitRoot] returns the nearest directory, from the given one
    upwards, that holds a [.git] entry, and never the root directory:
    it returns nothing exactly when no directory below the root on the
    way up holds one, whether or not the root itself does. *)
Theorem findGitRoot_nearest (d : dir) :
  match findGitRoot present d with
  | Some D =>
      D <> []
      /\ exists near,
           d = D ++ near
           /\ present (path_join D DOT_GIT) = true
           /\ forall d' rest, near = d' ++ rest -> d' <> [] ->
                              present (path_join (D ++ d') DOT_GIT) = false
  | None =>
      forall D near, d = D ++ near -> D <> [] ->
                     present (path_join D DOT_GIT) = false
  end
  /\ ((forall D near, d = D ++ near -> D <> [] ->
                      present (path_join D DOT_GIT) = false) ->
      findGitRoot present d = None).
Proof.
  pose proof (findGitRoot_from_spec (rev d)) as H. rewrite rev_involutive in H.
  unfold findGitRoot. split; [exact H|].
  intros Hnone. destruct (findGitRoot_from present (rev d)) as [D|]; [|reflexivity].
  destruct H as [HD [near [Hd [Hp _]]]].
  rewrite (Hnone D near Hd HD) in Hp. discriminate.
Qed.

Variable sha1 : jsstring -> jsstring.

(** X17: when no directory below the root on the way up from the
    watched folder holds a [.git] entry, also when the root itself
    does, [#pinGitRepository] leaves a new watcher without an observer
    and the GitGuard check is negative whatever the working tree
    shows. *)
Theorem git_guard_off_without_root
    (folder : dir) (allow block : list jsstring) (r r' : Repo) :
  (forall D near, folder = D ++ near -> D <> [] ->
                  present (path_join D DOT_GIT) = false) ->
  pinGitRepository present sha1 folder r (new_watcher allow block)
  = new_watcher allow block
  /\ checkGitRepository sha1
       (pinGitRepository present sha1 folder r (new_watcher allow block)) r' = false.
Proof.
  intros Hnone.
  assert (E : findGitRoot present folder = None).
  { pose proof (findGitRoot_from_spec (rev folder)) as H.
    rewrite rev_involutive in H. unfold findGitRoot.
    destruct (findGitRoot_from present (rev folder)) as [D|]; [|reflexivity].
    destruct H as [HD [near [Hd [Hp _]]]].
    rewrite (Hnone D near Hd HD) in Hp. discriminate. }
  unfold pinGitRepository. rewrite E. split; reflexivity.
Qed.

End GitRootFacts.

Lemma git_guard_off_without_root_witness :
  git_at_root (lit "/.git") = true
  /\ checkGitRepository plain_digest
       (pinGitRepository git_at_root plain_digest [lit "theme"] pinned_repo
          (new_watcher [] []))
       (mkRepo true FEATURE []) = false.
Proof.
  split; [reflexivity|].
  refine (proj2 (git_guard_off_without_root git_at_root plain_digest [lit "theme"]
                   [] [] pinned_repo (mkRepo true FEATURE []) _)).
  intros D near H Hne.
  destruct D as [|x D]; [contradiction|].
  simpl in H. injection H as <- H.
  symmetry in H. apply app_eq_nil in H as [-> _]. reflexivity.
Defined.

(** ** Collected option values *)

Lemma push_same h r v : push h r v r = h r ++ [v].
Proof. unfold push. now rewrite Nat.eqb_refl. Qed.

Lemma push_other h r v q : q <> r -> push h r v q = h q.
Proof.
  intros Hq. unfold push.
  destruct (Nat.eqb q r) eqn:E; [apply Nat.eqb_eq in E; contradiction | reflexivity].
Qed.

Lemma push_all_same vs : forall h r, push_all h r vs r = h r ++ vs.
Proof.
  induction vs as [|v vs IH]; intros h r; simpl.
  - now rewrite app_nil_r.
  - unfold push_all in *. simpl. rewrite IH, push_same, <- app_assoc. reflexivity.
Qed.

Lemma push_all_other vs : forall h r q, q <> r -> push_all h r vs q = h q.
Proof.
  induction vs as [|v vs IH]; intros h r q Hq; simpl; [reflexivity|].
  unfold push_all in *. simpl. rewrite IH by assumption. now apply push_other.
Qed.

(** X18: The collector of repeated values works in place: every call
    appends the validated value to the array it was handed, or to its
    one [initial] array when handed none, and returns that same array.
    So a run over some values leaves the validated values at the end of
    what the array already held, touches no other array, and answers
    the array itself (the previous value when no value was given); it
    fails exactly when the validator rejects one of the values. *)
Theorem validationCollector_in_place (validator : jsstring -> option jsstring)
    (initial : ref) (values : list jsstring) (previous : option ref) (h : Heap) :
  let target := match previous with Some p => p | None => initial end in
  match collect_all validator initial values previous h with
  | Some (r, h') =>
      exists vs,
        map validator values = map Some vs /\
        r = match values with [] => previous | _ :: _ => Some target end /\
        h' target = h target ++ vs /\
        forall q, q <> target -> h' q = h q
  | None => exists v, In v values /\ validator v = None
  end.
Proof.
  revert previous h.
  induction values as [|v rest IH]; intros previous h; cbv zeta.
  - simpl. exists []. repeat split. now rewrite app_nil_r.
  - set (t := match previous with Some p => p | None => initial end).
    simpl. unfold collect. fold t.
    destruct (validator v) as [x|] eqn:Ev.
    + specialize (IH (Some t) (push h t x)). cbv zeta in IH.
      destruct (collect_all validator initial rest (Some t) (push h t x)) as [[r h']|].
      * destruct IH as (vs & Hmap & Hr & Hsame & Hother).
        exists (x :: vs). simpl. rewrite Hmap. split; [reflexivity|].
        split; [now destruct rest|]. split.
        -- rewrite Hsame, push_same, <- app_assoc. reflexivity.
        -- intros q Hq. rewrite Hother by assumption. now apply push_other.
      * destruct IH as (v' & Hin & Hv'). exists v'. split; [now right | assumption].
    + exists v. split; [now left | assumption].
Qed.

Lemma parse_watch_options_spec given : forall block allow h,
  block <> allow ->
  exists h',
    parse_watch_options given block allow h = (block, allow, h') /\
    h' block = h block ++ blocks_of given /\
    h' allow = h allow ++ allows_of given.
Proof.
  induction given as [|[p|p] rest IH]; intros block allow h Hne; simpl.
  - exists h. now rewrite !app_nil_r.
  - destruct (IH block allow (push h block p) Hne) as (h' & Hrun & Hb & Ha).
    exists h'. split; [assumption|]. split.
    + rewrite Hb, push_same, <- app_assoc. reflexivity.
    + rewrite Ha, push_other by congruence. reflexivity.
  - destruct (IH block allow (push h allow p) Hne) as (h' & Hrun & Hb & Ha).
    exists h'. split; [assumption|]. split.
    + rewrite Hb, push_other by congruence. reflexivity.
    + rewrite Ha, push_same, <- app_assoc. reflexivity.
Qed.

Lemma watch_lists_spec given unsafe :
  watch_lists given unsafe =
    (allows_of given ++ (if unsafe then COMPONENTS_JSON :: blocks_of given else []),
     COMPONENTS_JSON :: blocks_of given).
Proof.
  unfold watch_lists.
  destruct (parse_watch_options_spec given WATCH_UNSAFE_FILES ALLOW_DEFAULT watch_heap)
    as (h' & Hrun & Hb & Ha); [discriminate|].
  rewrite Hrun.
  change (watch_heap WATCH_UNSAFE_FILES) with [COMPONENTS_JSON] in Hb.
  change (watch_heap ALLOW_DEFAULT) with (@nil jsstring) in Ha.
  simpl in Hb, Ha.
  destruct unsafe; unfold apply_unsafe.
  - rewrite push_all_same, push_all_other by discriminate.
    rewrite Hb, Ha. reflexivity.
  - rewrite Hb, Ha, app_nil_r. reflexivity.
Qed.

Lemma anyMatch_app glob path l1 l2 :
  anyMatch glob path (l1 ++ l2) = anyMatch glob path l1 || anyMatch glob path l2.
Proof. unfold anyMatch. apply existsb_app. Qed.

(** X19: [theme watch --unsafe] cancels the whole blocklist.  The
    values of [--block] are collected in the array [WATCH_UNSAFE_FILES]
    itself, and [--unsafe] pushes the content of that array onto the
    allowlist: the blocklist is the default pattern followed by the
    patterns given, and with [--unsafe] the allowlist ends with all of
    them.  So a path that a blocklist pattern matches is synced with
    [--unsafe], whatever pattern blocks it, while without [--unsafe] it
    is skipped unless an [--allow] pattern matches it. *)
Theorem unsafe_cancels_blocklist (glob : jsstring -> jsstring -> bool)
    (given : list watch_option) (path : jsstring) :
  anyMatch glob path (blocklist (watch_watcher given true)) = true ->
  blocklist (watch_watcher given true) = COMPONENTS_JSON :: blocks_of given /\
  allowlist (watch_watcher given true) = allows_of given ++ COMPONENTS_JSON :: blocks_of given /\
  isKnownPath (anyMatch glob) (watch_watcher given true) path = true /\
  isKnownPath (anyMatch glob) (watch_watcher given false) path
    = anyMatch glob path (allows_of given).
Proof.
  unfold watch_watcher. rewrite !watch_lists_spec. simpl blocklist. simpl allowlist.
  intros Hblock. split; [reflexivity|]. split; [reflexivity|]. split.
  - unfold isKnownPath. simpl allowlist.
    rewrite anyMatch_app, Hblock, orb_true_r. reflexivity.
  - unfold isKnownPath. simpl allowlist. simpl blocklist.
    rewrite app_nil_r, Hblock.
    now destruct (anyMatch glob path (allows_of given)).
Qed.

(** [--block secret.txt --unsafe]: the file is synced. *)
Lemma unsafe_cancels_blocklist_witness :
  anyMatch Js.eqb (lit "secret.txt")
    (blocklist (watch_watcher [BlockOption (lit "secret.txt")] true)) = true /\
  isKnownPath (anyMatch Js.eqb) (watch_watcher [BlockOption (lit "secret.txt")] true)
    (lit "secret.txt") = true /\
  isKnownPath (anyMatch Js.eqb) (watch_watcher [BlockOption (lit "secret.txt")] false)
    (lit "secret.txt") = false.
Proof.
  pose (given := [BlockOption (lit "secret.txt")]).
  change (anyMatch Js.eqb (lit "secret.txt") (blocklist (watch_watcher given true)) = true /\
    isKnownPath (anyMatch Js.eqb) (watch_watcher given true) (lit "secret.txt") = true /\
    isKnownPath (anyMatch Js.eqb) (watch_watcher given false) (lit "secret.txt") = false).
  assert (H : anyMatch Js.eqb (lit "secret.txt") (blocklist (watch_watcher given true)) = true)
    by (vm_compute; reflexivity).
  split; [exact H|].
  destruct (unsafe_cancels_blocklist Js.eqb given (lit "secret.txt") H) as (_ & _ & Hk & Hs).
  split; [exact Hk|]. rewrite Hs. vm_compute. reflexivity.
Defined.

(** ** Tables *)

Lemma emptyValue_or_empty c : emptyValue (or_empty c) = negb (cell_truthy c).
Proof.
  unfold or_empty.
  destruct c as [| |[|]|n|[|x s]]; simpl; try reflexivity.
  destruct (Z.eqb n 0); reflexivity.
Qed.

Lemma or_empty_label s : or_empty (CString s) = CString s.
Proof. now destruct s. Qed.

Lemma length_mapi_from {A B : Type} (f : nat -> A -> B) l :
  forall i, length (mapi_from f i l) = length l.
Proof. induction l as [|a l IH]; intros i; simpl; [reflexivity | now rewrite IH]. Qed.

Lemma forallb_map_ext {A B : Type} (f : B -> bool) (g : A -> B) (k : A -> bool) l :
  (forall a, f (g a) = k a) -> forallb f (map g l) = forallb k l.
Proof.
  intros H. induction l as [|a l IH]; simpl; [reflexivity | now rewrite H, IH].
Qed.

Lemma header_cells (content : list row) (done rest : list (jsstring * jsstring)) :
  mapi_from (fun i label =>
               if forallb (fun r => emptyValue (nth i r CUndefined))
                    (map (fun r : row => map (fun key => or_empty (r key))
                                             (map fst (done ++ rest))) content)
               then CString []
               else or_empty (CString label))
            (length done) (map snd rest)
  = map (fun kl => if blank_column content (fst kl) then CString [] else CString (snd kl)) rest.
Proof.
  revert done.
  induction rest as [|[key label] rest IH]; intros done; simpl; [reflexivity|].
  f_equal.
  - unfold blank_column.
    rewrite (forallb_map_ext _ _ (fun r : row => negb (cell_truthy (r key)))).
    + now rewrite or_empty_label.
    + intros r. rewrite map_app, map_app. simpl.
      rewrite app_nth2 by (rewrite !length_map; lia).
      rewrite !length_map, Nat.sub_diag. simpl. apply emptyValue_or_empty.
  - specialize (IH (done ++ [(key, label)])).
    rewrite <- app_assoc in IH. simpl in IH.
    rewrite length_app in IH. simpl in IH. rewrite Nat.add_1_r in IH.
    exact IH.
Qed.

Lemma assembleTable_by_key info content :
  assembleTable info content =
    map (fun kl => if blank_column content (fst kl) then CString [] else CString (snd kl)) info
    :: map (fun r : row => map (fun kl => or_empty (r (fst kl))) info) content.
Proof.
  unfold assembleTable. f_equal.
  - exact (header_cells content [] info).
  - apply map_ext. intros r. now rewrite map_map.
Qed.

(** X20: the table [assembleTable] builds is rectangular and has no
    hole: one header row and one row for each row object, each with one
    cell for each key.  The body cell of a row under a key is the value
    the row has under that key when that value is truthy and the empty
    string otherwise, so never [undefined], [null], [false] or [0]; a
    header cell is the label of its column, or the empty string when no
    row has a truthy value in that column.  With no row at all every
    header cell is empty. *)
Theorem assembleTable_shape (info : list (jsstring * jsstring)) (content : list row) :
  assembleTable info content =
    map (fun kl => if blank_column content (fst kl) then CString [] else CString (snd kl)) info
    :: map (fun r : row =>
              map (fun kl => if cell_truthy (r (fst kl)) then r (fst kl) else CString [])
                  info)
           content
  /\ (forall i j r key label,
        nth_error content i = Some r -> nth_error info j = Some (key, label) ->
        nth_error (nth (S i) (assembleTable info content) []) j
        = Some (if cell_truthy (r key) then r key else CString [])
        /\ nth_error (nth 0 (assembleTable info content) []) j
           = Some (if blank_column content key then CString [] else CString label))
  /\ length (assembleTable info content) = S (length content)
  /\ Forall (fun cells => length cells = length info) (assembleTable info content)
  /\ Forall (Forall (fun c => cell_truthy c = true \/ c = CString []))
            (tl (assembleTable info content))
  /\ (content = [] -> hd [] (assembleTable info content) = map (fun _ => CString []) info).
Proof.
  rewrite assembleTable_by_key. unfold or_empty. split; [reflexivity|]. split.
  - intros i j r key label Hi Hj. simpl nth. split.
    + erewrite nth_error_nth
        by (rewrite nth_error_map, Hi; reflexivity).
      now rewrite nth_error_map, Hj.
    + now rewrite nth_error_map, Hj.
  - simpl. repeat split.
    + now rewrite length_map.
    + constructor; [now rewrite length_map|].
      apply Forall_forall. intros cells Hin.
      apply in_map_iff in Hin. destruct Hin as (r & <- & _). now rewrite length_map.
    + apply Forall_forall. intros cells Hin.
      apply in_map_iff in Hin. destruct Hin as (r & <- & _).
      apply Forall_forall. intros c Hc.
      apply in_map_iff in Hc. destruct Hc as (kl & <- & _).
      destruct (cell_truthy (r (fst kl))) eqn:E; [now left | now right].
    + intros ->. reflexivity.
Qed.

(** Two stores, the second without an account: its account cell is
    empty, the account column keeps its label. *)
Lemma assembleTable_shape_witness :
  nth_error (nth 2 (assembleTable sample_info [first_row; second_row]) []) 1
  = Some (CString [])
  /\ nth_error (nth 0 (assembleTable sample_info [first_row; second_row]) []) 1
     = Some (CString (lit "account")).
Proof.
  exact (proj1 (proj2 (assembleTable_shape sample_info [first_row; second_row]))
               1 1 second_row (lit "account") (lit "account") eq_refl eq_refl).
Defined.
